(** * Verification of [data_generator.py]

    A shallow embedding of the fixture generators of [data_generator.py]
    and the proofs of the properties stated for them.

    Conventions of the embedding.
    - Python [int] is [Z].  Python [float] is modelled by an exact rational
      [Q]: the arithmetic of the generators is carried out without the
      rounding error and the overflow of binary64.  The generators are
      exact about which value is drawn from which range and how it is
      rounded for display; they do not show the last-bit error of a
      binary64 result, nor the [OverflowError] of an [int] too large for
      a [float].  Where the caller chooses the numbers that enter float
      arithmetic (the bounds of [generate_numbers] with ['float'], the
      initial value of [generate_time_series]) the properties are stated
      for arguments small enough for the two to agree on what is stated;
      [generate_numbers_binary64] and [generate_time_series_binary64] are
      the same two computations with every operation rounded as binary64
      rounds it, for which the properties are proved as well, and which
      show what happens beyond those arguments.
    - The ambient random source ([random], seeded at import) and the wall
      clock ([datetime.now]) are explicit components of the world state that
      every generator threads.  The random source is a parameter: the two
      primitives of [Lib/random.py] ([random()] and [_randbelow(n)]) with
      their documented ranges; everything else ([randint], [uniform],
      [choice], [choices], [shuffle]) is defined from them as the library
      does.
    - A [datetime] is a number of microseconds since [datetime.min], with
      the range of the [datetime] type; an addition that leaves the range
      raises [OverflowError].
    - A raised exception is a result: a generator maps a world to either a
      value or an exception, together with the world it leaves behind.
    - Object identity is modelled for the purchase dicts of
      [generate_user_data] alone, the only objects that a stated property
      tells apart; every other record is a plain value, and nothing is said
      about its identity. *)

From Stdlib Require Import ZArith QArith Qround Qabs Qpower Lqa Lia.
From Stdlib Require Import Ascii String Floats.SpecFloat.
From stdpp Require Import base list strings gmap pretty.

Local Open Scope Z_scope.

(** ** Python values *)

(** The exceptions the module and the library functions it calls can raise. *)
Inductive exn : Type :=
| ValueError
| IndexError
| OverflowError.

Inductive result (A : Type) : Type :=
| Ok (a : A)
| Raise (e : exn).
Arguments Ok {A} a.
Arguments Raise {A} e.

(** An element of [generate_numbers]: an [int] or a [float]. *)
Inductive number : Type :=
| NInt (z : Z)
| NFloat (q : Q).

Definition number_val (x : number) : Q :=
  match x with
  | NInt z => inject_Z z
  | NFloat q => q
  end.

(** [round(x, ndigits)] on a float: the nearest multiple of [10^-ndigits],
    ties going to the even multiple. *)
Definition round_half_even (x : Q) : Z :=
  let f := Qfloor x in
  match Qcompare (x - inject_Z f) (1 # 2) with
  | Lt => f
  | Gt => f + 1
  | Eq => if Z.even f then f else f + 1
  end.

Definition py_round (x : Q) (ndigits : nat) : Q :=
  let unit := 10 ^ Z.of_nat ndigits in
  Qmake (round_half_even (x * inject_Z unit)) (Z.to_pos unit).

(** [max(0, x)]: the first argument unless the second is strictly larger. *)
Definition py_max0 (x : Q) : Q :=
  if Qle_bool x 0 then 0%Q else x.

(** ** Binary64

    The floats of Python as they are.  A finite float is the rational it
    stands for; the result of an operation is the exact result rounded to
    53 significant bits, to nearest and ties to even, or an infinity when
    that is beyond the largest float. *)

(** The binade of a number that is not 0: [2^e <= |x| < 2^(e+1)]. *)
Definition binade (x : Q) : Z :=
  let e := Z.log2 (Z.abs (Qnum x)) - Z.log2 (Zpos (Qden x)) in
  if Qlt_le_dec (Qabs x) (2 ^ e) then e - 1 else e.

(** The spacing of the binary64 numbers around [x]: 53 bits to the binade,
    and the spacing of the subnormal numbers at the least. *)
Definition b64_exponent (x : Q) : Z := Z.max (binade x - 52) (-1074).

Definition b64_ulp (x : Q) : Q := (2 ^ b64_exponent x)%Q.

(** [x] rounded to a whole number of units, ties to the even one. *)
Definition b64_round (x : Q) : Q :=
  (inject_Z (round_half_even (x / b64_ulp x)) * b64_ulp x)%Q.

Inductive float : Type :=
| Finite (q : Q)
| Infinity (negative : bool).

(** The float an operation returns whose exact result is [x]. *)
Definition b64 (x : Q) : float :=
  let y := b64_round x in
  if Qlt_le_dec (Qabs y) (2 ^ 1024) then Finite y
  else Infinity (if Qlt_le_dec y 0 then true else false).

(** [x + y] on floats; [None] is a NaN. *)
Definition b64_add (x y : float) : option float :=
  match x, y with
  | Finite a, Finite b => Some (b64 (a + b))
  | Finite _, Infinity s | Infinity s, Finite _ => Some (Infinity s)
  | Infinity s, Infinity s' =>
      if Bool.eqb s s' then Some (Infinity s) else None
  end.

(** [max(0, x)]: [0] unless [x] is larger, which a NaN is not. *)
Definition b64_max0 (x : option float) : float :=
  match x with
  | Some (Finite q) => if Qlt_le_dec 0 q then Finite q else Finite 0
  | Some (Infinity false) => Infinity false
  | Some (Infinity true) | None => Finite 0
  end.

(** [round(x, ndigits)] on a float: the float nearest to the decimal
    number of [ndigits] digits nearest to [x]; an infinity rounds to
    itself. *)
Definition b64_py_round (x : float) (ndigits : nat) : float :=
  match x with
  | Finite q => b64 (py_round q ndigits)
  | Infinity s => Infinity s
  end.

(** The number a finite [spec_float] stands for: the binary64 of the
    Standard Library, against which [b64_round] is checked below. *)
Definition spec_float_value (x : spec_float) : option Q :=
  match x with
  | S754_zero _ => Some 0%Q
  | S754_finite s m e =>
      let n := if s then Zneg m else Zpos m in
      Some (inject_Z n * 2 ^ e)%Q
  | S754_infinity _ | S754_nan => None
  end.

(** [b64_round] and the operation of the Standard Library agree on an
    exact result [x]. *)
Definition agrees_with (x : Q) (y : spec_float) : bool :=
  match spec_float_value y with
  | Some v => Qeq_bool (b64_round x) v
  | None => false
  end.

(** Ints up to [FLOAT_EXACT] in magnitude are binary64 numbers, and so is
    the difference of two of them.  Ints up to [FLOAT_SAFE] in magnitude
    convert to a float without overflow, and so does the difference of two
    of them. *)
Definition FLOAT_EXACT : Z := 2 ^ 52.


(** ** Strings *)

(** [s[:-1]]. *)
Fixpoint str_init (s : string) : string :=
  match s with
  | EmptyString => EmptyString
  | String c EmptyString => EmptyString
  | String c s' => String c (str_init s')
  end.

(** [f"{i}"]: the decimal digits of an int. *)
Definition str_of_int (i : Z) : string := pretty i.

Definition zero_pad (width : nat) (digits : string) : string :=
  String.string_of_list_ascii
    (replicate (width - String.length digits) ("0"%char : ascii))
  +:+ digits.

(** [f"{i:0{width}d}"]: the decimal digits, zero-padded on the left to
    [width] characters, the sign first. *)
Definition fmt_d (width : nat) (i : Z) : string :=
  if i <? 0
  then "-" +:+ zero_pad (width - 1) (pretty (- i))
  else zero_pad width (pretty i).

(** [string.ascii_lowercase]. *)
Definition ascii_lowercase : list ascii :=
  String.list_ascii_of_string "abcdefghijklmnopqrstuvwxyz".

(** ** Dates *)

(** A [datetime] is its distance in microseconds from [datetime.min],
    0001-01-01T00:00:00; a [timedelta] is a number of microseconds. *)
Definition datetime := Z.

Definition US_PER_MINUTE : Z := 60000000.
Definition US_PER_HOUR : Z := 60 * US_PER_MINUTE.
Definition US_PER_DAY : Z := 24 * US_PER_HOUR.

(** [datetime.max] is 9999-12-31T23:59:59.999999, the last microsecond of
    day 3652059. *)
Definition DATETIME_MAX : Z := 3652059 * US_PER_DAY - 1.

(** [timedelta.max.days]. *)
Definition TIMEDELTA_MAX_DAYS : Z := 999999999.

(** 1970-01-01 and 9999-01-01, as datetimes. *)
Definition EPOCH_1970 : datetime := 719162 * US_PER_DAY.
Definition YEAR_9999 : datetime := 3651694 * US_PER_DAY.

(** ** Records *)

(** A new Python object gets an identity no live object has. *)
Definition obj_id := N.

Module Student.
Record t : Type := mk {
  name : string;
  age : Z;
  grade : Q;
  major : string;
  credits : Z
}.
End Student.

Module Product.
Record t : Type := mk {
  id : Z;
  name : string;
  price : Q;
  quantity : Z;
  category : string;
  rating : Q
}.
End Product.

Module Transaction.
Record t : Type := mk {
  id : Z;
  date : datetime;
  amount : Q;
  category : string;
  merchant : string;
  status : string
}.
End Transaction.

Module LogEntry.
Record t : Type := mk {
  timestamp : datetime;
  level : string;
  message : string;
  module : string;
  user_id : Z
}.
End LogEntry.

(** A point of [generate_time_series]: a dict with the keys ['date'],
    ['value'] and ['volume']. *)
Module TimePoint.
Record t : Type := mk {
  date : datetime;
  value : Q;
  volume : Z
}.
End TimePoint.

(** The same point with its value as a float. *)
Module FloatPoint.
Record t : Type := mk {
  date : datetime;
  value : float;
  volume : Z
}.
End FloatPoint.

(** A purchase of [generate_user_data]: a dict with the keys ['item'],
    ['price'] and ['date'].  [ref] is the identity of the dict object. *)
Module Purchase.
Record t : Type := mk {
  ref : obj_id;
  item : string;
  price : Q;
  date : datetime
}.
End Purchase.

Module User.
Record t : Type := mk {
  id : Z;
  username : string;
  email : string;
  age : Z;
  city : string;
  active : bool;
  premium : bool;
  purchases : list Purchase.t
}.
End User.

(** The values [generate_mixed_types] lists. *)
#[warnings="-register-all"]
Inductive pyval : Type :=
| VInt (z : Z)
| VStr (s : string)
| VFloat (q : Q)
| VNone
| VBool (b : bool)
| VList (xs : list pyval)
| VDict (kvs : list (pyval * pyval))
| VSet (xs : list pyval)
| VTuple (xs : list pyval).

(** What [generate_all_datasets] stores under a key. *)
Inductive dataset : Type :=
| DNumbers (xs : list number)
| DInts (xs : list Z)
| DStrings (xs : list string)
| DStudents (xs : list Student.t)
| DProducts (xs : list Product.t)
| DTransactions (xs : list Transaction.t)
| DLogs (xs : list LogEntry.t)
| DMatrix (rows : list (list Z))
| DGrades (grades : gmap string (gmap string Z))
| DTimeSeries (xs : list TimePoint.t)
| DUsers (xs : list User.t)
| DMixed (xs : list pyval).

(** ** Records without their clock readings

    What is left of a record once the instants read off the wall clock
    (and, for a purchase, the identity of the object) are blanked. *)

Definition undated_transaction (tx : Transaction.t) : Transaction.t :=
  Transaction.mk (Transaction.id tx) 0 (Transaction.amount tx)
    (Transaction.category tx) (Transaction.merchant tx) (Transaction.status tx).

Definition undated_log (e : LogEntry.t) : LogEntry.t :=
  LogEntry.mk 0 (LogEntry.level e) (LogEntry.message e) (LogEntry.module e)
    (LogEntry.user_id e).

Definition undated_point (pt : TimePoint.t) : TimePoint.t :=
  TimePoint.mk 0 (TimePoint.value pt) (TimePoint.volume pt).

Definition undated_purchase (p : Purchase.t) : Purchase.t :=
  Purchase.mk 0%N (Purchase.item p) (Purchase.price p) 0.

Definition undated_user (u : User.t) : User.t :=
  User.mk (User.id u) (User.username u) (User.email u) (User.age u)
    (User.city u) (User.active u) (User.premium u)
    (undated_purchase <$> User.purchases u).

Definition undated (d : dataset) : dataset :=
  match d with
  | DTransactions xs => DTransactions (undated_transaction <$> xs)
  | DLogs xs => DLogs (undated_log <$> xs)
  | DTimeSeries xs => DTimeSeries (undated_point <$> xs)
  | DUsers xs => DUsers (undated_user <$> xs)
  | _ => d
  end.

(** The keys of [generate_all_datasets] whose datasets hold instants read
    off the wall clock. *)
Definition clocked_keys : list string :=
  ["transactions"; "logs"; "time_series"; "users"].

(** ** The world: random source, wall clock, object identities *)

(** The generator behind the [random] module.  [rng_random] is [random()],
    a float in [[0, 1)]; [rng_randbelow n] is [_randbelow(n)], an int in
    [[0, n)] for a positive [n]; [rng_seed] is the state [seed(a)] installs. *)
Class RandomSource : Type := {
  rng_state : Type;
  rng_seed : Z -> rng_state;
  rng_random : rng_state -> Q * rng_state;
  rng_randbelow : Z -> rng_state -> Z * rng_state;
  rng_random_unit : forall s, (0 <= fst (rng_random s) < 1)%Q;
  rng_randbelow_range : forall n s, 0 < n -> 0 <= fst (rng_randbelow n s) < n
}.

(** The wall clock read by [datetime.now()]: each reading returns an
    instant and leaves the clock in a new state.  The clock is taken to
    show a date of the years 1970 to 9998. *)
Class Clock : Type := {
  clock_state : Type;
  clock_now : clock_state -> datetime * clock_state;
  clock_now_range : forall c, EPOCH_1970 <= fst (clock_now c) < YEAR_9999
}.

Section Generators.

Context {R : RandomSource} {C : Clock}.

(** The world: the state of the random source, the state of the clock,
    and the identity the next purchase dict created will get. *)
Record World : Type := mkWorld {
  w_rng : rng_state;
  w_clock : clock_state;
  w_next : obj_id
}.

(** Computations: from a world to a result and the world left behind. *)
Definition M (A : Type) : Type := World -> result A * World.

Definition ret {A} (a : A) : M A := fun w => (Ok a, w).

Definition raise {A} (e : exn) : M A := fun w => (Raise e, w).

Definition bind {A B} (m : M A) (k : A -> M B) : M B :=
  fun w =>
    match m w with
    | (Ok a, w') => k a w'
    | (Raise e, w') => (Raise e, w')
    end.

Notation "x <- m ;; k" := (bind m (fun x => k))
  (at level 100, m at next level, right associativity).

(** [for i in range(n)], collecting what each round yields. *)
Fixpoint for_from {A} (i : Z) (rounds : nat) (body : Z -> M A) : M (list A) :=
  match rounds with
  | O => ret []
  | S rounds' =>
      x <- body i ;;
      xs <- for_from (i + 1) rounds' body ;;
      ret (x :: xs)
  end.

Definition for_range {A} (n : Z) (body : Z -> M A) : M (list A) :=
  for_from 0 (Z.to_nat n) body.

(** A loop over [range(n)] that carries a variable from round to round. *)
Fixpoint for_carry {S A} (i : Z) (rounds : nat) (acc : S)
    (body : Z -> S -> M (S * A)) : M (list A) :=
  match rounds with
  | O => ret []
  | Datatypes.S rounds' =>
      sa <- body i acc ;;
      xs <- for_carry (i + 1) rounds' (fst sa) body ;;
      ret (snd sa :: xs)
  end.

(** *** The [random] module *)

Definition random : M Q :=
  fun w => let (x, s) := rng_random (w_rng w) in
           (Ok x, mkWorld s (w_clock w) (w_next w)).

Definition randbelow (n : Z) : M Z :=
  fun w => let (x, s) := rng_randbelow n (w_rng w) in
           (Ok x, mkWorld s (w_clock w) (w_next w)).

Definition seed (a : Z) : M unit :=
  fun w => (Ok tt, mkWorld (rng_seed a) (w_clock w) (w_next w)).

(** [randrange(start, stop)]. *)
Definition randrange (start stop : Z) : M Z :=
  let width := stop - start in
  if 0 <? width
  then x <- randbelow width ;; ret (start + x)
  else raise ValueError.

Definition randint (a b : Z) : M Z := randrange a (b + 1).

(** [uniform(a, b)], that is [a + (b - a) * self.random()], in exact
    arithmetic.  The library computes it in binary64: the result it hands
    out is this one rounded, which stays between [a] and [b] when they and
    [b - a] are binary64 numbers, as are the ranges written in the module
    and int bounds up to [FLOAT_EXACT]. *)
Definition uniform (a b : Q) : M Q :=
  x <- random ;; ret (a + (b - a) * x)%Q.

(** [float(n)] where an operation between an int and a float converts the
    int: an int that rounds beyond the largest float raises. *)
Definition float_of_int (n : Z) : M Q :=
  match b64 (inject_Z n) with
  | Finite x => ret x
  | Infinity _ => raise OverflowError
  end.

(** [uniform(a, b)] on int bounds as binary64 computes it: [b - a] is an
    int; [self.random()] is called and returns a float; the product
    converts [b - a] and the sum converts [a]. *)
Definition uniform_binary64 (a b : Z) : M float :=
  x <- random ;;
  width <- float_of_int (b - a) ;;
  let product := b64 (width * b64_round x) in
  a' <- float_of_int a ;;
  ret (match product with
       | Finite p => b64 (a' + p)
       | Infinity negative => Infinity negative
       end).

(** [seq[i]] on a list. *)
Definition index {A} (seq : list A) (i : Z) : M A :=
  let j := if i <? 0 then i + Z.of_nat (length seq) else i in
  if j <? 0 then raise IndexError
  else match seq !! Z.to_nat j with
       | Some x => ret x
       | None => raise IndexError
       end.

Definition choice {A} (seq : list A) : M A :=
  match seq with
  | [] => raise IndexError
  | _ => i <- randbelow (Z.of_nat (length seq)) ;; index seq i
  end.

(** [choices(population, k=k)], without weights. *)
Definition choices {A} (population : list A) (k : Z) : M (list A) :=
  for_range k (fun _ =>
    x <- random ;;
    index population (Qfloor (x * inject_Z (Z.of_nat (length population))))).

(** [x[i], x[j] = x[j], x[i]], for indices that are not negative; an index
    past the end raises [IndexError]. *)
Definition swap {A} (x : list A) (i j : nat) : M (list A) :=
  match x !! i, x !! j with
  | Some xi, Some xj => ret (<[j := xi]> (<[i := xj]> x))
  | _, _ => raise IndexError
  end.

(** [shuffle(x)]: for [i] from [len(x) - 1] down to 1, exchange [x[i]] with
    [x[j]] for a [j] drawn below [i + 1]. *)
Fixpoint shuffle_from {A} (i : nat) (x : list A) : M (list A) :=
  match i with
  | O => ret x
  | S i' =>
      j <- randbelow (Z.of_nat i + 1) ;;
      x' <- swap x i (Z.to_nat j) ;;
      shuffle_from i' x'
  end.

Definition shuffle {A} (x : list A) : M (list A) :=
  shuffle_from (length x - 1) x.

(** *** [datetime] *)

Definition now : M datetime :=
  fun w => let (t, c) := clock_now (w_clock w) in
           (Ok t, mkWorld (w_rng w) c (w_next w)).

(** [timedelta(days=, hours=, minutes=)]. *)
Definition timedelta (days hours minutes : Z) : M Z :=
  let us :=
    days * US_PER_DAY + hours * US_PER_HOUR + minutes * US_PER_MINUTE in
  if (- TIMEDELTA_MAX_DAYS * US_PER_DAY <=? us)
     && (us <? (TIMEDELTA_MAX_DAYS + 1) * US_PER_DAY)
  then ret us
  else raise OverflowError.

(** [d + delta] and [d - delta] on a datetime. *)
Definition dt_add (d : datetime) (delta : Z) : M datetime :=
  let r := d + delta in
  if (0 <=? r) && (r <=? DATETIME_MAX) then ret r else raise OverflowError.

Definition dt_sub (d : datetime) (delta : Z) : M datetime :=
  dt_add d (- delta).

(** A fresh object identity, for a purchase dict. *)
Definition new_object : M obj_id :=
  fun w => (Ok (w_next w), mkWorld (w_rng w) (w_clock w) (N.succ (w_next w))).

(** ** Basic data generators *)

(** Generate random numbers. *)
Definition generate_numbers (n min_val max_val : Z) (type : string)
    : M (list number) :=
  if String.eqb type "int" then
    for_range n (fun _ => x <- randint min_val max_val ;; ret (NInt x))
  else if String.eqb type "float" then
    for_range n (fun _ =>
      x <- uniform (inject_Z min_val) (inject_Z max_val) ;; ret (NFloat x))
  else raise ValueError.

(** The ['float'] branch of [generate_numbers] as binary64 computes it. *)
Definition generate_numbers_binary64 (n min_val max_val : Z)
    : M (list float) :=
  for_range n (fun _ => uniform_binary64 min_val max_val).

(** Generate random strings. *)
Definition generate_strings (n min_len max_len : Z) : M (list string) :=
  for_range n (fun _ =>
    length <- randint min_len max_len ;;
    cs <- choices ascii_lowercase length ;;
    ret (String.string_of_list_ascii cs)).

(** Generate semi-realistic words. *)
Definition generate_words (n : Z) : M (list string) :=
  let prefixes :=
    ["pre"; "anti"; "de"; "dis"; "over"; "under"; "semi"; "non"; "sub"; ""] in
  let roots :=
    ["work"; "play"; "think"; "run"; "walk"; "talk"; "read"; "write"; "code";
     "test"] in
  let suffixes :=
    ["ing"; "ed"; "er"; "est"; "ly"; "ness"; "ment"; "ful"; "less"; ""] in
  for_range n (fun _ =>
    p <- choice prefixes ;;
    r <- choice roots ;;
    s <- choice suffixes ;;
    ret (p +:+ r +:+ s)).

(** Generate random sentences. *)
Definition generate_sentences (n : Z) : M (list string) :=
  let subjects :=
    ["The student"; "A professor"; "The algorithm"; "Python"; "The data"] in
  let verbs :=
    ["processes"; "analyzes"; "transforms"; "filters"; "aggregates";
     "computes"] in
  let objects :=
    ["the results"; "large datasets"; "complex patterns"; "user input";
     "the output"] in
  for_range n (fun _ =>
    s <- choice subjects ;;
    v <- choice verbs ;;
    o <- choice objects ;;
    let sentence := s +:+ " " +:+ v +:+ " " +:+ o +:+ "." in
    x <- random ;;
    if Qlt_le_dec (7 # 10) x then
      let clauses :=
        [" quickly"; " efficiently"; " with precision"; " carefully"] in
      c <- choice clauses ;;
      ret (str_init sentence +:+ c +:+ ".")
    else ret sentence).

(** ** Structured data generators *)

(** Generate student records. *)
Definition generate_students (n : Z) : M (list Student.t) :=
  let first_names :=
    ["Alice"; "Bob"; "Charlie"; "Diana"; "Eve"; "Frank"; "Grace"; "Henry"] in
  let last_names :=
    ["Smith"; "Johnson"; "Williams"; "Brown"; "Jones"; "Garcia"; "Miller"] in
  let majors :=
    ["CS"; "Math"; "Physics"; "Biology"; "Chemistry"; "English"; "History";
     "Art"] in
  for_range n (fun i =>
    first <- choice first_names ;;
    last <- choice last_names ;;
    let name := first +:+ " " +:+ last in
    age <- randint 18 26 ;;
    g <- uniform 55 100 ;;
    let grade := py_round g 1 in
    major <- choice majors ;;
    credits <- randint 12 18 ;;
    ret (Student.mk name age grade major credits)).

(** Generate product inventory. *)
Definition generate_products (n : Z) : M (list Product.t) :=
  let prefixes :=
    ["Ultra"; "Pro"; "Basic"; "Premium"; "Eco"; "Smart"; "Power"; "Mini"] in
  let items :=
    ["Laptop"; "Phone"; "Tablet"; "Watch"; "Speaker"; "Camera";
     "Headphones"] in
  let categories :=
    ["Electronics"; "Computers"; "Audio"; "Photography"; "Wearables"] in
  for_range n (fun i =>
    p <- choice prefixes ;;
    it <- choice items ;;
    let name := p +:+ " " +:+ it in
    x <- uniform (2999 # 100) (299999 # 100) ;;
    let price := py_round x 2 in
    quantity <- randint 0 500 ;;
    category <- choice categories ;;
    r <- uniform 1 5 ;;
    let rating := py_round r 1 in
    ret (Product.mk (i + 1000) name price quantity category rating)).

(** Generate financial transactions. *)
Definition generate_transactions (n : Z) : M (list Transaction.t) :=
  let categories :=
    ["Food"; "Transport"; "Entertainment"; "Shopping"; "Bills";
     "Healthcare"] in
  let merchants :=
    ["Amazon"; "Walmart"; "Starbucks"; "Uber"; "Netflix"; "CVS"; "Target"] in
  let statuses :=
    ["completed"; "completed"; "completed"; "pending"; "failed"] in
  t <- now ;;
  d90 <- timedelta 90 0 0 ;;
  start_date <- dt_sub t d90 ;;
  for_range n (fun i =>
    days <- randint 0 90 ;;
    hours <- randint 0 23 ;;
    delta <- timedelta days hours 0 ;;
    date <- dt_add start_date delta ;;
    x <- uniform 5 500 ;;
    let amount := py_round x 2 in
    category <- choice categories ;;
    merchant <- choice merchants ;;
    status <- choice statuses ;;
    ret (Transaction.mk (i + 5000) date amount category merchant status)).

(** The [messages] of [generate_logs], by level. *)
Definition log_messages : gmap string (list string) :=
  list_to_map
    [("INFO", ["User logged in"; "Request processed"; "File uploaded";
               "Cache updated"]);
     ("WARNING", ["High memory usage"; "Slow query detected";
                  "Rate limit approaching"]);
     ("ERROR", ["Connection failed"; "Invalid input"; "Timeout occurred";
                "Permission denied"]);
     ("DEBUG", ["Variable value"; "Function called"; "Loop iteration"]);
     ("CRITICAL", ["System crash"; "Data corruption detected";
                   "Security breach"])].

(** Generate log entries. *)
Definition generate_logs (n : Z) : M (list LogEntry.t) :=
  let levels :=
    ["INFO"; "INFO"; "INFO"; "WARNING"; "WARNING"; "ERROR"; "DEBUG";
     "CRITICAL"] in
  let modules := ["auth"; "database"; "api"; "payment"; "email"; "cache"] in
  let messages := log_messages in
  t <- now ;;
  h24 <- timedelta 0 24 0 ;;
  start_time <- dt_sub t h24 ;;
  for_range n (fun i =>
    minutes <- randint 0 1440 ;;
    delta <- timedelta 0 0 minutes ;;
    timestamp <- dt_add start_time delta ;;
    level <- choice levels ;;
    message <- choice (default ["Generic message"] (messages !! level)) ;;
    module <- choice modules ;;
    user_id <- randint 1000 9999 ;;
    ret (LogEntry.mk timestamp level message module user_id)).

(** ** Special data generators *)

(** Generate 2D matrix. *)
Definition generate_matrix (rows cols min_val max_val : Z)
    : M (list (list Z)) :=
  for_range rows (fun _ => for_range cols (fun _ => randint min_val max_val)).

(** [{key: body(key) for key in keys}], added to [acc]. *)
Fixpoint dict_comp {V} (keys : list string) (body : string -> M V)
    (acc : gmap string V) : M (gmap string V) :=
  match keys with
  | [] => ret acc
  | key :: keys' =>
      v <- body key ;;
      dict_comp keys' body (<[key := v]> acc)
  end.

(** Generate dictionary of student grades. *)
Definition generate_grades_dict (n_students n_assignments : Z)
    : M (gmap string (gmap string Z)) :=
  let students :=
    (fun i => "Student_" +:+ fmt_d 2 i) <$> seqZ 1 n_students in
  let assignments :=
    (fun i => "HW_" +:+ str_of_int i) <$> seqZ 1 n_assignments in
  dict_comp students (fun student =>
    dict_comp assignments (fun assignment => randint 60 100) ∅) ∅.

(** Generate time series data: a random walk, kept from going below 0.
    [value + change] is in exact arithmetic: the code adds in binary64, and
    converts an int [initial] to a float in the first round, as
    [generate_time_series_binary64] does. *)
Definition generate_time_series (days : Z) (initial : Q)
    : M (list TimePoint.t) :=
  t <- now ;;
  d <- timedelta days 0 0 ;;
  start_date <- dt_sub t d ;;
  for_carry 0 (Z.to_nat days) initial (fun i value =>
    di <- timedelta i 0 0 ;;
    date <- dt_add start_date di ;;
    change <- uniform (-10) 12 ;;
    let value := py_max0 (value + change) in
    volume <- randint 1000 10000 ;;
    ret (value, TimePoint.mk date (py_round value 2) volume)).

(** [generate_time_series] on an int [initial] as binary64 computes it.
    The value carried is the int [initial] until the first round, whose
    sum converts it, and a float from then on ([max] returns the int [0]
    or the float; as a number the int [0] is the float [0]). *)
Definition generate_time_series_binary64 (days initial : Z)
    : M (list FloatPoint.t) :=
  t <- now ;;
  d <- timedelta days 0 0 ;;
  start_date <- dt_sub t d ;;
  for_carry 0 (Z.to_nat days) (inl initial) (fun i (value : Z + float) =>
    di <- timedelta i 0 0 ;;
    date <- dt_add start_date di ;;
    change <- uniform_binary64 (-10) 12 ;;
    v <- match value with
         | inl n => x <- float_of_int n ;; ret (Finite x)
         | inr f => ret f
         end ;;
    let value := b64_max0 (b64_add v change) in
    volume <- randint 1000 10000 ;;
    ret (inr value, FloatPoint.mk date (b64_py_round value 2) volume)).

(** Generate user profiles with nested data. *)
Definition generate_user_data (n : Z) : M (list User.t) :=
  let cities :=
    ["New York"; "Los Angeles"; "Chicago"; "Houston"; "Phoenix";
     "Philadelphia"] in
  for_range n (fun i =>
    age <- randint 18 65 ;;
    city <- choice cities ;;
    a <- random ;;
    p <- random ;;
    count <- randint 0 10 ;;
    purchases <- for_range count (fun _ =>
      it <- randint 1 50 ;;
      x <- uniform 10 200 ;;
      t <- now ;;
      days <- randint 1 90 ;;
      delta <- timedelta days 0 0 ;;
      date <- dt_sub t delta ;;
      r <- new_object ;;
      ret (Purchase.mk r ("item_" +:+ str_of_int it) (py_round x 2) date)) ;;
    ret (User.mk (i + 1) ("user_" +:+ fmt_d 4 i)
           ("user_" +:+ fmt_d 4 i +:+ "@example.com") age city
           (if Qlt_le_dec (2 # 10) a then true else false)
           (if Qlt_le_dec (7 # 10) p then true else false)
           purchases)).

(** [lst * k]. *)
Definition list_times {A} (lst : list A) (k : nat) : list A :=
  concat (replicate k lst).

(** The list that [generate_mixed_types] repeats. *)
Definition mixed_types_literal : list pyval :=
  [VInt 42; VStr "hello"; VFloat (314 # 100); VNone; VBool true;
   VList [VInt 1; VInt 2; VInt 3]; VStr "world";
   VInt (-17); VBool false; VDict [(VStr "key", VStr "value")]; VInt 0;
   VStr ""; VList []; VDict [];
   VStr "Python"; VInt 100; VFloat (2718 # 1000); VSet [VInt 1; VInt 2];
   VTuple [VInt 1; VInt 2; VInt 3]].

(** Generate list with mixed types for testing type filtering. *)
Definition generate_mixed_types : M (list pyval) :=
  ret (list_times mixed_types_literal 5).

(** ** Data with specific patterns *)

(** Generate text containing email addresses. *)
Definition generate_emails_text : M (list string) :=
  let domains := ["gmail.com"; "yahoo.com"; "company.com"; "university.edu"] in
  let text_parts :=
    ["Contact us at"; "Send feedback to"; "Email:"; "Reach out to";
     "For support, contact"] in
  for_range 30 (fun _ =>
    x <- random ;;
    if Qlt_le_dec (3 # 10) x then
      cs <- choices ascii_lowercase 8 ;;
      let username := String.string_of_list_ascii cs in
      dom <- choice domains ;;
      let email := username +:+ "@" +:+ dom in
      part <- choice text_parts ;;
      let text := part +:+ " " +:+ email in
      y <- random ;;
      if Qlt_le_dec (5 # 10) y then
        a <- randint 100 999 ;;
        b <- randint 1000 9999 ;;
        ret (text +:+ " or call " +:+ str_of_int a +:+ "-" +:+ str_of_int b)
      else ret text
    else ret "This line contains no email address.").

(** The fixed parts of [generate_pattern_numbers]. *)
Definition squares : list Z := (fun i => i ^ 2) <$> seqZ 1 10.

Definition primes : list Z :=
  [2; 3; 5; 7; 11; 13; 17; 19; 23; 29; 31; 37; 41; 43; 47].

Definition fibs : list Z := [1; 1; 2; 3; 5; 8; 13; 21; 34; 55; 89].

(** Generate numbers with specific patterns. *)
Definition generate_pattern_numbers : M (list Z) :=
  let numbers := [] in
  let numbers := numbers ++ squares in
  let numbers := numbers ++ primes in
  let numbers := numbers ++ fibs in
  randoms <- for_range 50 (fun _ => randint 1 100) ;;
  let numbers := numbers ++ randoms in
  shuffle numbers.

(** ** Utility functions *)

(** [data[:n]]: the first [n] items and, for a negative [n], all but the
    last [-n]. *)
Definition slice_to {A} (data : list A) (n : Z) : list A :=
  if n <? 0 then take (length data - Z.to_nat (- n)) data
  else take (Z.to_nat n) data.

(** [s * k] on strings. *)
Fixpoint str_times (s : string) (k : nat) : string :=
  match k with
  | O => ""
  | S k' => s +:+ str_times s k'
  end.

(** Print a sample of the generated data.  The result lists what the calls
    of [print] write, one string for each call; [show] is [str] on the
    items. *)
Definition print_sample {A} (show : A -> string) (data : list A)
    (name : string) (n : Z) : list string :=
  let header :=
    String "010" "" +:+ name +:+ " (first " +:+ str_of_int n +:+ " items):" in
  let rule := str_times "-" 50 in
  let items := (fun item => "  " +:+ show item) <$> slice_to data n in
  let footer :=
    "  ... (total: " +:+ str_of_int (Z.of_nat (length data)) +:+ " items)" in
  [header; rule] ++ items ++ [footer].


(** Generate all types of data and return as dictionary. *)
Definition generate_all_datasets : M (gmap string dataset) :=
  numbers <- generate_numbers 100 (-100) 100 "int" ;;
  floats <- generate_numbers 100 (-100) 100 "float" ;;
  strings <- generate_strings 50 3 15 ;;
  words <- generate_words 100 ;;
  sentences <- generate_sentences 30 ;;
  students <- generate_students 50 ;;
  products <- generate_products 100 ;;
  transactions <- generate_transactions 200 ;;
  logs <- generate_logs 500 ;;
  matrix <- generate_matrix 5 5 0 10 ;;
  grades <- generate_grades_dict 20 5 ;;
  time_series <- generate_time_series 30 100 ;;
  users <- generate_user_data 100 ;;
  mixed_types <- generate_mixed_types ;;
  emails_text <- generate_emails_text ;;
  pattern_numbers <- generate_pattern_numbers ;;
  ret (<["pattern_numbers" := DInts pattern_numbers]>
       (<["emails_text" := DStrings emails_text]>
       (<["mixed_types" := DMixed mixed_types]>
       (<["users" := DUsers users]>
       (<["time_series" := DTimeSeries time_series]>
       (<["grades" := DGrades grades]>
       (<["matrix" := DMatrix matrix]>
       (<["logs" := DLogs logs]>
       (<["transactions" := DTransactions transactions]>
       (<["products" := DProducts products]>
       (<["students" := DStudents students]>
       (<["sentences" := DStrings sentences]>
       (<["words" := DStrings words]>
       (<["strings" := DStrings strings]>
       (<["floats" := DNumbers floats]>
       (<["numbers" := DNumbers numbers]> ∅)))))))))))))))).

End Generators.

(** * Specifications

    The vocabulary the properties of the generators are stated in. *)

Section Vocabulary.

Context {R : RandomSource} {C : Clock}.

(** [hoare m Q]: from every world [m] returns a value, and [Q] relates the
    world before, the value and the world after. *)
Definition hoare {A} (m : M A) (Q : World -> A -> World -> Prop) : Prop :=
  forall w, exists a w', m w = (Ok a, w') /\ Q w a w'.

(** [total P m]: from every world [m] returns a value that satisfies [P]. *)
Definition total {A} (P : A -> Prop) (m : M A) : Prop :=
  hoare m (fun _ a _ => P a).

(** [raises e m]: from every world [m] raises [e]. *)
Definition raises {A} (e : exn) (m : M A) : Prop :=
  forall w, exists w', m w = (Raise e, w').

(** [returns m]: [m] returns from every world; it does not raise. *)
Definition returns {A} (m : M A) : Prop := total (fun _ => True) m.

(** The value at position [k] of the list a loop started at [i] returns
    satisfies [P (i + k)]. *)
Definition indexed {A} (P : Z -> A -> Prop) (i : Z) (l : list A) : Prop :=
  forall (k : nat) (x : A), l !! k = Some x -> P (i + Z.of_nat k) x.

(** [has_decimals d x]: [x] is held as a whole number of units [10^-d], as
    [round(_, d)] leaves it: written with [d] digits after the decimal
    point it is exact, final zeros included (30.50).  How many digits the
    number needs is [fraction_digits]. *)
Definition has_decimals (d : nat) (x : Q) : Prop :=
  exists k : Z, x = Qmake k (Z.to_pos (10 ^ Z.of_nat d)).



(** [float_in_range lo hi x]: the float [x] is finite and lies in the
    inclusive range. *)
Definition float_in_range (lo hi : Z) (x : float) : Prop :=
  exists q, x = Finite q /\ (inject_Z lo <= q <= inject_Z hi)%Q.

(** [in_range lo hi x]: the number [x] lies in the inclusive range. *)
Definition in_range (lo hi : Z) (x : number) : Prop :=
  (inject_Z lo <= number_val x <= inject_Z hi)%Q.

(** Where the code puts the date of a transaction generated at [t], and
    the timestamp of a log entry. *)
Definition transaction_window (t : datetime) (tx : Transaction.t) : Prop :=
  t - 90 * US_PER_DAY <= Transaction.date tx <= t + 23 * US_PER_HOUR.

Definition log_window (t : datetime) (e : LogEntry.t) : Prop :=
  t - 24 * US_PER_HOUR <= LogEntry.timestamp e <= t.

(** [rng_only m]: [m] neither reads the clock nor creates a purchase dict,
    and what it returns and the random state it leaves depend on the random
    state alone. *)
Definition rng_only {A} (m : M A) : Prop :=
  forall w,
    w_clock (snd (m w)) = w_clock w /\
    w_next (snd (m w)) = w_next w /\
    forall w2, w_rng w2 = w_rng w ->
      fst (m w2) = fst (m w) /\ w_rng (snd (m w2)) = w_rng (snd (m w)).

(** The [i]-th point of a time series that starts on [start]. *)
Definition time_point_ok (start : datetime) (i : Z) (pt : TimePoint.t)
    : Prop :=
  TimePoint.date pt = start + i * US_PER_DAY /\ (0 <= TimePoint.value pt)%Q.

(** What holds of every purchase and of every user generated. *)
Definition purchase_ok (p : Purchase.t) : Prop :=
  has_decimals 2 (Purchase.price p) /\ (10 <= Purchase.price p <= 200)%Q.

Definition user_ok (u : User.t) : Prop :=
  (length (User.purchases u) <= 10)%nat /\ Forall purchase_ok (User.purchases u).

(** [fresh_in lo hi ids]: the identities [ids] are distinct and lie
    between [lo] and [hi]. *)
Definition fresh_in (lo hi : obj_id) (ids : list obj_id) : Prop :=
  NoDup ids /\ forall r, r ∈ ids -> (lo <= r < hi)%N.

(** [allocates refs m]: the identities [refs a] of the objects created for
    the value [a] that [m] returns are distinct and were free before. *)
Definition allocates {A} (refs : A -> list obj_id) (m : M A) : Prop :=
  hoare m (fun w a w' =>
    (w_next w <= w_next w')%N /\ fresh_in (w_next w) (w_next w') (refs a)).

(** The identities of the purchase objects of a user. *)
Definition user_refs (u : User.t) : list obj_id :=
  Purchase.ref <$> User.purchases u.

(** [sim RA m1 m2]: started in worlds with the same random state, [m1] and
    [m2] both return, with values related by [RA], and leave the same
    random state. *)
Definition sim {A} (RA : A -> A -> Prop) (m1 m2 : M A) : Prop :=
  forall w1 w2, w_rng w1 = w_rng w2 ->
    exists a1 a2 w1' w2',
      m1 w1 = (Ok a1, w1') /\ m2 w2 = (Ok a2, w2') /\
      w_rng w1' = w_rng w2' /\ RA a1 a2.

(** Steps that leave the world alone. *)
Definition pure {A} (m : M A) : Prop := forall w, snd (m w) = w.

(** Two dictionaries of datasets agree up to the clock: they are equal at
    every key that holds no clock reading, and at every key once the
    clock readings are blanked. *)
Definition agree_up_to_clock (d1 d2 : gmap string dataset) : Prop :=
  (forall key, key ∉ clocked_keys -> d1 !! key = d2 !! key) /\
  (forall key, undated <$> (d1 !! key) = undated <$> (d2 !! key)).

(** ** The vocabularies of the generators *)

Definition word_prefixes : list string :=
  ["pre"; "anti"; "de"; "dis"; "over"; "under"; "semi"; "non"; "sub"; ""].

Definition word_roots : list string :=
  ["work"; "play"; "think"; "run"; "walk"; "talk"; "read"; "write"; "code";
   "test"].

Definition word_suffixes : list string :=
  ["ing"; "ed"; "er"; "est"; "ly"; "ness"; "ment"; "ful"; "less"; ""].

Definition sentence_subjects : list string :=
  ["The student"; "A professor"; "The algorithm"; "Python"; "The data"].

Definition sentence_verbs : list string :=
  ["processes"; "analyzes"; "transforms"; "filters"; "aggregates";
   "computes"].

Definition sentence_objects : list string :=
  ["the results"; "large datasets"; "complex patterns"; "user input";
   "the output"].

Definition sentence_clauses : list string :=
  [" quickly"; " efficiently"; " with precision"; " carefully"].

Definition student_first_names : list string :=
  ["Alice"; "Bob"; "Charlie"; "Diana"; "Eve"; "Frank"; "Grace"; "Henry"].

Definition student_last_names : list string :=
  ["Smith"; "Johnson"; "Williams"; "Brown"; "Jones"; "Garcia"; "Miller"].

Definition student_majors : list string :=
  ["CS"; "Math"; "Physics"; "Biology"; "Chemistry"; "English"; "History";
   "Art"].

Definition product_prefixes : list string :=
  ["Ultra"; "Pro"; "Basic"; "Premium"; "Eco"; "Smart"; "Power"; "Mini"].

Definition product_items : list string :=
  ["Laptop"; "Phone"; "Tablet"; "Watch"; "Speaker"; "Camera"; "Headphones"].

Definition product_categories : list string :=
  ["Electronics"; "Computers"; "Audio"; "Photography"; "Wearables"].

Definition transaction_categories : list string :=
  ["Food"; "Transport"; "Entertainment"; "Shopping"; "Bills"; "Healthcare"].

Definition transaction_merchants : list string :=
  ["Amazon"; "Walmart"; "Starbucks"; "Uber"; "Netflix"; "CVS"; "Target"].

Definition log_modules : list string :=
  ["auth"; "database"; "api"; "payment"; "email"; "cache"].

Definition user_cities : list string :=
  ["New York"; "Los Angeles"; "Chicago"; "Houston"; "Phoenix";
   "Philadelphia"].

Definition email_domains : list string :=
  ["gmail.com"; "yahoo.com"; "company.com"; "university.edu"].

Definition email_text_parts : list string :=
  ["Contact us at"; "Send feedback to"; "Email:"; "Reach out to";
   "For support, contact"].

(** ** What holds of each record *)

(** A word is a prefix, a root and a suffix. *)
Definition word_ok (w : string) : Prop :=
  exists p r s,
    p ∈ word_prefixes /\ r ∈ word_roots /\ s ∈ word_suffixes /\
    w = p +:+ r +:+ s.

(** A sentence is a subject, a verb and an object, then one of the four
    clauses or none, then the period. *)
Definition sentence_ok (sentence : string) : Prop :=
  exists s v o c,
    s ∈ sentence_subjects /\ v ∈ sentence_verbs /\ o ∈ sentence_objects /\
    c ∈ "" :: sentence_clauses /\
    sentence = s +:+ " " +:+ v +:+ " " +:+ o +:+ c +:+ ".".

Definition student_ok (s : Student.t) : Prop :=
  (exists first last,
     first ∈ student_first_names /\ last ∈ student_last_names /\
     Student.name s = first +:+ " " +:+ last) /\
  18 <= Student.age s <= 26 /\
  has_decimals 1 (Student.grade s) /\
  (55 <= Student.grade s <= 100)%Q /\
  Student.major s ∈ student_majors /\
  12 <= Student.credits s <= 18.

(** The product made in round [i]. *)
Definition product_ok (i : Z) (p : Product.t) : Prop :=
  Product.id p = i + 1000 /\
  (exists prefix item,
     prefix ∈ product_prefixes /\ item ∈ product_items /\
     Product.name p = prefix +:+ " " +:+ item) /\
  has_decimals 2 (Product.price p) /\
  (2999 # 100 <= Product.price p <= 299999 # 100)%Q /\
  0 <= Product.quantity p <= 500 /\
  Product.category p ∈ product_categories /\
  has_decimals 1 (Product.rating p) /\
  (1 <= Product.rating p <= 5)%Q.


(** The transaction made in round [i] of a call that read the instant [t]
    off the clock. *)
Definition transaction_ok (t : datetime) (i : Z) (tx : Transaction.t) : Prop :=
  Transaction.id tx = i + 5000 /\
  (exists hours,
     0 <= hours <= 90 * 24 + 23 /\
     Transaction.date tx = t - 90 * US_PER_DAY + hours * US_PER_HOUR) /\
  has_decimals 2 (Transaction.amount tx) /\
  (5 <= Transaction.amount tx <= 500)%Q /\
  Transaction.category tx ∈ transaction_categories /\
  Transaction.merchant tx ∈ transaction_merchants /\
  Transaction.status tx ∈ ["completed"; "pending"; "failed"].

(** A log entry of a call that read the instant [t] off the clock. *)
Definition log_ok (t : datetime) (e : LogEntry.t) : Prop :=
  (exists minutes,
     0 <= minutes <= 1440 /\
     LogEntry.timestamp e = t - 24 * US_PER_HOUR + minutes * US_PER_MINUTE) /\
  LogEntry.level e ∈ ["INFO"; "WARNING"; "ERROR"; "DEBUG"; "CRITICAL"] /\
  (exists pool,
     log_messages !! LogEntry.level e = Some pool /\
     LogEntry.message e ∈ pool) /\
  LogEntry.module e ∈ log_modules /\
  1000 <= LogEntry.user_id e <= 9999.

(** [reads_clock_once m]: whatever else [m] does, it leaves the clock as
    one reading leaves it. *)
Definition reads_clock_once {A} (m : M A) : Prop :=
  forall w, w_clock (snd (m w)) = snd (clock_now (w_clock w)).


(** A point of a time series that starts on [start]: the point of round
    [i]. *)
Definition time_point_fields (start : datetime) (i : Z) (pt : TimePoint.t)
    : Prop :=
  TimePoint.date pt = start + i * US_PER_DAY /\
  (0 <= TimePoint.value pt)%Q /\
  has_decimals 2 (TimePoint.value pt) /\
  1000 <= TimePoint.volume pt <= 10000.

(** [walks step s l]: the list [l] is what a loop that carries a variable
    yields when the variable starts as [s], each round relating the
    variable before, the value yielded and the variable after by [step]. *)
Fixpoint walks {S A} (step : S -> A -> S -> Prop) (s : S) (l : list A)
    : Prop :=
  match l with
  | [] => True
  | a :: l' => exists s', step s a s' /\ walks step s' l'
  end.

(** One round of the random walk of [generate_time_series]: the value
    carried changes by something between -10 and 12 and is kept from going
    below 0; the point shows it rounded to two decimals. *)
Definition walk_step (value : Q) (pt : TimePoint.t) (value' : Q) : Prop :=
  exists change,
    (-10 <= change <= 12)%Q /\
    value' = py_max0 (value + change) /\
    TimePoint.value pt = py_round value' 2.

(** [chain step i s l]: as [walks], the round being known to [step]. *)
Fixpoint chain {S A} (step : Z -> S -> A -> S -> Prop) (i : Z) (s : S)
    (l : list A) : Prop :=
  match l with
  | [] => True
  | a :: l' => exists s', step i s a s' /\ chain step (i + 1) s' l'
  end.

(** What rounding to binary64 moves a value below [2^30] in magnitude by,
    at most: [2^-23]. *)
Definition B64_EPS : Q := 1 # 8388608.

(** The value carried by [generate_time_series_binary64] before round [i]:
    the int [initial], or a float that is not negative and has grown by 12
    a round at most. *)
Definition walk_inv (initial : Z) (i : Z) (s : Z + float) : Prop :=
  (i = 0 /\ s = inl initial) \/
  (exists v, s = inr (Finite v) /\
             (0 <= v <= inject_Z (1000000000 + 12 * i))%Q).

(** Round [i] of the walk in binary64: the value kept [v'] is a finite
    float, not negative; from a float [v] it has moved by a step between
    -10 and 12 and one rounding; the point shows the float nearest to a
    number of two decimals, which is within half a hundredth and one
    rounding of [v']. *)
Definition float_walk_step (start : datetime) (initial : Z) (i : Z)
    (s : Z + float) (pt : FloatPoint.t) (s' : Z + float) : Prop :=
  exists v' d k,
    s' = inr (Finite v') /\
    (0 <= v' <= inject_Z (1000000000 + 12 * (i + 1)))%Q /\
    (forall v, s = inr (Finite v) ->
       (-10 - B64_EPS <= v' - v <= 12 + B64_EPS)%Q) /\
    FloatPoint.date pt = start + i * US_PER_DAY /\
    FloatPoint.value pt = Finite d /\
    (d == b64_round (k # 100))%Q /\
    (0 <= d)%Q /\
    (v' - (1 # 200) - B64_EPS <= d <= v' + (1 # 200) + B64_EPS)%Q /\
    1000 <= FloatPoint.volume pt <= 10000.

(** A point of the series in binary64: the date of round [i], a value that
    is a finite float, not negative, the float nearest to a number of two
    decimals, and a volume in its range. *)
Definition float_point_fields (start : datetime) (i : Z) (pt : FloatPoint.t)
    : Prop :=
  FloatPoint.date pt = start + i * US_PER_DAY /\
  (exists d k,
     FloatPoint.value pt = Finite d /\ (0 <= d)%Q /\
     (d == b64_round (k # 100))%Q) /\
  1000 <= FloatPoint.volume pt <= 10000.

(** The labels of [generate_grades_dict]. *)
Definition student_labels (n_students : Z) : list string :=
  (fun i => "Student_" +:+ fmt_d 2 i) <$> seqZ 1 n_students.

Definition assignment_labels (n_assignments : Z) : list string :=
  (fun i => "HW_" +:+ str_of_int i) <$> seqZ 1 n_assignments.

(** The user made in round [i]. *)
Definition user_fields (i : Z) (u : User.t) : Prop :=
  User.id u = i + 1 /\
  User.username u = "user_" +:+ fmt_d 4 i /\
  User.email u = User.username u +:+ "@example.com" /\
  18 <= User.age u <= 65 /\
  User.city u ∈ user_cities /\
  (length (User.purchases u) <= 10)%nat /\
  Forall (fun p =>
            (exists k, 1 <= k <= 50 /\
                       Purchase.item p = "item_" +:+ str_of_int k) /\
            has_decimals 2 (Purchase.price p) /\
            (10 <= Purchase.price p <= 200)%Q)
         (User.purchases u).


(** The shape of the digits of a number that is not negative. *)
Definition canonical_digits (s : string) : Prop :=
  s = "0" \/ exists c rest, s = String c rest /\ c <> "0"%char.

(** The state of the clock after [k] readings, and what they show. *)
Fixpoint clock_after (k : nat) (c : clock_state) : clock_state :=
  match k with
  | O => c
  | S k' => clock_after k' (snd (clock_now c))
  end.

Fixpoint readings (k : nat) (c : clock_state) : list datetime :=
  match k with
  | O => []
  | S k' => fst (clock_now c) :: readings k' (snd (clock_now c))
  end.

(** [clocked items Rel m]: [m] reads the clock once for each of the items of
    the value it returns, in their order, and [Rel] relates each item to the
    reading taken for it. *)
Definition clocked {A B} (items : A -> list B)
    (Rel : B -> datetime -> Prop) (m : M A) : Prop :=
  hoare m (fun w a w' =>
    w_clock w' = clock_after (length (items a)) (w_clock w) /\
    Forall2 Rel (items a) (readings (length (items a)) (w_clock w))).

(** A purchase is dated from 1 to 90 whole days before the instant [t]. *)
Definition purchase_dated (p : Purchase.t) (t : datetime) : Prop :=
  exists days, 1 <= days <= 90 /\ Purchase.date p = t - days * US_PER_DAY.

(** All the purchases of a list of users, in order. *)
Definition all_purchases (users : list User.t) : list Purchase.t :=
  concat (User.purchases <$> users).

(** [reproducible m]: after [random.seed(a)], what [m] does (the value it
    returns or the exception it raises) is the same in every world. *)
Definition reproducible {A} (m : M A) : Prop :=
  forall a w1 w2,
    fst (bind (seed a) (fun _ => m) w1) = fst (bind (seed a) (fun _ => m) w2).

(** [clock_free m]: [m] never reads the clock, and the seed fixes what it
    does. *)
Definition clock_free {A} (m : M A) : Prop :=
  (forall w, w_clock (snd (m w)) = w_clock w) /\ reproducible m.

(** A line of [generate_emails_text]: the sentence without an address, or
    a phrase, an address of eight lowercase letters at one of the domains
    and, maybe, a number to call. *)
Definition email_line_ok (line : string) : Prop :=
  line = "This line contains no email address." \/
  exists part username domain tail,
    part ∈ email_text_parts /\
    String.length username = 8%nat /\
    Forall (fun c => c ∈ ascii_lowercase)
           (String.list_ascii_of_string username) /\
    domain ∈ email_domains /\
    (tail = "" \/
     exists a b, 100 <= a <= 999 /\ 1000 <= b <= 9999 /\
                 tail = " or call " +:+ str_of_int a +:+ "-" +:+ str_of_int b)
    /\
    line = part +:+ " " +:+ username +:+ "@" +:+ domain +:+ tail.

(** [len(data)] of a dataset. *)
Definition dataset_len (d : dataset) : nat :=
  match d with
  | DNumbers xs => length xs
  | DInts xs => length xs
  | DStrings xs => length xs
  | DStudents xs => length xs
  | DProducts xs => length xs
  | DTransactions xs => length xs
  | DLogs xs => length xs
  | DMatrix rows => length rows
  | DGrades grades => size grades
  | DTimeSeries xs => length xs
  | DUsers xs => length xs
  | DMixed xs => length xs
  end.

(** The keys of [generate_all_datasets] and the length of what the default
    arguments put under each. *)
Definition default_sizes : list (string * nat) :=
  [("numbers", 100); ("floats", 100); ("strings", 50); ("words", 100);
   ("sentences", 30); ("students", 50); ("products", 100);
   ("transactions", 200); ("logs", 500); ("matrix", 5); ("grades", 20);
   ("time_series", 30); ("users", 100); ("mixed_types", 95);
   ("emails_text", 30); ("pattern_numbers", 86)]%nat.


End Vocabulary.

(** ** A concrete world *)

(** A random source that replays a script of raw draws and, once the script
    is used up, continues with a 64-bit linear congruential generator, of
    which it hands out the upper 53 bits. *)
Definition MASK64 : Z := Z.ones 64.
Definition MASK53 : Z := Z.ones 53.

Definition scripted_raw (s : list Z * Z) : Z * (list Z * Z) :=
  match fst s with
  | x :: script => (x, (script, snd s))
  | [] =>
      let lcg :=
        Z.land (6364136223846793005 * snd s + 1442695040888963407) MASK64 in
      (Z.shiftr lcg 11, ([], lcg))
  end.

Definition scripted_rng : RandomSource.
Proof.
  refine {|
    rng_state := (list Z * Z)%type;
    rng_seed := fun a => ([], Z.land a MASK64);
    rng_random := fun s =>
      let (x, s') := scripted_raw s in
      (Qmake (Z.land x MASK53) (2 ^ 53), s');
    rng_randbelow := fun n s =>
      let (x, s') := scripted_raw s in (x mod n, s')
  |}.
  - abstract (intros s; destruct (scripted_raw s) as [x s']; cbn [fst];
              unfold Qle, Qlt; cbn [Qnum Qden]; unfold MASK53;
              rewrite Z.land_ones by lia;
              pose proof (Z.mod_pos_bound x (2 ^ 53)); lia).
  - abstract (intros n s Hn; destruct (scripted_raw s) as [x s']; cbn [fst];
              apply Z.mod_pos_bound; exact Hn).
Defined.

(** A clock that starts on 2024-01-01 and advances by one millisecond at
    each reading, for a thousand years at most. *)
Definition ticking_clock : Clock.
Proof.
  refine {|
    clock_state := Z;
    clock_now := fun c =>
      (738885 * US_PER_DAY + Z.max 0 (Z.min c (365000 * US_PER_DAY)), c + 1000)
  |}.
  abstract (intros c; cbn [fst];
            unfold EPOCH_1970, YEAR_9999, US_PER_DAY, US_PER_HOUR,
              US_PER_MINUTE; lia).
Defined.

Definition world0 (script : list Z) (a : Z) (c : Z)
    : @World scripted_rng ticking_clock :=
  @mkWorld scripted_rng ticking_clock (script, Z.land a MASK64) c 0%N.

(** The date of the first record under ['transactions'] in what
    [generate_all_datasets] returned. *)
Definition first_transaction_date (r : result (gmap string dataset))
    : option datetime :=
  match r with
  | Ok d =>
      match d !! "transactions" with
      | Some (DTransactions (tx :: _)) => Some (Transaction.date tx)
      | _ => None
      end
  | Raise _ => None
  end.

(** What a call returned, if it returned. *)
Definition to_option {A} (r : result A) : option A :=
  match r with
  | Ok a => Some a
  | Raise _ => None
  end.

(** A world whose next two draws are 90 and 23. *)
Definition late_world : @World scripted_rng ticking_clock :=
  world0 [90; 23] 42 0.

Definition transaction_dates (r : result (list Transaction.t))
    : option (list datetime) :=
  match r with
  | Ok l => Some (Transaction.date <$> l)
  | Raise _ => None
  end.

(** Two sequential invocations of [generate_all_datasets] in the concrete
    world, the seed 42 applied afresh before each. *)
Definition seeded_all_datasets
    : @M scripted_rng ticking_clock (gmap string dataset) :=
  bind (seed 42) (fun _ => generate_all_datasets).

Definition first_invocation := seeded_all_datasets (world0 [] 0 0).

Definition second_invocation := seeded_all_datasets (snd first_invocation).

(** * Properties *)

Section Properties.

Context {R : RandomSource} {C : Clock}.

Notation "x <- m ;; k" := (bind m (fun x => k))
  (at level 100, m at next level, right associativity).

(** ** Reasoning about computations *)

Lemma hoare_ret {A} (a : A) (Q : World -> A -> World -> Prop) :
  (forall w, Q w a w) -> hoare (ret a) Q.
Proof. intros HQ w. exists a, w. split; [reflexivity | apply HQ]. Qed.

Lemma hoare_bind {A B} (m : M A) (k : A -> M B) Q1 Q2
    (Q : World -> B -> World -> Prop) :
  hoare m Q1 ->
  (forall a, hoare (k a) (Q2 a)) ->
  (forall w a w' b w'', Q1 w a w' -> Q2 a w' b w'' -> Q w b w'') ->
  hoare (x <- m ;; k x) Q.
Proof.
  intros Hm Hk HQ w.
  destruct (Hm w) as (a & w' & Em & H1).
  destruct (Hk a w') as (b & w'' & Ek & H2).
  exists b, w''. unfold bind. rewrite Em. split; [exact Ek | eauto].
Qed.

Lemma hoare_weaken {A} (m : M A) (Q Q' : World -> A -> World -> Prop) :
  hoare m Q -> (forall w a w', Q w a w' -> Q' w a w') -> hoare m Q'.
Proof.
  intros Hm HQ w. destruct (Hm w) as (a & w' & E & H).
  exists a, w'. split; [exact E | apply HQ, H].
Qed.

Lemma hoare_conj {A} (m : M A) (Q Q' : World -> A -> World -> Prop) :
  hoare m Q -> hoare m Q' -> hoare m (fun w a w' => Q w a w' /\ Q' w a w').
Proof.
  intros H1 H2 w.
  destruct (H1 w) as (a & w' & E & H). destruct (H2 w) as (a' & w'' & E' & H').
  rewrite E in E'. injection E' as <- <-. exists a, w'. auto.
Qed.

Lemma total_ret {A} (P : A -> Prop) (a : A) : P a -> total P (ret a).
Proof. intros Ha. apply hoare_ret. intros _. exact Ha. Qed.

Lemma total_bind {A B} (P : A -> Prop) (Q : B -> Prop) (m : M A)
    (k : A -> M B) :
  total P m -> (forall a, P a -> total Q (k a)) -> total Q (x <- m ;; k x).
Proof.
  intros Hm Hk w.
  destruct (Hm w) as (a & w' & Em & Ha).
  destruct (Hk a Ha w') as (b & w'' & Ek & Hb).
  exists b, w''. unfold bind. rewrite Em. auto.
Qed.

Lemma total_weaken {A} (P Q : A -> Prop) (m : M A) :
  total P m -> (forall a, P a -> Q a) -> total Q m.
Proof. intros Hm HPQ. eapply hoare_weaken; [exact Hm | eauto]. Qed.

Lemma total_conj {A} (P Q : A -> Prop) (m : M A) :
  total P m -> total Q m -> total (fun a => P a /\ Q a) m.
Proof. intros H1 H2. exact (hoare_conj _ _ _ H1 H2). Qed.

Lemma raises_bind {A B} (P : A -> Prop) e (m : M A) (k : A -> M B) :
  total P m -> (forall a, P a -> raises e (k a)) -> raises e (x <- m ;; k x).
Proof.
  intros Hm Hk w. destruct (Hm w) as (a & w' & Em & Ha).
  destruct (Hk a Ha w') as (w'' & Ek).
  exists w''. unfold bind. rewrite Em. exact Ek.
Qed.

Lemma raises_bind_here {A B} e (m : M A) (k : A -> M B) :
  raises e m -> raises e (x <- m ;; k x).
Proof.
  intros Hm w. destruct (Hm w) as (w' & Em).
  exists w'. unfold bind. rewrite Em. reflexivity.
Qed.

Lemma indexed_cons {A} (P : Z -> A -> Prop) i x l :
  P i x -> indexed P (i + 1) l -> indexed P i (x :: l).
Proof.
  intros Hx Hl [|k] y Hk; simpl in Hk.
  - injection Hk as <-. replace (i + Z.of_nat 0) with i by lia. exact Hx.
  - replace (i + Z.of_nat (S k)) with (i + 1 + Z.of_nat k) by lia.
    apply Hl, Hk.
Qed.

Lemma indexed_Forall {A} (P : A -> Prop) i (l : list A) :
  indexed (fun _ => P) i l -> Forall P l.
Proof.
  intros H. apply Forall_lookup. intros k x Hk. exact (H k x Hk).
Qed.

Lemma for_from_indexed {A} (P : Z -> A -> Prop) (body : Z -> M A) :
  (forall i, total (P i) (body i)) ->
  forall rounds i,
    total (fun l => length l = rounds /\ indexed P i l)
          (for_from i rounds body).
Proof.
  intros Hbody. induction rounds as [|rounds IH]; intros i; simpl.
  - apply total_ret. split; [reflexivity | intros k x Hk; discriminate].
  - eapply total_bind; [apply Hbody |]. intros x Hx.
    eapply total_bind; [apply IH |]. intros xs [Hlen Hxs].
    apply total_ret. split; [simpl; congruence | apply indexed_cons; assumption].
Qed.

Lemma for_from_total {A} (P : A -> Prop) (body : Z -> M A) :
  (forall i, total P (body i)) ->
  forall rounds i,
    total (fun l => length l = rounds /\ Forall P l) (for_from i rounds body).
Proof.
  intros Hbody rounds i.
  eapply total_weaken; [apply (for_from_indexed (fun _ => P)), Hbody |].
  intros l [Hlen Hl]. split; [exact Hlen | eapply indexed_Forall, Hl].
Qed.

Lemma for_range_total {A} (P : A -> Prop) (n : Z) (body : Z -> M A) :
  (forall i, total P (body i)) ->
  total (fun l => length l = Z.to_nat n /\ Forall P l) (for_range n body).
Proof. intros Hbody. apply for_from_total, Hbody. Qed.

Lemma for_carry_indexed {S A} (I : S -> Prop) (P : Z -> A -> Prop)
    (body : Z -> S -> M (S * A)) (hi : Z) :
  (forall i s, 0 <= i < hi -> I s ->
     total (fun sa => I (fst sa) /\ P i (snd sa)) (body i s)) ->
  forall rounds i acc,
    0 <= i -> i + Z.of_nat rounds <= hi -> I acc ->
    total (fun l => length l = rounds /\ indexed P i l)
          (for_carry i rounds acc body).
Proof.
  intros Hbody. induction rounds as [|rounds IH]; intros i acc Hi Hhi Hacc;
    simpl.
  - apply total_ret. split; [reflexivity | intros k x Hk; discriminate].
  - eapply total_bind; [apply Hbody; [lia | exact Hacc] |]. intros [s a] [Hs Ha].
    eapply total_bind; [apply IH; [lia | lia | exact Hs] |]. intros xs [Hlen Hxs].
    apply total_ret. split; [simpl; congruence | apply indexed_cons; assumption].
Qed.

(** A loop that carries a variable, with what holds of it before each
    round. *)
Lemma for_carry_chain {S A} (Inv : Z -> S -> Prop)
    (step : Z -> S -> A -> S -> Prop) (body : Z -> S -> M (S * A)) (hi : Z) :
  (forall i s, 0 <= i < hi -> Inv i s ->
     total (fun sa => Inv (i + 1) (fst sa) /\ step i s (snd sa) (fst sa))
           (body i s)) ->
  forall rounds i acc,
    0 <= i -> i + Z.of_nat rounds <= hi -> Inv i acc ->
    total (fun l => length l = rounds /\ chain step i acc l)
          (for_carry i rounds acc body).
Proof.
  intros Hbody. induction rounds as [|rounds IH]; intros i acc Hi Hhi Hacc;
    simpl.
  - apply total_ret. split; [reflexivity | exact I].
  - eapply total_bind; [apply Hbody; [lia | exact Hacc] |]. cbv beta.
    intros [s a] [Hs Ha].
    eapply total_bind; [apply IH; [lia | lia | exact Hs] |]. cbv beta.
    intros xs [Hlen Hxs].
    apply total_ret. split; [simpl; congruence |]. exists s. auto.
Qed.

(** ** The library functions *)

Lemma random_total : total (fun x => (0 <= x < 1)%Q) random.
Proof.
  intros w. unfold random.
  pose proof (rng_random_unit (w_rng w)) as H.
  destruct (rng_random (w_rng w)) as [x s]. eauto.
Qed.

Lemma randbelow_total n : 0 < n -> total (fun x => 0 <= x < n) (randbelow n).
Proof.
  intros Hn w. unfold randbelow.
  pose proof (rng_randbelow_range n (w_rng w) Hn) as H.
  destruct (rng_randbelow n (w_rng w)) as [x s]. eauto.
Qed.

Lemma randint_total a b : a <= b -> total (fun x => a <= x <= b) (randint a b).
Proof.
  intros Hab. unfold randint, randrange.
  destruct (Z.ltb_spec 0 (b + 1 - a)); [| lia].
  eapply total_bind; [apply randbelow_total; assumption |].
  intros x Hx. apply total_ret. cbv beta in Hx. lia.
Qed.

Lemma randint_raises a b : b < a -> raises ValueError (randint a b).
Proof.
  intros Hab w. unfold randint, randrange.
  destruct (Z.ltb_spec 0 (b + 1 - a)); [lia |]. exists w. reflexivity.
Qed.

Lemma uniform_total a b :
  (a <= b)%Q -> total (fun x => (a <= x <= b)%Q) (uniform a b).
Proof.
  intros Hab. unfold uniform.
  eapply total_bind; [apply random_total |].
  intros x [H0 H1]. apply total_ret.
  assert (0 <= (b - a) * x)%Q by (apply Qmult_le_0_compat; lra).
  assert (0 <= (b - a) * (1 - x))%Q by (apply Qmult_le_0_compat; lra).
  split; lra.
Qed.

Lemma index_total {A} (seq : list A) (i : Z) :
  0 <= i < Z.of_nat (length seq) -> total (fun x => x ∈ seq) (index seq i).
Proof.
  intros Hi. unfold index.
  assert ((i <? 0) = false) as E0 by lia.
  cbv zeta. rewrite E0. cbv iota. rewrite E0.
  destruct (seq !! Z.to_nat i) as [x|] eqn:E.
  - apply total_ret. eapply list_elem_of_lookup_2, E.
  - apply lookup_ge_None in E. lia.
Qed.

Lemma choice_total {A} (seq : list A) :
  seq <> [] -> total (fun x => x ∈ seq) (choice seq).
Proof.
  intros Hne. unfold choice. destruct seq as [|y seq]; [congruence |].
  eapply total_bind; [apply randbelow_total; simpl; lia |].
  intros i Hi. apply index_total, Hi.
Qed.

Lemma choices_total {A} (population : list A) (k : Z) :
  population <> [] ->
  total (fun l => length l = Z.to_nat k /\ Forall (fun x => x ∈ population) l)
        (choices population k).
Proof.
  intros Hne. unfold choices. apply for_range_total. intros _.
  eapply total_bind; [apply random_total |]. intros x [H0 H1].
  apply index_total.
  assert (0 < Z.of_nat (length population)) as Hlen
    by (destruct population; [congruence | simpl; lia]).
  set (n := Z.of_nat (length population)) in *.
  assert (0 <= x * inject_Z n < inject_Z n)%Q as [Hlo Hhi].
  { assert (0 < inject_Z n)%Q by (change 0%Q with (inject_Z 0);
      rewrite <- Zlt_Qlt; exact Hlen).
    assert (0 <= x * inject_Z n)%Q by (apply Qmult_le_0_compat; lra).
    assert (0 < (1 - x) * inject_Z n)%Q by (apply Qmult_lt_0_compat; lra).
    split; lra. }
  split.
  - change 0 with (Qfloor (inject_Z 0)). apply Qfloor_resp_le. exact Hlo.
  - apply Z.lt_nge. intros Hge. rewrite Zle_Qle in Hge.
    pose proof (Qfloor_le (x * inject_Z n)). lra.
Qed.

Lemma insert_Permutation {A} (l : list A) (i : nat) (x y : A) :
  l !! i = Some x -> <[i := y]> l ≡ₚ y :: delete i l.
Proof.
  revert i. induction l as [|z l IH]; intros [|i] Hi; simpl in *;
    try discriminate.
  - reflexivity.
  - rewrite (IH i Hi). apply Permutation_swap.
Qed.

Lemma swap_total {A} (x : list A) (i j : nat) :
  (i < length x)%nat -> (j < length x)%nat ->
  total (fun x' => x' ≡ₚ x) (swap x i j).
Proof.
  intros Hi Hj. unfold swap.
  destruct (lookup_lt_is_Some_2 x i Hi) as [xi Ei].
  destruct (lookup_lt_is_Some_2 x j Hj) as [xj Ej].
  rewrite Ei, Ej. apply total_ret.
  destruct (decide (i = j)) as [-> | Hij].
  - assert (xj = xi) as -> by congruence.
    rewrite list_insert_insert_eq, list_insert_id; [reflexivity | exact Ei].
  - assert (<[i := xj]> x !! j = Some xj) as Ej'
      by (rewrite list_lookup_insert_ne; assumption).
    etransitivity; [apply (insert_Permutation _ _ _ xi Ej') |].
    etransitivity; [| symmetry; apply (delete_Permutation x i xi Ei)].
    constructor. apply (Permutation_cons_inv (a := xj)).
    etransitivity; [symmetry; apply (delete_Permutation _ _ _ Ej') |].
    apply (insert_Permutation _ _ _ xj Ei).
Qed.

Lemma shuffle_from_total {A} (i : nat) (x : list A) :
  (i < length x \/ i = 0)%nat -> total (fun l => l ≡ₚ x) (shuffle_from i x).
Proof.
  revert x. induction i as [|i IH]; intros x Hi; simpl.
  - apply total_ret. reflexivity.
  - eapply total_bind; [apply randbelow_total; lia |]. cbv beta. intros j Hj.
    eapply total_bind; [apply swap_total; lia |]. cbv beta. intros x' Hx'.
    eapply total_weaken;
      [apply IH; left; rewrite (Permutation_length Hx'); lia |].
    intros l Hl. rewrite Hl. exact Hx'.
Qed.

Lemma shuffle_total {A} (x : list A) : total (fun l => l ≡ₚ x) (shuffle x).
Proof. apply shuffle_from_total. destruct x; simpl; lia. Qed.

(** *** Dates *)

Lemma now_hoare :
  hoare now (fun w t w' =>
    t = fst (clock_now (w_clock w)) /\ w_rng w' = w_rng w /\
    w_next w' = w_next w).
Proof.
  intros w. unfold now. destruct (clock_now (w_clock w)) as [t c].
  eexists _, _. split; [reflexivity |]. auto.
Qed.

Lemma now_total : total (fun t => EPOCH_1970 <= t < YEAR_9999) now.
Proof.
  intros w. unfold now. pose proof (clock_now_range (w_clock w)) as H.
  destruct (clock_now (w_clock w)) as [t c]. eauto.
Qed.

Lemma timedelta_total days hours minutes :
  - TIMEDELTA_MAX_DAYS * US_PER_DAY
    <= days * US_PER_DAY + hours * US_PER_HOUR + minutes * US_PER_MINUTE
    < (TIMEDELTA_MAX_DAYS + 1) * US_PER_DAY ->
  total (fun d =>
           d = days * US_PER_DAY + hours * US_PER_HOUR + minutes * US_PER_MINUTE)
        (timedelta days hours minutes).
Proof.
  intros H. unfold timedelta. cbv zeta.
  destruct (Z.leb_spec (- TIMEDELTA_MAX_DAYS * US_PER_DAY)
              (days * US_PER_DAY + hours * US_PER_HOUR + minutes * US_PER_MINUTE));
    [| lia].
  destruct (Z.ltb_spec
              (days * US_PER_DAY + hours * US_PER_HOUR + minutes * US_PER_MINUTE)
              ((TIMEDELTA_MAX_DAYS + 1) * US_PER_DAY)); [| lia].
  apply total_ret. reflexivity.
Qed.

Lemma dt_add_total d delta :
  0 <= d + delta <= DATETIME_MAX -> total (fun r => r = d + delta) (dt_add d delta).
Proof.
  intros H. unfold dt_add. cbv zeta.
  destruct (Z.leb_spec 0 (d + delta)); [| lia].
  destruct (Z.leb_spec (d + delta) DATETIME_MAX); [| lia].
  apply total_ret. reflexivity.
Qed.

Lemma dt_sub_total d delta :
  0 <= d - delta <= DATETIME_MAX -> total (fun r => r = d - delta) (dt_sub d delta).
Proof.
  intros H. unfold dt_sub.
  eapply total_weaken; [apply dt_add_total; lia |]. intros r ->. lia.
Qed.

Lemma dt_add_raises d delta :
  ~ (0 <= d + delta <= DATETIME_MAX) -> raises OverflowError (dt_add d delta).
Proof.
  intros H w. unfold dt_add. cbv zeta. exists w.
  destruct (Z.leb_spec 0 (d + delta)); [| reflexivity].
  destruct (Z.leb_spec (d + delta) DATETIME_MAX); [lia | reflexivity].
Qed.

(** *** Rounding *)

Lemma round_half_even_ge (x : Q) (m : Z) :
  (inject_Z m <= x)%Q -> m <= round_half_even x.
Proof.
  intros H. unfold round_half_even.
  assert (m <= Qfloor x) as Hf.
  { rewrite <- (Qfloor_Z m). apply Qfloor_resp_le. exact H. }
  destruct (Qcompare _ _); [destruct (Z.even _) | |]; lia.
Qed.

Lemma round_half_even_le (x : Q) (m : Z) :
  (x <= inject_Z m)%Q -> round_half_even x <= m.
Proof.
  intros H. unfold round_half_even.
  assert (Qfloor x <= m) as Hf.
  { rewrite <- (Qfloor_Z m). apply Qfloor_resp_le. exact H. }
  destruct (Z.eq_dec (Qfloor x) m) as [E | E].
  - assert (x - inject_Z (Qfloor x) < 1 # 2)%Q as Hlt.
    { rewrite E. lra. }
    rewrite Qlt_alt in Hlt. rewrite Hlt. lia.
  - destruct (Qcompare _ _); [destruct (Z.even _) | |]; lia.
Qed.

(** Rounding moves a value by half a unit at most. *)
Lemma round_half_even_close (x : Q) :
  (x - (1 # 2) <= inject_Z (round_half_even x) <= x + (1 # 2))%Q.
Proof.
  unfold round_half_even.
  pose proof (Qfloor_le x) as Hlo. pose proof (Qlt_floor x) as Hhi.
  rewrite inject_Z_plus in Hhi. change (inject_Z 1) with 1%Q in Hhi.
  destruct (Qcompare (x - inject_Z (Qfloor x)) (1 # 2)) eqn:E.
  - apply Qeq_alt in E.
    destruct (Z.even (Qfloor x));
      [| rewrite inject_Z_plus; change (inject_Z 1) with 1%Q]; lra.
  - apply Qlt_alt in E. lra.
  - apply Qgt_alt in E. rewrite inject_Z_plus.
    change (inject_Z 1) with 1%Q. lra.
Qed.

(** A rounded value stays between bounds that are themselves multiples of
    the rounding unit. *)
Lemma py_round_bounds (x : Q) (ndigits : nat) (lo hi : Z) :
  let unit := 10 ^ Z.of_nat ndigits in
  (inject_Z lo <= x * inject_Z unit <= inject_Z hi)%Q ->
  (Qmake lo (Z.to_pos unit) <= py_round x ndigits
   <= Qmake hi (Z.to_pos unit))%Q.
Proof.
  intros unit [Hlo Hhi]. unfold py_round. cbv zeta. fold unit.
  pose proof (round_half_even_ge _ _ Hlo).
  pose proof (round_half_even_le _ _ Hhi).
  unfold Qle. cbn [Qnum Qden].
  split; apply Z.mul_le_mono_nonneg_r; auto using Pos2Z.is_nonneg.
Qed.

Lemma py_round_has_decimals (x : Q) (d : nat) : has_decimals d (py_round x d).
Proof. eexists. reflexivity. Qed.

(** The rounded value is the multiple of [10^-d] nearest to [x]: it is
    half a unit away at most. *)
Lemma py_round_close (x : Q) (d : nat) :
  let unit := inject_Z (10 ^ Z.of_nat d) in
  (x * unit - (1 # 2) <= py_round x d * unit <= x * unit + (1 # 2))%Q.
Proof.
  intros unit. unfold py_round. cbv zeta. fold unit.
  pose proof (round_half_even_close (x * unit)) as H.
  assert (0 < 10 ^ Z.of_nat d) as Hpos by (apply Z.pow_pos_nonneg; lia).
  assert (Qmake (round_half_even (x * unit)) (Z.to_pos (10 ^ Z.of_nat d))
            * unit == inject_Z (round_half_even (x * unit)))%Q as Heq.
  { generalize (round_half_even (x * unit)). intros k.
    unfold unit, Qeq, Qmult, inject_Z. cbn [Qnum Qden].
    rewrite Pos.mul_1_r, Z2Pos.id by exact Hpos. ring. }
  rewrite Heq. exact H.
Qed.

(** *** Binary64 *)

Lemma round_half_even_comp (x y : Q) :
  (x == y)%Q -> round_half_even x = round_half_even y.
Proof.
  intros Hxy. unfold round_half_even.
  rewrite (Qfloor_comp _ _ Hxy).
  assert (x - inject_Z (Qfloor y) == y - inject_Z (Qfloor y))%Q as H
    by (rewrite Hxy; reflexivity).
  rewrite (Qcompare_comp _ _ H _ _ (Qeq_refl (1 # 2))). reflexivity.
Qed.

Lemma round_half_even_Z (m : Z) : round_half_even (inject_Z m) = m.
Proof.
  apply Z.le_antisymm.
  - apply round_half_even_le. lra.
  - apply round_half_even_ge. lra.
Qed.

Lemma round_half_even_mono (x y : Q) :
  (x <= y)%Q -> round_half_even x <= round_half_even y.
Proof.
  intros Hxy.
  destruct (Z.le_gt_cases (round_half_even x) (round_half_even y)) as [H | H];
    [exact H |].
  exfalso.
  pose proof (round_half_even_close x) as [_ Hx].
  pose proof (round_half_even_close y) as [Hy _].
  assert (round_half_even y + 1 <= round_half_even x) as Hgap by lia.
  rewrite Zle_Qle, inject_Z_plus in Hgap. change (inject_Z 1) with 1%Q in Hgap.
  assert (x == y)%Q as Heq by lra.
  rewrite (round_half_even_comp _ _ Heq) in H. lia.
Qed.

Lemma Qdiv_lt_cross (a b c d : Q) :
  (0 < b -> 0 < d -> a * d < c * b -> a / b < c / d)%Q.
Proof.
  intros Hb Hd H.
  apply (Qmult_lt_r _ _ (b * d)); [nra |].
  assert (a / b * (b * d) == a * d)%Q as -> by (field; lra).
  assert (c / d * (b * d) == c * b)%Q as -> by (field; lra).
  exact H.
Qed.

Lemma Qdiv_le_cross (a b c d : Q) :
  (0 < b -> 0 < d -> a * d <= c * b -> a / b <= c / d)%Q.
Proof.
  intros Hb Hd H.
  apply (Qmult_le_r _ _ (b * d)); [nra |].
  assert (a / b * (b * d) == a * d)%Q as -> by (field; lra).
  assert (c / d * (b * d) == c * b)%Q as -> by (field; lra).
  exact H.
Qed.

Lemma pow2_pos (e : Z) : (0 < 2 ^ e)%Q.
Proof. apply Qpower_0_lt. reflexivity. Qed.

Lemma pow2_succ (e : Z) : (2 ^ (e + 1) == 2 * 2 ^ e)%Q.
Proof. rewrite Qpower_plus by discriminate. rewrite Qpower_1_r. ring. Qed.

Lemma pow2_pred (e : Z) : (2 * 2 ^ (e - 1) == 2 ^ e)%Q.
Proof.
  rewrite <- pow2_succ. replace (e - 1 + 1) with e by lia. reflexivity.
Qed.

Lemma pow2_le (e e' : Z) : e <= e' -> (2 ^ e <= 2 ^ e')%Q.
Proof. intros H. apply Qpower_le_compat_l; [exact H | discriminate]. Qed.

Lemma pow2_Z (k : Z) : 0 <= k -> (inject_Z (2 ^ k) == 2 ^ k)%Q.
Proof. intros H. rewrite Zpower_Qpower by exact H. reflexivity. Qed.

Lemma log2_bounds (n : Z) :
  0 < n -> (2 ^ Z.log2 n <= inject_Z n < 2 * 2 ^ Z.log2 n)%Q.
Proof.
  intros Hn. destruct (Z.log2_spec n Hn) as [Hlo Hhi].
  pose proof (Z.log2_nonneg n) as Hnn.
  rewrite <- pow2_succ, <- !pow2_Z by lia.
  rewrite <- Zle_Qle, <- Zlt_Qlt. unfold Z.succ in Hhi. lia.
Qed.

Lemma binade_spec (x : Q) :
  ~ (x == 0)%Q -> (2 ^ binade x <= Qabs x < 2 ^ (binade x + 1))%Q.
Proof.
  intros Hx. unfold binade.
  set (n := Z.abs (Qnum x)). set (d := Z.pos (Qden x)).
  assert (0 < n) as Hn.
  { unfold n. destruct x as [a b]. unfold Qeq in Hx. cbn in *. lia. }
  assert (0 < d) as Hd by (unfold d; lia).
  assert (Qabs x == inject_Z n / inject_Z d)%Q as Habs.
  { destruct x as [a b]. unfold Qabs, n, d. cbn [Qnum Qden].
    apply Qmake_Qdiv. }
  destruct (log2_bounds n Hn) as [HnA HnB].
  destruct (log2_bounds d Hd) as [HdA HdB].
  set (A := (2 ^ Z.log2 n)%Q) in *. set (B := (2 ^ Z.log2 d)%Q) in *.
  assert (0 < A)%Q as HA by apply pow2_pos.
  assert (0 < B)%Q as HB by apply pow2_pos.
  assert (2 ^ (Z.log2 n - Z.log2 d) == A / B)%Q as He0
    by (apply Qpower_minus; discriminate).
  assert (0 < inject_Z d)%Q as HD by lra.
  assert (A / (2 * B) < Qabs x)%Q as Hlow.
  { rewrite Habs. apply Qdiv_lt_cross; [lra | lra | nra]. }
  assert (Qabs x < 2 * A / B)%Q as Hhigh.
  { rewrite Habs. apply Qdiv_lt_cross; [lra | lra | nra]. }
  destruct (Qlt_le_dec (Qabs x) (2 ^ (Z.log2 n - Z.log2 d))) as [Hlt | Hge].
  - replace (Z.log2 n - Z.log2 d - 1 + 1) with (Z.log2 n - Z.log2 d) by lia.
    split; [| exact Hlt].
    apply Qlt_le_weak.
    assert (2 ^ (Z.log2 n - Z.log2 d - 1) == A / (2 * B))%Q as ->.
    { pose proof (pow2_pred (Z.log2 n - Z.log2 d)) as Hp. rewrite He0 in Hp.
      apply (Qmult_inj_l _ _ 2); [discriminate |]. rewrite Hp. field. lra. }
    exact Hlow.
  - split; [exact Hge |]. rewrite pow2_succ, He0.
    assert (2 * (A / B) == 2 * A / B)%Q as -> by (field; lra).
    exact Hhigh.
Qed.

Lemma binade_unique (x : Q) (e : Z) :
  (2 ^ e <= Qabs x < 2 ^ (e + 1))%Q -> binade x = e.
Proof.
  intros [Hlo Hhi].
  assert (~ (x == 0)%Q) as Hx.
  { intros H0. rewrite H0 in Hlo. pose proof (pow2_pos e).
    change (Qabs 0) with 0%Q in Hlo. lra. }
  destruct (binade_spec x Hx) as [Hlo' Hhi'].
  assert (binade x < e + 1).
  { apply (Qpower_lt_compat_l_inv 2); [lra | reflexivity]. }
  assert (e < binade x + 1).
  { apply (Qpower_lt_compat_l_inv 2); [lra | reflexivity]. }
  lia.
Qed.

Lemma binade_comp (x y : Q) : ~ (x == 0)%Q -> (x == y)%Q -> binade x = binade y.
Proof.
  intros Hx Hxy. symmetry. apply binade_unique. rewrite <- Hxy.
  apply binade_spec, Hx.
Qed.

Lemma binade_mono (x y : Q) :
  ~ (x == 0)%Q -> (Qabs x <= Qabs y)%Q -> binade x <= binade y.
Proof.
  intros Hx Hxy.
  destruct (binade_spec x Hx) as [Hlo _].
  assert (~ (y == 0)%Q) as Hy.
  { intros H0. rewrite H0 in Hxy. change (Qabs 0) with 0%Q in Hxy.
    pose proof (pow2_pos (binade x)). lra. }
  destruct (binade_spec y Hy) as [_ Hhi].
  assert (binade x < binade y + 1)
    by (apply (Qpower_lt_compat_l_inv 2); [lra | reflexivity]).
  lia.
Qed.

Lemma b64_ulp_pos (x : Q) : (0 < b64_ulp x)%Q.
Proof. apply pow2_pos. Qed.

(** Rounding to a whole number of units keeps a value on its side of a
    whole number of units. *)
Lemma round_unit_le (x u : Q) (m : Z) :
  (0 < u -> x <= inject_Z m * u ->
   inject_Z (round_half_even (x / u)) * u <= inject_Z m * u)%Q.
Proof.
  intros Hu Hx. apply Qmult_le_compat_r; [| lra].
  rewrite <- Zle_Qle. apply round_half_even_le.
  apply Qle_shift_div_r; assumption.
Qed.

Lemma round_unit_ge (x u : Q) (m : Z) :
  (0 < u -> inject_Z m * u <= x ->
   inject_Z m * u <= inject_Z (round_half_even (x / u)) * u)%Q.
Proof.
  intros Hu Hx. apply Qmult_le_compat_r; [| lra].
  rewrite <- Zle_Qle. apply round_half_even_ge.
  apply Qle_shift_div_l; assumption.
Qed.

Lemma round_unit_mono (x y u : Q) :
  (0 < u -> x <= y ->
   inject_Z (round_half_even (x / u)) * u
   <= inject_Z (round_half_even (y / u)) * u)%Q.
Proof.
  intros Hu Hxy. apply Qmult_le_compat_r; [| lra].
  rewrite <- Zle_Qle. apply round_half_even_mono.
  apply Qmult_le_compat_r; [exact Hxy |].
  apply Qlt_le_weak, Qinv_lt_0_compat, Hu.
Qed.

Lemma b64_round_zero (x : Q) : (x == 0)%Q -> (b64_round x == 0)%Q.
Proof.
  intros Hx. unfold b64_round.
  assert (x / b64_ulp x == inject_Z 0)%Q as H.
  { generalize (b64_ulp x). intros u. rewrite Hx. unfold Qdiv.
    change (inject_Z 0) with 0%Q. ring. }
  rewrite (round_half_even_comp _ _ H), round_half_even_Z.
  change (inject_Z 0) with 0%Q. ring.
Qed.

Lemma b64_round_comp (x y : Q) : (x == y)%Q -> (b64_round x == b64_round y)%Q.
Proof.
  intros Hxy. destruct (Qeq_dec x 0) as [Hx | Hx].
  - rewrite (b64_round_zero x Hx). symmetry. apply b64_round_zero.
    rewrite <- Hxy. exact Hx.
  - unfold b64_round, b64_ulp, b64_exponent.
    rewrite <- (binade_comp x y Hx Hxy).
    generalize (2 ^ Z.max (binade x - 52) (-1074))%Q. intros u.
    assert (x / u == y / u)%Q as H by (rewrite Hxy; reflexivity).
    rewrite (round_half_even_comp _ _ H). reflexivity.
Qed.

Lemma b64_round_nonneg (x : Q) : (0 <= x -> 0 <= b64_round x)%Q.
Proof.
  intros Hx. unfold b64_round.
  pose proof (round_unit_ge x (b64_ulp x) 0 (b64_ulp_pos x)) as H.
  change (inject_Z 0) with 0%Q in H. lra.
Qed.

Lemma b64_round_nonpos (x : Q) : (x <= 0 -> b64_round x <= 0)%Q.
Proof.
  intros Hx. unfold b64_round.
  pose proof (round_unit_le x (b64_ulp x) 0 (b64_ulp_pos x)) as H.
  change (inject_Z 0) with 0%Q in H. lra.
Qed.

Lemma b64_exponent_mono (x y : Q) :
  ~ (x == 0)%Q -> (Qabs x <= Qabs y)%Q -> b64_exponent x <= b64_exponent y.
Proof.
  intros Hx Hxy. unfold b64_exponent.
  pose proof (binade_mono x y Hx Hxy). lia.
Qed.

(** What a number is next to: below the top of its binade, and at or above
    the bottom unless its unit is the least. *)
Lemma b64_below_top (x : Q) :
  ~ (x == 0)%Q -> (Qabs x <= inject_Z (2 ^ 53) * b64_ulp x)%Q.
Proof.
  intros Hx. destruct (binade_spec x Hx) as [_ Hhi].
  unfold b64_ulp. rewrite pow2_Z by lia.
  rewrite <- Qpower_plus by discriminate.
  apply Qlt_le_weak. eapply Qlt_le_trans; [exact Hhi |].
  apply pow2_le. unfold b64_exponent. lia.
Qed.

Lemma b64_above_bottom (x : Q) :
  ~ (x == 0)%Q -> -1074 < b64_exponent x ->
  (inject_Z (2 ^ 52) * b64_ulp x <= Qabs x)%Q.
Proof.
  intros Hx He. destruct (binade_spec x Hx) as [Hlo _].
  unfold b64_ulp. rewrite pow2_Z by lia.
  rewrite <- Qpower_plus by discriminate.
  eapply Qle_trans; [| exact Hlo].
  apply pow2_le. unfold b64_exponent in *. lia.
Qed.

Lemma b64_round_mono_pos (x y : Q) :
  (0 < x -> x <= y -> b64_round x <= b64_round y)%Q.
Proof.
  intros Hx Hxy.
  assert (~ (x == 0)%Q) as Hx0 by lra.
  assert (~ (y == 0)%Q) as Hy0 by lra.
  assert (Qabs x == x)%Q as Hax by (apply Qabs_pos; lra).
  assert (Qabs y == y)%Q as Hay by (apply Qabs_pos; lra).
  assert (b64_exponent x <= b64_exponent y) as Hexp
    by (apply b64_exponent_mono; [exact Hx0 | lra]).
  destruct (Z.eq_dec (b64_exponent x) (b64_exponent y)) as [Heq | Hne].
  - unfold b64_round, b64_ulp. rewrite Heq.
    apply round_unit_mono; [apply pow2_pos | exact Hxy].
  - pose proof (b64_below_top x Hx0) as Htop.
    pose proof (b64_above_bottom y Hy0) as Hbot.
    assert (-1074 < b64_exponent y) as Hnorm
      by (unfold b64_exponent in *; lia).
    specialize (Hbot Hnorm). rewrite Hax in Htop. rewrite Hay in Hbot.
    pose proof (round_unit_le x (b64_ulp x) (2 ^ 53) (b64_ulp_pos x) Htop).
    pose proof (round_unit_ge y (b64_ulp y) (2 ^ 52) (b64_ulp_pos y) Hbot).
    fold (b64_round x) in *. fold (b64_round y) in *.
    assert (inject_Z (2 ^ 53) * b64_ulp x <= inject_Z (2 ^ 52) * b64_ulp y)%Q.
    { unfold b64_ulp. rewrite !pow2_Z by lia.
      rewrite <- !Qpower_plus by discriminate.
      apply pow2_le. lia. }
    lra.
Qed.

Lemma b64_round_mono_neg (x y : Q) :
  (y < 0 -> x <= y -> b64_round x <= b64_round y)%Q.
Proof.
  intros Hy Hxy.
  assert (~ (x == 0)%Q) as Hx0 by lra.
  assert (~ (y == 0)%Q) as Hy0 by lra.
  assert (Qabs x == - x)%Q as Hax by (apply Qabs_neg; lra).
  assert (Qabs y == - y)%Q as Hay by (apply Qabs_neg; lra).
  assert (b64_exponent y <= b64_exponent x) as Hexp
    by (apply b64_exponent_mono; [exact Hy0 | lra]).
  destruct (Z.eq_dec (b64_exponent x) (b64_exponent y)) as [Heq | Hne].
  - unfold b64_round, b64_ulp. rewrite Heq.
    apply round_unit_mono; [apply pow2_pos | exact Hxy].
  - pose proof (b64_below_top y Hy0) as Htop.
    pose proof (b64_above_bottom x Hx0) as Hbot.
    assert (-1074 < b64_exponent x) as Hnorm
      by (unfold b64_exponent in *; lia).
    specialize (Hbot Hnorm). rewrite Hay in Htop. rewrite Hax in Hbot.
    assert (x <= inject_Z (- 2 ^ 52) * b64_ulp x)%Q as Hx'
      by (rewrite inject_Z_opp; lra).
    assert (inject_Z (- 2 ^ 53) * b64_ulp y <= y)%Q as Hy'
      by (rewrite inject_Z_opp; lra).
    pose proof (round_unit_le x (b64_ulp x) (- 2 ^ 52) (b64_ulp_pos x) Hx').
    pose proof (round_unit_ge y (b64_ulp y) (- 2 ^ 53) (b64_ulp_pos y) Hy').
    fold (b64_round x) in *. fold (b64_round y) in *.
    assert (inject_Z (2 ^ 53) * b64_ulp y <= inject_Z (2 ^ 52) * b64_ulp x)%Q.
    { unfold b64_ulp. rewrite !pow2_Z by lia.
      rewrite <- !Qpower_plus by discriminate.
      apply pow2_le. lia. }
    rewrite !inject_Z_opp in *. lra.
Qed.

(** Rounding to binary64 keeps the order. *)
Lemma b64_round_mono (x y : Q) : (x <= y -> b64_round x <= b64_round y)%Q.
Proof.
  intros Hxy.
  destruct (Qlt_le_dec 0 x) as [Hx | Hx];
    [apply b64_round_mono_pos; assumption |].
  destruct (Qlt_le_dec y 0) as [Hy | Hy];
    [apply b64_round_mono_neg; assumption |].
  pose proof (b64_round_nonpos x Hx). pose proof (b64_round_nonneg y Hy). lra.
Qed.

(** A number of at most 53 significant bits, not below the least unit, is
    a binary64 number. *)
Lemma b64_round_exact (m e : Z) :
  Z.abs m < 2 ^ 53 -> -1074 <= e ->
  (b64_round (inject_Z m * 2 ^ e) == inject_Z m * 2 ^ e)%Q.
Proof.
  intros Hm He.
  destruct (Z.eq_dec m 0) as [-> | Hm0].
  { rewrite b64_round_zero; change (inject_Z 0) with 0%Q; ring. }
  set (x := (inject_Z m * 2 ^ e)%Q).
  pose proof (pow2_pos e) as Hpe.
  assert (Qabs x == inject_Z (Z.abs m) * 2 ^ e)%Q as Habs.
  { unfold x. rewrite Qabs_Qmult, (Qabs_pos (2 ^ e)) by lra. reflexivity. }
  assert (0 < Z.abs m) as Hpos by lia.
  destruct (log2_bounds (Z.abs m) Hpos) as [Hlo Hhi].
  assert (Z.log2 (Z.abs m) < 53) as Hl by (apply Z.log2_lt_pow2; lia).
  pose proof (Z.log2_nonneg (Z.abs m)) as Hl0.
  assert (binade x = Z.log2 (Z.abs m) + e) as Hb.
  { apply binade_unique. rewrite Habs, pow2_succ.
    rewrite Qpower_plus by discriminate. split; nra. }
  set (ex := b64_exponent x).
  assert (-1074 <= ex <= e) as Hex by (unfold ex, b64_exponent; lia).
  assert (x == inject_Z (m * 2 ^ (e - ex)) * 2 ^ ex)%Q as Hx.
  { unfold x. rewrite inject_Z_mult, pow2_Z by lia.
    rewrite <- Qmult_assoc, <- Qpower_plus by discriminate.
    replace (e - ex + ex) with e by lia. reflexivity. }
  unfold b64_round, b64_ulp. fold ex.
  assert (x / 2 ^ ex == inject_Z (m * 2 ^ (e - ex)))%Q as Hq.
  { rewrite Hx at 1. field. pose proof (pow2_pos ex). lra. }
  rewrite (round_half_even_comp _ _ Hq), round_half_even_Z.
  symmetry. exact Hx.
Qed.

Lemma b64_round_int (n : Z) :
  Z.abs n <= 2 ^ 53 -> (b64_round (inject_Z n) == inject_Z n)%Q.
Proof.
  intros Hn.
  destruct (Z.eq_dec (Z.abs n) (2 ^ 53)) as [Heq | Hne].
  - assert (inject_Z n == inject_Z (Z.sgn n) * 2 ^ 53)%Q as Hx.
    { rewrite <- pow2_Z, <- inject_Z_mult by lia. rewrite <- Heq.
      rewrite Z.mul_comm, Z.abs_sgn. reflexivity. }
    eapply Qeq_trans; [apply (b64_round_comp _ _ Hx) |].
    eapply Qeq_trans; [apply b64_round_exact; lia | symmetry; exact Hx].
  - assert (inject_Z n == inject_Z n * 2 ^ 0)%Q as Hx
      by (rewrite Qpower_0_r; ring).
    eapply Qeq_trans; [apply (b64_round_comp _ _ Hx) |].
    eapply Qeq_trans; [apply b64_round_exact; lia | symmetry; exact Hx].
Qed.

Lemma inject_Z_minus (a b : Z) :
  (inject_Z (a - b) == inject_Z a - inject_Z b)%Q.
Proof.
  unfold Z.sub. rewrite inject_Z_plus, inject_Z_opp. reflexivity.
Qed.

(** Rounding keeps a value between two ints that are binary64 numbers. *)
Lemma b64_round_between (lo hi : Z) (x : Q) :
  Z.abs lo <= 2 ^ 53 -> Z.abs hi <= 2 ^ 53 ->
  (inject_Z lo <= x <= inject_Z hi)%Q ->
  (inject_Z lo <= b64_round x <= inject_Z hi)%Q.
Proof.
  intros Hlo Hhi [Hx1 Hx2].
  pose proof (b64_round_mono _ _ Hx1) as H1.
  pose proof (b64_round_mono _ _ Hx2) as H2.
  rewrite (b64_round_int lo Hlo) in H1. rewrite (b64_round_int hi Hhi) in H2.
  split; assumption.
Qed.

(** A rounded value below [2^1024] in magnitude is a finite float. *)
Lemma b64_finite (x : Q) (k : Z) :
  k < 1024 -> (- 2 ^ k <= b64_round x <= 2 ^ k)%Q ->
  b64 x = Finite (b64_round x).
Proof.
  intros Hk Hx. unfold b64. cbv zeta.
  destruct (Qlt_le_dec (Qabs (b64_round x)) (2 ^ 1024)) as [Hlt | Hge];
    [reflexivity |].
  exfalso.
  assert (Qabs (b64_round x) <= 2 ^ k)%Q as Habs
    by (apply Qabs_Qle_condition; exact Hx).
  assert (2 ^ k < 2 ^ 1024)%Q
    by (apply Qpower_lt_compat_l; [exact Hk | reflexivity]).
  lra.
Qed.

Lemma b64_round_pow2_bound (n k : Z) :
  0 <= k -> Z.abs n <= 2 ^ k ->
  (- 2 ^ k <= b64_round (inject_Z n) <= 2 ^ k)%Q.
Proof.
  intros Hk Hn.
  assert (Z.abs 1 < 2 ^ 53 /\ Z.abs (-1) < 2 ^ 53) as [H1 H2] by (split; lia).
  pose proof (b64_round_exact 1 k H1 ltac:(lia)) as Hpos.
  pose proof (b64_round_exact (-1) k H2 ltac:(lia)) as Hneg.
  assert (inject_Z (-1) * 2 ^ k <= inject_Z n <= inject_Z 1 * 2 ^ k)%Q
    as [Hlo Hhi].
  { rewrite <- pow2_Z, <- !inject_Z_mult, <- !Zle_Qle by exact Hk. lia. }
  apply b64_round_mono in Hlo, Hhi. rewrite Hneg in Hlo. rewrite Hpos in Hhi.
  change (inject_Z (-1)) with (-(1))%Q in Hlo.
  change (inject_Z 1) with 1%Q in Hhi. lra.
Qed.

(** Rounding to binary64 moves a value below [2^k] in magnitude by
    [2^(k - 53)] at most. *)
Lemma b64_round_close (x : Q) (k : Z) :
  -1022 <= k -> (Qabs x <= 2 ^ k)%Q ->
  (x - 2 ^ (k - 53) <= b64_round x <= x + 2 ^ (k - 53))%Q.
Proof.
  intros Hk Hx.
  destruct (Qeq_dec x 0) as [H0 | H0].
  { rewrite (b64_round_zero x H0), H0. pose proof (pow2_pos (k - 53)). lra. }
  destruct (binade_spec x H0) as [Hlo _].
  assert (binade x <= k).
  { apply (Qpower_le_compat_l_inv 2); [lra | reflexivity]. }
  pose proof (round_half_even_close (x / b64_ulp x)) as Hclose.
  pose proof (b64_ulp_pos x) as Hu.
  assert (b64_ulp x <= 2 * 2 ^ (k - 53))%Q as Hulp.
  { rewrite <- pow2_succ. unfold b64_ulp. apply pow2_le.
    unfold b64_exponent. lia. }
  unfold b64_round.
  assert (x == x / b64_ulp x * b64_ulp x)%Q as Hx' by (field; lra).
  set (q := (x / b64_ulp x)%Q) in *.
  set (r := inject_Z (round_half_even q)) in *.
  rewrite Hx' at 1 4. nra.
Qed.

(** A value of the size of those of the walk, rounded: it is finite, it
    stays between the ints around it, and it moves by [B64_EPS] at
    most. *)
Lemma b64_small (x : Q) (lo hi : Z) :
  - 2 ^ 30 <= lo -> hi <= 2 ^ 30 ->
  (inject_Z lo <= x <= inject_Z hi)%Q ->
  b64 x = Finite (b64_round x) /\
  (inject_Z lo <= b64_round x <= inject_Z hi)%Q /\
  (x - B64_EPS <= b64_round x <= x + B64_EPS)%Q.
Proof.
  intros Hlo Hhi Hx.
  assert (inject_Z lo <= inject_Z hi)%Q as Hle by lra.
  rewrite <- Zle_Qle in Hle.
  pose proof (b64_round_between lo hi x ltac:(lia) ltac:(lia) Hx) as Hb.
  assert (- inject_Z (2 ^ 30) <= inject_Z lo)%Q as Hlo'
    by (rewrite <- inject_Z_opp, <- Zle_Qle; lia).
  assert (inject_Z hi <= inject_Z (2 ^ 30))%Q as Hhi'
    by (rewrite <- Zle_Qle; lia).
  rewrite (pow2_Z 30) in Hlo', Hhi' by lia.
  split; [| split; [exact Hb |]].
  - apply (b64_finite x 30); [lia | lra].
  - apply (b64_round_close x 30); [lia |].
    apply Qabs_Qle_condition. lra.
Qed.

(** An int up to [2^1023] in magnitude converts to a float. *)
Lemma float_of_int_total (n : Z) :
  Z.abs n <= 2 ^ 1023 ->
  total (fun x => x = b64_round (inject_Z n)) (float_of_int n).
Proof.
  intros Hn. unfold float_of_int.
  rewrite (b64_finite (inject_Z n) 1023);
    [apply total_ret; reflexivity | lia |].
  apply b64_round_pow2_bound; [lia | exact Hn].
Qed.


(** [uniform] in binary64 between ints that are binary64 numbers, in
    either order: the float returned is finite and between them. *)
Lemma uniform_binary64_total (a b : Z) :
  Z.abs a <= 2 ^ 52 -> Z.abs b <= 2 ^ 52 ->
  total (float_in_range (Z.min a b) (Z.max a b)) (uniform_binary64 a b).
Proof.
  intros Ha Hb. unfold uniform_binary64.
  eapply total_bind; [apply random_total |]. cbv beta. intros r [Hr0 Hr1].
  eapply total_bind; [apply float_of_int_total; lia |]. cbv beta.
  intros width ->.
  eapply total_bind; [apply float_of_int_total; lia |]. cbv beta.
  intros a' ->. apply total_ret.
  pose proof (b64_round_int (b - a) ltac:(lia)) as Hwidth.
  pose proof (b64_round_int a ltac:(lia)) as Ha'.
  set (width := b64_round (inject_Z (b - a))) in *.
  set (a' := b64_round (inject_Z a)) in *.
  rewrite inject_Z_minus in Hwidth.
  assert (0 <= b64_round r <= 1)%Q as [Hr0' Hr1'].
  { apply (b64_round_between 0 1); [lia | lia |].
    change (inject_Z 0) with 0%Q. change (inject_Z 1) with 1%Q. lra. }
  set (lo := Z.min 0 (b - a)). set (hi := Z.max 0 (b - a)).
  assert (inject_Z lo <= width * b64_round r <= inject_Z hi)%Q as Hprod.
  { unfold lo, hi.
    destruct (Z.le_ge_cases 0 (b - a)) as [Hw | Hw].
    - rewrite Z.min_l, Z.max_r by lia. change (inject_Z 0) with 0%Q.
      assert (0 <= inject_Z b - inject_Z a)%Q
        by (rewrite <- inject_Z_minus; change 0%Q with (inject_Z 0);
            rewrite <- Zle_Qle; lia).
      rewrite inject_Z_minus. nra.
    - rewrite Z.min_r, Z.max_l by lia. change (inject_Z 0) with 0%Q.
      assert (inject_Z b - inject_Z a <= 0)%Q
        by (rewrite <- inject_Z_minus; change 0%Q with (inject_Z 0);
            rewrite <- Zle_Qle; lia).
      rewrite inject_Z_minus. nra. }
  pose proof (b64_round_between lo hi _ ltac:(unfold lo; lia)
                ltac:(unfold hi; lia) Hprod) as Hp.
  rewrite (b64_finite (width * b64_round r) 53);
    [| lia
     | rewrite <- pow2_Z by lia;
       assert (- inject_Z (2 ^ 53) <= inject_Z lo)%Q
         by (rewrite <- inject_Z_opp, <- Zle_Qle; unfold lo; lia);
       assert (inject_Z hi <= inject_Z (2 ^ 53))%Q
         by (rewrite <- Zle_Qle; unfold hi; lia);
       lra].
  set (p := b64_round (width * b64_round r)) in *.
  assert (inject_Z (Z.min a b) <= a' + p <= inject_Z (Z.max a b))%Q as Hsum.
  { assert (inject_Z (Z.min a b) == inject_Z a + inject_Z lo)%Q as ->
      by (rewrite <- inject_Z_plus; unfold lo;
          replace (a + Z.min 0 (b - a)) with (Z.min a b) by lia; reflexivity).
    assert (inject_Z (Z.max a b) == inject_Z a + inject_Z hi)%Q as ->
      by (rewrite <- inject_Z_plus; unfold hi;
          replace (a + Z.max 0 (b - a)) with (Z.max a b) by lia; reflexivity).
    lra. }
  pose proof (b64_round_between (Z.min a b) (Z.max a b) _ ltac:(lia)
                ltac:(lia) Hsum) as Hs.
  rewrite (b64_finite (a' + p) 53);
    [| lia
     | rewrite <- pow2_Z by lia;
       assert (- inject_Z (2 ^ 53) <= inject_Z (Z.min a b))%Q
         by (rewrite <- inject_Z_opp, <- Zle_Qle; lia);
       assert (inject_Z (Z.max a b) <= inject_Z (2 ^ 53))%Q
         by (rewrite <- Zle_Qle; lia);
       lra].
  exists (b64_round (a' + p)). split; [reflexivity | exact Hs].
Qed.



Lemma py_max0_nonneg (x : Q) : (0 <= py_max0 x)%Q.
Proof.
  unfold py_max0. destruct (Qle_bool x 0) eqn:E; [lra |].
  destruct (Qlt_le_dec 0 x) as [H | H]; [lra |].
  apply Qle_bool_iff in H. congruence.
Qed.

(** ** The generators, one by one *)

Ltac unfold_time :=
  unfold TIMEDELTA_MAX_DAYS, DATETIME_MAX, EPOCH_1970, YEAR_9999,
    US_PER_DAY, US_PER_HOUR, US_PER_MINUTE in *.

(** A library call returns within its documented range. *)
Ltac total_op :=
  lazymatch goal with
  | |- total _ (randint _ _) => apply randint_total; lia
  | |- total _ (uniform _ _) => apply uniform_total; lra
  | |- total _ (choice _) => apply choice_total; discriminate
  | |- total _ (choices _ _) => apply choices_total; discriminate
  | |- total _ random => apply random_total
  | |- total _ now => apply now_total
  | |- total _ (timedelta _ _ _) => apply timedelta_total; unfold_time; lia
  | |- total _ (dt_add _ _) => apply dt_add_total; unfold_time; lia
  | |- total _ (dt_sub _ _) => apply dt_sub_total; unfold_time; lia
  end.

(** One step through a sequence of calls: the call returns, and the rest
    runs with what is known of the value returned. *)
Ltac mstep :=
  lazymatch goal with
  | |- total _ (ret _) => apply total_ret
  | |- total _ (bind _ _) =>
      eapply total_bind; [total_op | cbv beta; intros ? ?]
  | |- total _ (if Qlt_le_dec ?a ?b then _ else _) =>
      destruct (Qlt_le_dec a b)
  end.

Lemma generate_numbers_int n lo hi :
  lo <= hi ->
  total (fun l => length l = Z.to_nat n /\ Forall (in_range lo hi) l)
        (generate_numbers n lo hi "int").
Proof.
  intros Hlh. unfold generate_numbers. simpl String.eqb. cbv iota.
  apply for_range_total. intros _. repeat mstep.
  unfold in_range. simpl. rewrite <- !Zle_Qle. assumption.
Qed.

Lemma generate_numbers_float n lo hi :
  lo <= hi ->
  total (fun l => length l = Z.to_nat n /\ Forall (in_range lo hi) l)
        (generate_numbers n lo hi "float").
Proof.
  intros Hlh. unfold generate_numbers. simpl String.eqb. cbv iota.
  apply for_range_total. intros _.
  eapply total_bind; [apply uniform_total; rewrite <- Zle_Qle; exact Hlh |].
  intros x Hx. apply total_ret. exact Hx.
Qed.


(** A known kind does not protect from an empty range: the first draw of
    [randint] raises. *)
Lemma generate_numbers_empty_range n lo hi :
  0 < n -> hi < lo -> raises ValueError (generate_numbers n lo hi "int").
Proof.
  intros Hn Hlh w. unfold generate_numbers. simpl String.eqb. cbv iota.
  unfold for_range. destruct (Z.to_nat n) as [|rounds] eqn:E; [lia |].
  destruct (randint_raises lo hi Hlh w) as [w' Ew].
  exists w'. simpl. unfold bind at 1 2. rewrite Ew. reflexivity.
Qed.

Lemma generate_strings_total n min_len max_len :
  min_len <= max_len ->
  total (fun l => length l = Z.to_nat n) (generate_strings n min_len max_len).
Proof.
  intros Hlen. unfold generate_strings.
  eapply total_weaken;
    [apply (for_range_total (fun _ => True)) | intros l [H _]; exact H].
  intros _. repeat mstep. exact I.
Qed.

Lemma generate_words_total n :
  total (fun l => length l = Z.to_nat n) (generate_words n).
Proof.
  unfold generate_words.
  eapply total_weaken;
    [apply (for_range_total (fun _ => True)) | intros l [H _]; exact H].
  intros _. repeat mstep. exact I.
Qed.

Lemma generate_sentences_total n :
  total (fun l => length l = Z.to_nat n) (generate_sentences n).
Proof.
  unfold generate_sentences.
  eapply total_weaken;
    [apply (for_range_total (fun _ => True)) | intros l [H _]; exact H].
  intros _. repeat mstep; exact I.
Qed.

Lemma generate_students_total n :
  total (fun l => length l = Z.to_nat n /\
                  Forall (fun s => has_decimals 1 (Student.grade s)) l)
        (generate_students n).
Proof.
  unfold generate_students. apply for_range_total. intros i.
  repeat mstep. apply py_round_has_decimals.
Qed.

Lemma generate_products_total n :
  total (fun l => length l = Z.to_nat n /\
                  Forall (fun p => has_decimals 2 (Product.price p)) l)
        (generate_products n).
Proof.
  unfold generate_products. apply for_range_total. intros i.
  repeat mstep. apply py_round_has_decimals.
Qed.

Lemma generate_matrix_total rows cols lo hi :
  lo <= hi ->
  total (fun m => length m = Z.to_nat rows /\
                  Forall (fun row => length row = Z.to_nat cols /\
                                     Forall (fun x => lo <= x <= hi) row) m)
        (generate_matrix rows cols lo hi).
Proof.
  intros Hlh. unfold generate_matrix. apply for_range_total. intros _.
  apply for_range_total. intros _. apply randint_total, Hlh.
Qed.

(** What follows a reading of the clock runs with the instant read. *)
Lemma bind_now_hoare {B} (k : datetime -> M B) (Q : datetime -> B -> Prop) :
  (forall t, EPOCH_1970 <= t < YEAR_9999 -> total (Q t) (k t)) ->
  hoare (t <- now ;; k t) (fun w b _ => Q (fst (clock_now (w_clock w))) b).
Proof.
  intros Hk w. unfold bind, now.
  pose proof (clock_now_range (w_clock w)) as Ht.
  destruct (clock_now (w_clock w)) as [t c]. cbn [fst] in *.
  destruct (Hk t Ht (mkWorld (w_rng w) c (w_next w))) as (b & w' & E & Hb).
  exists b, w'. split; assumption.
Qed.

(** The dates of the transactions start 90 days before the reading of the
    clock and end 23 hours after it. *)
Lemma generate_transactions_hoare n :
  hoare (generate_transactions n) (fun w l _ =>
    length l = Z.to_nat n /\
    Forall (transaction_window (fst (clock_now (w_clock w)))) l).
Proof.
  unfold generate_transactions.
  apply (bind_now_hoare _ (fun t l =>
           length l = Z.to_nat n /\ Forall (transaction_window t) l)).
  intros t Ht.
  do 2 mstep. subst. apply for_range_total. intros i.
  repeat mstep. subst. unfold transaction_window. cbn [Transaction.date].
  unfold_time. lia.
Qed.

Lemma log_messages_nonempty level :
  default ["Generic message"] (log_messages !! level) <> [].
Proof.
  destruct (log_messages !! level) as [l|] eqn:E; [| discriminate]. simpl.
  unfold log_messages in E. apply elem_of_list_to_map_2 in E.
  repeat (apply elem_of_cons in E as [E | E]; [injection E as _ ->; discriminate |]).
  apply elem_of_nil in E. contradiction.
Qed.

Lemma generate_logs_hoare n :
  hoare (generate_logs n) (fun w l _ =>
    length l = Z.to_nat n /\
    Forall (log_window (fst (clock_now (w_clock w)))) l).
Proof.
  unfold generate_logs.
  apply (bind_now_hoare _ (fun t l =>
           length l = Z.to_nat n /\ Forall (log_window t) l)).
  intros t Ht.
  do 2 mstep. subst. apply for_range_total. intros i.
  do 4 mstep.
  eapply total_bind; [apply choice_total, log_messages_nonempty |].
  intros message _.
  repeat mstep. subst. unfold log_window. cbn [LogEntry.timestamp].
  unfold_time. lia.
Qed.

Lemma dict_comp_total {V} (P : V -> Prop) (body : string -> M V) keys :
  (forall key, total P (body key)) ->
  forall acc,
    map_Forall (fun _ => P) acc ->
    total (map_Forall (fun _ => P)) (dict_comp keys body acc).
Proof.
  intros Hbody. induction keys as [|key keys IH]; intros acc Hacc; simpl.
  - apply total_ret, Hacc.
  - eapply total_bind; [apply Hbody |]. intros v Hv.
    apply IH. apply map_Forall_insert_2; assumption.
Qed.

Lemma generate_grades_dict_total n_students n_assignments :
  total (map_Forall (fun _ => map_Forall (fun _ g => 60 <= g <= 100)))
        (generate_grades_dict n_students n_assignments).
Proof.
  unfold generate_grades_dict.
  apply dict_comp_total; [| apply map_Forall_empty]. intros student.
  apply dict_comp_total; [| apply map_Forall_empty]. intros assignment.
  apply randint_total. lia.
Qed.

(** ** Computations that only draw *)

Lemma rng_only_ret {A} (a : A) : rng_only (ret a).
Proof. intros w. simpl. auto. Qed.

Lemma rng_only_raise {A} e : rng_only (@raise _ _ A e).
Proof. intros w. simpl. auto. Qed.

Lemma rng_only_bind {A B} (m : M A) (k : A -> M B) :
  rng_only m -> (forall a, rng_only (k a)) -> rng_only (x <- m ;; k x).
Proof.
  intros Hm Hk w. unfold bind.
  destruct (Hm w) as (Hc & Hn & Hr).
  destruct (m w) as [[a | e] w1] eqn:E; cbn [fst snd] in *.
  - destruct (Hk a w1) as (Hc1 & Hn1 & Hr1).
    split; [congruence |]. split; [congruence |]. intros w2 Hw2.
    destruct (Hr w2 Hw2) as [Hf Hs].
    destruct (m w2) as [r2 w2']; cbn [fst snd] in *. subst r2.
    apply Hr1, Hs.
  - split; [exact Hc |]. split; [exact Hn |]. intros w2 Hw2.
    destruct (Hr w2 Hw2) as [Hf Hs].
    destruct (m w2) as [r2 w2']; cbn [fst snd] in *. subst r2. auto.
Qed.

Lemma rng_only_random : rng_only random.
Proof.
  intros w. unfold random.
  split; [destruct (rng_random (w_rng w)); reflexivity |].
  split; [destruct (rng_random (w_rng w)); reflexivity |].
  intros w2 ->. destruct (rng_random (w_rng w)). auto.
Qed.

Lemma rng_only_randbelow n : rng_only (randbelow n).
Proof.
  intros w. unfold randbelow.
  split; [destruct (rng_randbelow n (w_rng w)); reflexivity |].
  split; [destruct (rng_randbelow n (w_rng w)); reflexivity |].
  intros w2 ->. destruct (rng_randbelow n (w_rng w)). auto.
Qed.

Lemma rng_only_for_from {A} (body : Z -> M A) :
  (forall i, rng_only (body i)) ->
  forall rounds i, rng_only (for_from i rounds body).
Proof.
  intros Hbody. induction rounds as [|rounds IH]; intros i; simpl.
  - apply rng_only_ret.
  - apply rng_only_bind; [apply Hbody |]. intros x.
    apply rng_only_bind; [apply IH |]. intros xs. apply rng_only_ret.
Qed.

Lemma rng_only_for_range {A} n (body : Z -> M A) :
  (forall i, rng_only (body i)) -> rng_only (for_range n body).
Proof. intros Hbody. apply rng_only_for_from, Hbody. Qed.

Lemma rng_only_dict_comp {V} (body : string -> M V) keys :
  (forall key, rng_only (body key)) ->
  forall acc, rng_only (dict_comp keys body acc).
Proof.
  intros Hbody. induction keys as [|key keys IH]; intros acc; simpl.
  - apply rng_only_ret.
  - apply rng_only_bind; [apply Hbody |]. intros v. apply IH.
Qed.

Lemma rng_only_index {A} (seq : list A) i : rng_only (index seq i).
Proof.
  unfold index. cbv zeta.
  destruct (_ <? 0); [apply rng_only_raise |].
  destruct (seq !! _); [apply rng_only_ret | apply rng_only_raise].
Qed.

Lemma rng_only_shuffle_from {A} i (x : list A) : rng_only (shuffle_from i x).
Proof.
  revert x. induction i as [|i IH]; intros x; simpl.
  - apply rng_only_ret.
  - apply rng_only_bind; [apply rng_only_randbelow |]. intros j.
    apply rng_only_bind; [| intros x'; apply IH].
    unfold swap. destruct (x !! S i); [destruct (x !! Z.to_nat j) |];
      first [apply rng_only_ret | apply rng_only_raise].
Qed.

(** Decomposes a computation built from draws, pure steps and loops. *)
Ltac rng_only_step :=
  lazymatch goal with
  | |- rng_only (ret _) => apply rng_only_ret
  | |- rng_only (raise _) => apply rng_only_raise
  | |- rng_only (bind _ _) => apply rng_only_bind; [| intros ?]
  | |- rng_only random => apply rng_only_random
  | |- rng_only (randbelow _) => apply rng_only_randbelow
  | |- rng_only (randrange _ _) => unfold randrange; cbv zeta
  | |- rng_only (randint _ _) => unfold randint
  | |- rng_only (uniform _ _) => unfold uniform
  | |- rng_only (index _ _) => apply rng_only_index
  | |- rng_only (choice ?l) => unfold choice
  | |- rng_only (choices _ _) => unfold choices
  | |- rng_only (shuffle _) => apply rng_only_shuffle_from
  | |- rng_only (timedelta _ _ _) => unfold timedelta; cbv zeta
  | |- rng_only (dt_add _ _) => unfold dt_add; cbv zeta
  | |- rng_only (dt_sub _ _) => unfold dt_sub
  | |- rng_only (for_range _ _) => apply rng_only_for_range; intros ?
  | |- rng_only (dict_comp _ _ _) => apply rng_only_dict_comp; intros ?
  | |- rng_only (if ?b then _ else _) => destruct b
  | |- rng_only (match ?l with [] => _ | _ :: _ => _ end) => destruct l
  end.

Ltac rng_only_tac := repeat rng_only_step.

Lemma rng_only_randint a b : rng_only (randint a b).
Proof. rng_only_tac. Qed.

Lemma rng_only_uniform a b : rng_only (uniform a b).
Proof. rng_only_tac. Qed.

Lemma rng_only_choice {A} (seq : list A) : rng_only (choice seq).
Proof. rng_only_tac. Qed.

Lemma rng_only_generate_numbers n lo hi type :
  rng_only (generate_numbers n lo hi type).
Proof. unfold generate_numbers. rng_only_tac. Qed.

Lemma rng_only_generate_strings n lo hi : rng_only (generate_strings n lo hi).
Proof. unfold generate_strings. rng_only_tac. Qed.

Lemma rng_only_generate_words n : rng_only (generate_words n).
Proof. unfold generate_words. rng_only_tac. Qed.

Lemma rng_only_generate_sentences n : rng_only (generate_sentences n).
Proof. unfold generate_sentences. rng_only_tac. Qed.

Lemma rng_only_generate_students n : rng_only (generate_students n).
Proof. unfold generate_students. rng_only_tac. Qed.

Lemma rng_only_generate_products n : rng_only (generate_products n).
Proof. unfold generate_products. rng_only_tac. Qed.

Lemma rng_only_generate_matrix rows cols lo hi :
  rng_only (generate_matrix rows cols lo hi).
Proof. unfold generate_matrix. rng_only_tac. Qed.

Lemma rng_only_generate_grades_dict n_students n_assignments :
  rng_only (generate_grades_dict n_students n_assignments).
Proof. unfold generate_grades_dict. rng_only_tac. Qed.

Lemma rng_only_generate_mixed_types : rng_only generate_mixed_types.
Proof. unfold generate_mixed_types. rng_only_tac. Qed.

Lemma rng_only_generate_emails_text : rng_only generate_emails_text.
Proof. unfold generate_emails_text. rng_only_tac. Qed.

Lemma rng_only_generate_pattern_numbers : rng_only generate_pattern_numbers.
Proof. unfold generate_pattern_numbers. cbv zeta. rng_only_tac. Qed.

(** ** Time series, users, patterns *)

Lemma py_round_nonneg (x : Q) (d : nat) : (0 <= x)%Q -> (0 <= py_round x d)%Q.
Proof.
  intros Hx. unfold py_round, Qle. cbn [Qnum Qden].
  assert (0 <= round_half_even (x * inject_Z (10 ^ Z.of_nat d))).
  { apply round_half_even_ge. change (inject_Z 0) with 0%Q.
    apply Qmult_le_0_compat; [exact Hx |].
    change 0%Q with (inject_Z 0). rewrite <- Zle_Qle. lia. }
  lia.
Qed.

(** For a number of days that the calendar can hold before the reading of
    the clock, the series has one point per day from [days] days before
    the reading on, none with a negative value. *)
Lemma generate_time_series_hoare days initial :
  0 <= days <= 719162 ->
  hoare (generate_time_series days initial) (fun w l _ =>
    length l = Z.to_nat days /\
    indexed (time_point_ok (fst (clock_now (w_clock w)) - days * US_PER_DAY))
            0 l).
Proof.
  intros Hdays. unfold generate_time_series.
  apply (bind_now_hoare _ (fun t l =>
           length l = Z.to_nat days /\
           indexed (time_point_ok (t - days * US_PER_DAY)) 0 l)).
  intros t Ht. do 2 mstep. subst.
  apply (for_carry_indexed (fun _ => True) _ _ days); [| lia | lia | exact I].
  intros i value Hi _. repeat mstep. subst.
  split; [exact I |]. split; cbn [snd TimePoint.date TimePoint.value].
  - unfold_time. lia.
  - apply py_round_nonneg, py_max0_nonneg.
Qed.

Lemma new_object_total : total (fun _ => True) new_object.
Proof. intros w. eexists _, _. split; [reflexivity | exact I]. Qed.

Lemma purchase_price_range (x : Q) :
  (10 <= x <= 200)%Q -> (10 <= py_round x 2 <= 200)%Q.
Proof.
  intros Hx.
  destruct (py_round_bounds x 2 1000 20000) as [Hlo Hhi].
  { cbv zeta. change (inject_Z (10 ^ Z.of_nat 2)) with 100%Q.
    change (inject_Z 1000) with 1000%Q. change (inject_Z 20000) with 20000%Q.
    lra. }
  split.
  - eapply Qle_trans; [| exact Hlo]. discriminate.
  - eapply Qle_trans; [exact Hhi |]. discriminate.
Qed.

Lemma generate_user_data_total n :
  total (fun l => length l = Z.to_nat n /\ Forall user_ok l)
        (generate_user_data n).
Proof.
  unfold generate_user_data. apply for_range_total. intros i.
  do 5 mstep.
  eapply total_bind.
  { apply (for_range_total purchase_ok). intros _.
    do 6 mstep.
    eapply total_bind; [apply new_object_total |]. intros r _.
    apply total_ret. split; cbn [Purchase.price].
    - apply py_round_has_decimals.
    - apply purchase_price_range. assumption. }
  cbv beta. intros purchases [Hlen Hall]. apply total_ret.
  split; cbn [User.purchases]; [lia | exact Hall].
Qed.

Lemma generate_mixed_types_total :
  total (fun l => l = list_times mixed_types_literal 5) generate_mixed_types.
Proof. apply total_ret. reflexivity. Qed.

Lemma generate_emails_text_total :
  total (fun l => length l = 30%nat) generate_emails_text.
Proof.
  unfold generate_emails_text.
  eapply total_weaken;
    [apply (for_range_total (fun _ => True)) | intros l [H _]; exact H].
  intros _. repeat mstep; exact I.
Qed.

(** The pattern numbers are a rearrangement of the three fixed lists and of
    50 draws between 1 and 100. *)
Lemma generate_pattern_numbers_total :
  total (fun l => exists randoms,
           length randoms = 50%nat /\
           Forall (fun x => 1 <= x <= 100) randoms /\
           l ≡ₚ squares ++ primes ++ fibs ++ randoms)
        generate_pattern_numbers.
Proof.
  unfold generate_pattern_numbers. cbv zeta.
  eapply total_bind;
    [apply (for_range_total (fun x => 1 <= x <= 100)); intros _;
     apply randint_total; lia |].
  cbv beta. intros randoms [Hlen Hall].
  eapply total_weaken; [apply shuffle_total |]. intros l Hl.
  exists randoms. split; [exact Hlen |]. split; [exact Hall |].
  rewrite Hl, app_nil_l, <- !app_assoc. reflexivity.
Qed.

(** ** Object identities *)

Lemma keeps_of_rng_only {A} (P : A -> Prop) (m : M A) :
  rng_only m -> total P m ->
  hoare m (fun w a w' => P a /\ w_next w' = w_next w).
Proof.
  intros Hr Ht w. destruct (Ht w) as (a & w' & E & Ha).
  destruct (Hr w) as (_ & Hn & _). rewrite E in Hn. eauto.
Qed.

Lemma now_keeps :
  hoare now (fun w t w' => EPOCH_1970 <= t < YEAR_9999 /\ w_next w' = w_next w).
Proof.
  eapply hoare_weaken; [exact (hoare_conj _ _ _ now_hoare now_total) |].
  cbv beta. intros w t w' [(_ & _ & Hn) Ht]. auto.
Qed.

Lemma allocates_bind_keep {A B} (P : A -> Prop) (refs : B -> list obj_id)
    (m : M A) (k : A -> M B) :
  hoare m (fun w a w' => P a /\ w_next w' = w_next w) ->
  (forall a, P a -> allocates refs (k a)) ->
  allocates refs (x <- m ;; k x).
Proof.
  intros Hm Hk w. destruct (Hm w) as (a & w1 & Em & Ha & Hn).
  destruct (Hk a Ha w1) as (b & w2 & Ek & Hle & Hfresh).
  exists b, w2. unfold bind. rewrite Em, <- Hn. auto.
Qed.

Lemma allocates_bind_ret {A B} (refs : A -> list obj_id)
    (refs' : B -> list obj_id) (m : M A) (f : A -> B) :
  allocates refs m -> (forall a, refs' (f a) = refs a) ->
  allocates refs' (x <- m ;; ret (f x)).
Proof.
  intros Hm Hf w. destruct (Hm w) as (a & w1 & Em & Hle & Hfresh).
  exists (f a), w1. unfold bind. rewrite Em, Hf. auto.
Qed.

Lemma allocates_new_object {B} (f : obj_id -> B) (refs : B -> list obj_id) :
  (forall r, refs (f r) = [r]) ->
  allocates refs (r <- new_object ;; ret (f r)).
Proof.
  intros Hf w. eexists _, _. split; [reflexivity |]. cbn [w_next].
  split; [lia |]. rewrite Hf. split.
  - apply NoDup_singleton.
  - intros r Hr. apply list_elem_of_singleton in Hr. lia.
Qed.

Lemma fresh_in_app lo mid hi ids ids' :
  (lo <= mid)%N -> (mid <= hi)%N ->
  fresh_in lo mid ids -> fresh_in mid hi ids' -> fresh_in lo hi (ids ++ ids').
Proof.
  intros H1 H2 [Hnd Hin] [Hnd' Hin']. split.
  - apply NoDup_app. split; [exact Hnd |]. split; [| exact Hnd'].
    intros r Hr Hr'. specialize (Hin r Hr). specialize (Hin' r Hr'). lia.
  - intros r Hr. apply elem_of_app in Hr as [Hr | Hr];
      [specialize (Hin r Hr) | specialize (Hin' r Hr)]; lia.
Qed.

Lemma allocates_for_from {A} (refs : A -> list obj_id) (body : Z -> M A) :
  (forall i, allocates refs (body i)) ->
  forall rounds i,
    allocates (fun l => concat (refs <$> l)) (for_from i rounds body).
Proof.
  intros Hbody. induction rounds as [|rounds IH]; intros i w; simpl.
  - exists [], w. split; [reflexivity |]. split; [lia |]. split.
    + apply NoDup_nil_2.
    + intros r Hr. apply elem_of_nil in Hr. contradiction.
  - destruct (Hbody i w) as (x & w1 & Ex & Hle1 & Hf1).
    destruct (IH (i + 1) w1) as (xs & w2 & Exs & Hle2 & Hf2).
    exists (x :: xs), w2. unfold bind. rewrite Ex, Exs.
    split; [reflexivity |]. split; [lia |].
    cbn [fmap list_fmap concat]. eapply fresh_in_app; eassumption.
Qed.

Ltac astep :=
  lazymatch goal with
  | |- allocates _ (bind now _) =>
      eapply allocates_bind_keep; [apply now_keeps | cbv beta; intros ? ?]
  | |- allocates _ (bind new_object _) =>
      apply allocates_new_object; intros ?; reflexivity
  | |- allocates _ (bind _ _) =>
      eapply allocates_bind_keep;
      [apply keeps_of_rng_only; [rng_only_tac | total_op]
      | cbv beta; intros ? ?]
  end.

(** Every purchase of every user is an object of its own. *)
Lemma generate_user_data_allocates n :
  allocates (fun l => concat (user_refs <$> l)) (generate_user_data n).
Proof.
  unfold generate_user_data. apply allocates_for_from. intros i.
  do 5 astep.
  apply (allocates_bind_ret
           (fun l => concat ((fun p => [Purchase.ref p]) <$> l))).
  - apply allocates_for_from. intros _. repeat astep.
  - intros purchases. unfold user_refs. cbn [User.purchases].
    induction purchases as [|p ps IH]; [reflexivity |].
    cbn [fmap list_fmap concat app]. f_equal. exact IH.
Qed.

Lemma elem_of_concat {A} (ls : list (list A)) (l : list A) (x : A) :
  x ∈ l -> l ∈ ls -> x ∈ concat ls.
Proof.
  rewrite !list_elem_of_In. intros Hx Hl. apply in_concat. eauto.
Qed.

Lemma NoDup_concat_lookup {A} (ls : list (list A)) (i j : nat) (a b : list A) :
  NoDup (concat ls) -> i <> j -> ls !! i = Some a -> ls !! j = Some b ->
  forall x, x ∈ a -> x ∉ b.
Proof.
  revert i j. induction ls as [|l ls IH]; intros i j Hnd Hij Hi Hj x Ha Hb;
    [discriminate |].
  cbn [concat] in Hnd. apply NoDup_app in Hnd as (_ & Hdisj & Hnd).
  destruct i as [|i], j as [|j]; cbn in Hi, Hj.
  - congruence.
  - injection Hi as ->. apply (Hdisj x Ha).
    eapply elem_of_concat; [exact Hb |].
    eapply list_elem_of_lookup_2, Hj.
  - injection Hj as ->. apply (Hdisj x Hb).
    eapply elem_of_concat; [exact Ha |].
    eapply list_elem_of_lookup_2, Hi.
  - apply (IH i j Hnd ltac:(congruence) Hi Hj x Ha Hb).
Qed.

(** ** The stated properties *)

(** C3.  For every non-negative [n], each generator that takes a count
    returns a list of exactly [n] items: [generate_numbers] (for both
    kinds and every ordered range, the defaults among them),
    [generate_strings] (for every ordered range of lengths),
    [generate_words], [generate_sentences], [generate_students],
    [generate_products], [generate_transactions], [generate_logs] and
    [generate_user_data]; and [generate_matrix rows cols] returns exactly
    [rows] rows of exactly [cols] entries each. *)
Theorem generators_return_requested_count (n : Z) :
  0 <= n ->
  let n_items := fun (A : Type) (l : list A) => Z.of_nat (length l) = n in
  (forall min_val max_val type,
     min_val <= max_val -> type = "int" \/ type = "float" ->
     total (n_items _) (generate_numbers n min_val max_val type)) /\
  (forall min_len max_len,
     min_len <= max_len ->
     total (n_items _) (generate_strings n min_len max_len)) /\
  total (n_items _) (generate_words n) /\
  total (n_items _) (generate_sentences n) /\
  total (n_items _) (generate_students n) /\
  total (n_items _) (generate_products n) /\
  total (n_items _) (generate_transactions n) /\
  total (n_items _) (generate_logs n) /\
  total (n_items _) (generate_user_data n) /\
  (forall rows cols min_val max_val,
     0 <= rows -> 0 <= cols -> min_val <= max_val ->
     total (fun m => Z.of_nat (length m) = rows /\
                     Forall (fun row => Z.of_nat (length row) = cols) m)
           (generate_matrix rows cols min_val max_val)).
Proof.
  intros Hn n_items.
  assert (forall A (l : list A), length l = Z.to_nat n -> n_items A l) as Hlen
    by (intros A l H; unfold n_items; lia).
  repeat split.
  - intros lo hi type Hlh [-> | ->];
      (eapply total_weaken;
       [first [apply generate_numbers_int | apply generate_numbers_float];
        exact Hlh |]);
      intros l [H _]; auto.
  - intros lo hi Hlh.
    eapply total_weaken; [apply generate_strings_total, Hlh | auto].
  - eapply total_weaken; [apply generate_words_total | auto].
  - eapply total_weaken; [apply generate_sentences_total | auto].
  - eapply total_weaken; [apply generate_students_total |].
    intros l [H _]; auto.
  - eapply total_weaken; [apply generate_products_total |].
    intros l [H _]; auto.
  - eapply hoare_weaken; [apply generate_transactions_hoare |].
    cbv beta. intros _ l _ [H _]; auto.
  - eapply hoare_weaken; [apply generate_logs_hoare |].
    cbv beta. intros _ l _ [H _]; auto.
  - eapply total_weaken; [apply generate_user_data_total |].
    intros l [H _]; auto.
  - intros rows cols lo hi Hrows Hcols Hlh.
    eapply total_weaken; [apply generate_matrix_total, Hlh |].
    intros m [Hm Hall]. split; [lia |].
    eapply Forall_impl; [exact Hall |]. cbv beta. intros row [Hrow _]. lia.
Qed.

(** C5, as the code has it.  Under the precondition
    [min_val <= max_val], every value the integer generators produce lies
    within the inclusive range: every element of [generate_numbers] for the
    kind ["int"], every entry of [generate_matrix], and every grade of
    [generate_grades_dict], which lies in [[60, 100]].  For the kind
    ["float"] this is so when the bounds are at most [2^52] in magnitude:
    then the bounds and their difference are binary64 numbers, and the
    rounding of the library's [a + (b - a) * random()] cannot step over
    them.  It is stated of the generator in exact arithmetic and of its
    float branch as binary64 computes it. *)
Theorem numeric_generators_within_range (min_val max_val : Z) :
  min_val <= max_val ->
  (forall n,
     total (Forall (in_range min_val max_val))
           (generate_numbers n min_val max_val "int")) /\
  (- FLOAT_EXACT <= min_val -> max_val <= FLOAT_EXACT ->
   forall n,
     total (Forall (in_range min_val max_val))
           (generate_numbers n min_val max_val "float") /\
     total (Forall (float_in_range min_val max_val))
           (generate_numbers_binary64 n min_val max_val)) /\
  (forall rows cols,
     total (Forall (Forall (fun x => min_val <= x <= max_val)))
           (generate_matrix rows cols min_val max_val)) /\
  (forall n_students n_assignments,
     total (map_Forall (fun _ => map_Forall (fun _ g => 60 <= g <= 100)))
           (generate_grades_dict n_students n_assignments)).
Proof.
  intros Hlh. split; [| split; [| split]].
  - intros n.
    eapply total_weaken; [apply generate_numbers_int, Hlh |].
    intros l [_ H]; exact H.
  - intros Hlo Hhi n. split.
    + eapply total_weaken; [apply generate_numbers_float, Hlh |].
      intros l [_ H]; exact H.
    + unfold generate_numbers_binary64, FLOAT_EXACT in *.
      eapply total_weaken;
        [apply (for_range_total (float_in_range min_val max_val)) |
         intros l [_ H]; exact H].
      intros _.
      pose proof (uniform_binary64_total min_val max_val ltac:(lia)
                    ltac:(lia)) as H.
      rewrite Z.min_l, Z.max_r in H by exact Hlh. exact H.
  - intros rows cols.
    eapply total_weaken; [apply generate_matrix_total, Hlh |].
    intros m [_ Hall]. eapply Forall_impl; [exact Hall |].
    cbv beta. intros row [_ Hrow]. exact Hrow.
  - intros ns na. apply generate_grades_dict_total.
Qed.

(** C6.  [generate_pattern_numbers] always returns a list of length 86
    that contains the first ten perfect squares and the fifteen primes as
    sub-multisets. *)
Theorem pattern_numbers_length_and_members :
  total (fun l =>
           length l = 86%nat /\
           [1; 4; 9; 16; 25; 36; 49; 64; 81; 100] ⊆+ l /\
           [2; 3; 5; 7; 11; 13; 17; 19; 23; 29; 31; 37; 41; 43; 47] ⊆+ l)
        generate_pattern_numbers.
Proof.
  eapply total_weaken; [apply generate_pattern_numbers_total |].
  intros l (randoms & Hlen & _ & Hl). split; [| split].
  - rewrite Hl, !length_app, Hlen. reflexivity.
  - rewrite Hl. change [1; 4; 9; 16; 25; 36; 49; 64; 81; 100] with squares.
    apply submseteq_inserts_r. reflexivity.
  - rewrite Hl.
    change [2; 3; 5; 7; 11; 13; 17; 19; 23; 29; 31; 37; 41; 43; 47] with primes.
    apply submseteq_inserts_l, submseteq_inserts_r. reflexivity.
Qed.

(** C7.  [generate_time_series 10 100] returns exactly 10 points whose
    dates are consecutive calendar days, hence strictly increasing, and
    whose value is non-negative at every point. *)
Theorem time_series_ten_days :
  total (fun l =>
           length l = 10%nat /\
           (forall i a b, l !! i = Some a -> l !! S i = Some b ->
              TimePoint.date b = TimePoint.date a + US_PER_DAY) /\
           (forall i j a b, l !! i = Some a -> l !! j = Some b ->
              (i < j)%nat -> TimePoint.date a < TimePoint.date b) /\
           Forall (fun pt => (0 <= TimePoint.value pt)%Q) l)
        (generate_time_series 10 100).
Proof.
  eapply hoare_weaken; [apply generate_time_series_hoare; lia |].
  cbv beta. intros w l _ [Hlen Hl]. split; [exact Hlen |].
  split; [| split].
  - intros i a b Ha Hb.
    destruct (Hl _ _ Ha) as [-> _]. destruct (Hl _ _ Hb) as [-> _]. lia.
  - intros i j a b Ha Hb Hij.
    destruct (Hl _ _ Ha) as [-> _]. destruct (Hl _ _ Hb) as [-> _].
    unfold_time. lia.
  - apply Forall_lookup. intros i pt Hi. exact (proj2 (Hl _ _ Hi)).
Qed.








(** C9.  [generate_user_data 5] returns exactly 5 users; the purchases of
    every user number between 0 and 10; every purchase price is rounded
    to two decimals and lies in [[10, 200]]; and no purchase record
    belongs to two users. *)
Theorem user_data_five_users :
  total (fun l =>
           length l = 5%nat /\
           Forall (fun u =>
                     (0 <= length (User.purchases u) <= 10)%nat /\
                     Forall (fun p =>
                               has_decimals 2 (Purchase.price p) /\
                               (10 <= Purchase.price p <= 200)%Q)
                            (User.purchases u)) l /\
           (forall i j u v p q,
              i <> j -> l !! i = Some u -> l !! j = Some v ->
              p ∈ User.purchases u -> q ∈ User.purchases v ->
              Purchase.ref p <> Purchase.ref q))
        (generate_user_data 5).
Proof.
  eapply hoare_weaken;
    [exact (hoare_conj _ _ _ (generate_user_data_total 5)
              (generate_user_data_allocates 5)) |].
  cbv beta. intros w l w' [[Hlen Hall] [_ [Hnd _]]].
  split; [exact Hlen |]. split.
  - eapply Forall_impl; [exact Hall |]. intros u [Hu Hps]. split; [lia |].
    exact Hps.
  - intros i j u v p q Hij Hu Hv Hp Hq Heq.
    apply (NoDup_concat_lookup (user_refs <$> l) i j (user_refs u)
             (user_refs v) Hnd Hij) with (x := Purchase.ref p).
    + rewrite list_lookup_fmap, Hu. reflexivity.
    + rewrite list_lookup_fmap, Hv. reflexivity.
    + unfold user_refs. apply list_elem_of_fmap_2. exact Hp.
    + rewrite Heq. unfold user_refs. apply list_elem_of_fmap_2. exact Hq.
Qed.

(** C10.  [generate_mixed_types] draws nothing and leaves the world as it
    found it; on every call it returns the same list, a fixed sequence of
    19 values repeated 5 times, 95 values in all; in particular any two
    calls return equal lists. *)
Theorem mixed_types_fixed :
  (forall w,
     generate_mixed_types w = (Ok (list_times mixed_types_literal 5), w)) /\
  length mixed_types_literal = 19%nat /\
  length (list_times mixed_types_literal 5) = 95%nat /\
  (forall w1 w2, fst (generate_mixed_types w1) = fst (generate_mixed_types w2)).
Proof.
  split; [| split; [| split]]; reflexivity.
Qed.

(** ** Which calls raise *)

Lemma total_returns {A} (P : A -> Prop) (m : M A) : total P m -> returns m.
Proof. intros H. eapply total_weaken; [exact H | auto]. Qed.


(** A time series asked to start before the first day of the calendar
    raises [OverflowError]. *)
Lemma generate_time_series_overflow days initial :
  3651694 <= days <= TIMEDELTA_MAX_DAYS ->
  raises OverflowError (generate_time_series days initial).
Proof.
  intros Hdays. unfold generate_time_series.
  eapply raises_bind; [apply now_total |]. cbv beta. intros t Ht.
  eapply raises_bind; [apply timedelta_total; unfold_time; lia |].
  cbv beta. intros d ->.
  apply raises_bind_here. apply dt_add_raises. unfold_time. lia.
Qed.





(** ** Two runs from the same random state *)

Lemma sim_ret {A} (RA : A -> A -> Prop) a1 a2 :
  RA a1 a2 -> sim RA (ret a1) (ret a2).
Proof. intros H w1 w2 Hw. exists a1, a2, w1, w2. auto. Qed.

Lemma sim_bind {A B} (RA : A -> A -> Prop) (RB : B -> B -> Prop)
    (m1 m2 : M A) (k1 k2 : A -> M B) :
  sim RA m1 m2 ->
  (forall a1 a2, RA a1 a2 -> sim RB (k1 a1) (k2 a2)) ->
  sim RB (x <- m1 ;; k1 x) (x <- m2 ;; k2 x).
Proof.
  intros Hm Hk w1 w2 Hw.
  destruct (Hm w1 w2 Hw) as (a1 & a2 & w1' & w2' & E1 & E2 & Hw' & Ha).
  destruct (Hk a1 a2 Ha w1' w2' Hw')
    as (b1 & b2 & w1'' & w2'' & F1 & F2 & Hw'' & Hb).
  exists b1, b2, w1'', w2''. unfold bind. rewrite E1, E2. auto.
Qed.

Lemma sim_weaken {A} (RA RA' : A -> A -> Prop) (m1 m2 : M A) :
  sim RA m1 m2 -> (forall a1 a2, RA a1 a2 -> RA' a1 a2) -> sim RA' m1 m2.
Proof.
  intros Hm HR w1 w2 Hw.
  destruct (Hm w1 w2 Hw) as (a1 & a2 & w1' & w2' & E1 & E2 & Hw' & Ha).
  exists a1, a2, w1', w2'. auto.
Qed.

(** A computation that only draws returns the same value in both runs. *)
Lemma sim_rng_only {A} (P : A -> Prop) (m : M A) :
  rng_only m -> total P m -> sim (fun a1 a2 => a1 = a2 /\ P a1) m m.
Proof.
  intros Hr Ht w1 w2 Hw.
  destruct (Ht w2) as (a & w2' & E2 & Ha).
  destruct (Hr w2) as (_ & _ & Hsame). destruct (Hsame w1 Hw) as [Hf Hs].
  rewrite E2 in Hf, Hs. cbn [fst snd] in Hf, Hs.
  destruct (m w1) as [r1 w1'] eqn:E1. cbn [fst snd] in Hf, Hs. subst r1.
  exists a, a, w1', w2'. auto.
Qed.

(** The two runs may read different instants off the clock. *)
Lemma sim_now :
  sim (fun t1 t2 => EPOCH_1970 <= t1 < YEAR_9999 /\
                    EPOCH_1970 <= t2 < YEAR_9999) now now.
Proof.
  intros w1 w2 Hw. unfold now.
  pose proof (clock_now_range (w_clock w1)) as H1.
  pose proof (clock_now_range (w_clock w2)) as H2.
  destruct (clock_now (w_clock w1)) as [t1 c1].
  destruct (clock_now (w_clock w2)) as [t2 c2].
  eexists _, _, _, _. split; [reflexivity |]. split; [reflexivity |]. auto.
Qed.

Lemma sim_new_object : sim (fun _ _ => True) new_object new_object.
Proof.
  intros w1 w2 Hw. eexists _, _, _, _.
  split; [reflexivity |]. split; [reflexivity |]. auto.
Qed.

Lemma sim_pure {A} (P1 P2 : A -> Prop) (m1 m2 : M A) :
  pure m1 -> pure m2 -> total P1 m1 -> total P2 m2 ->
  sim (fun a1 a2 => P1 a1 /\ P2 a2) m1 m2.
Proof.
  intros Hp1 Hp2 Ht1 Ht2 w1 w2 Hw.
  destruct (Ht1 w1) as (a1 & w1' & E1 & Ha1).
  destruct (Ht2 w2) as (a2 & w2' & E2 & Ha2).
  pose proof (Hp1 w1) as F1. pose proof (Hp2 w2) as F2.
  rewrite E1 in F1. rewrite E2 in F2. cbn [snd] in F1, F2. subst.
  exists a1, a2, w1, w2. auto.
Qed.

Lemma pure_dt_add d delta : pure (dt_add d delta).
Proof. intros w. unfold dt_add. cbv zeta. destruct (_ && _); reflexivity. Qed.

Lemma pure_dt_sub d delta : pure (dt_sub d delta).
Proof. apply pure_dt_add. Qed.

Lemma sim_for_from {A} (RA : A -> A -> Prop) (body1 body2 : Z -> M A) :
  (forall i, sim RA (body1 i) (body2 i)) ->
  forall rounds i,
    sim (Forall2 RA) (for_from i rounds body1) (for_from i rounds body2).
Proof.
  intros Hbody. induction rounds as [|rounds IH]; intros i; simpl.
  - apply sim_ret. constructor.
  - eapply sim_bind; [apply Hbody |]. intros x1 x2 Hx.
    eapply sim_bind; [apply IH |]. intros xs1 xs2 Hxs.
    apply sim_ret. constructor; assumption.
Qed.

Lemma sim_for_carry {S A} (RA : A -> A -> Prop)
    (body1 body2 : Z -> S -> M (S * A)) (hi : Z) :
  (forall i s, 0 <= i < hi ->
     sim (fun sa1 sa2 => fst sa1 = fst sa2 /\ RA (snd sa1) (snd sa2))
         (body1 i s) (body2 i s)) ->
  forall rounds i acc,
    0 <= i -> i + Z.of_nat rounds <= hi ->
    sim (Forall2 RA) (for_carry i rounds acc body1)
        (for_carry i rounds acc body2).
Proof.
  intros Hbody. induction rounds as [|rounds IH]; intros i acc Hi Hhi; simpl.
  - apply sim_ret. constructor.
  - eapply sim_bind; [apply Hbody; lia |]. cbv beta.
    intros [s1 x1] [s2 x2] [Hs Hx]. cbn [fst snd] in *. subst s2.
    eapply sim_bind; [apply IH; lia |]. intros xs1 xs2 Hxs.
    apply sim_ret. constructor; assumption.
Qed.

Lemma Forall2_fmap_eq {A B} (f : A -> B) (l1 l2 : list A) :
  Forall2 (fun a1 a2 => f a1 = f a2) l1 l2 -> f <$> l1 = f <$> l2.
Proof.
  induction 1 as [|a1 a2 l1 l2 Ha _ IH]; [reflexivity |].
  cbn [fmap list_fmap]. f_equal; assumption.
Qed.

(** One step through two runs of the same sequence of calls. *)
Ltac sstep :=
  lazymatch goal with
  | |- sim _ (ret _) (ret _) => apply sim_ret
  | |- sim _ (bind now _) (bind now _) =>
      eapply sim_bind; [apply sim_now | cbv beta; intros ? ? [? ?]]
  | |- sim _ (bind new_object _) (bind new_object _) =>
      eapply sim_bind; [apply sim_new_object | cbv beta; intros ? ? _]
  | |- sim _ (bind (dt_add _ _) _) (bind (dt_add _ _) _) =>
      eapply sim_bind;
      [apply sim_pure; [apply pure_dt_add | apply pure_dt_add
                       | total_op | total_op]
      | cbv beta; intros ? ? [? ?]]
  | |- sim _ (bind (dt_sub _ _) _) (bind (dt_sub _ _) _) =>
      eapply sim_bind;
      [apply sim_pure; [apply pure_dt_sub | apply pure_dt_sub
                       | total_op | total_op]
      | cbv beta; intros ? ? [? ?]]
  | |- sim _ (bind ?m _) (bind ?m _) =>
      eapply sim_bind;
      [apply sim_rng_only; [rng_only_tac | total_op]
      | cbv beta; intros ? ? [<- ?]]
  end.

Lemma sim_generate_transactions n :
  sim (fun l1 l2 => undated_transaction <$> l1 = undated_transaction <$> l2)
      (generate_transactions n) (generate_transactions n).
Proof.
  unfold generate_transactions. do 3 sstep. subst.
  eapply sim_weaken; [| apply Forall2_fmap_eq].
  apply sim_for_from. intros i. repeat sstep. reflexivity.
Qed.

Lemma sim_generate_logs n :
  sim (fun l1 l2 => undated_log <$> l1 = undated_log <$> l2)
      (generate_logs n) (generate_logs n).
Proof.
  unfold generate_logs. do 3 sstep. subst.
  eapply sim_weaken; [| apply Forall2_fmap_eq].
  apply sim_for_from. intros i. do 4 sstep.
  eapply sim_bind;
    [apply sim_rng_only;
     [apply rng_only_choice | apply choice_total, log_messages_nonempty] |].
  cbv beta. intros message ? [<- _].
  repeat sstep. reflexivity.
Qed.

Lemma sim_generate_time_series days initial :
  0 <= days <= 719162 ->
  sim (fun l1 l2 => undated_point <$> l1 = undated_point <$> l2)
      (generate_time_series days initial) (generate_time_series days initial).
Proof.
  intros Hdays. unfold generate_time_series. do 3 sstep. subst.
  eapply sim_weaken; [| apply Forall2_fmap_eq].
  apply (sim_for_carry _ _ _ days); [| lia | lia].
  intros i value Hi. repeat sstep. split; reflexivity.
Qed.

Lemma sim_generate_user_data n :
  sim (fun l1 l2 => undated_user <$> l1 = undated_user <$> l2)
      (generate_user_data n) (generate_user_data n).
Proof.
  unfold generate_user_data.
  eapply sim_weaken; [| apply Forall2_fmap_eq].
  apply sim_for_from. intros i. do 5 sstep.
  eapply sim_bind.
  { eapply sim_weaken; [| apply (Forall2_fmap_eq undated_purchase)].
    apply sim_for_from. intros _. repeat sstep. reflexivity. }
  cbv beta. intros ps1 ps2 Hps. apply sim_ret.
  unfold undated_user. cbn [User.id User.username User.email User.age
    User.city User.active User.premium User.purchases]. rewrite Hps.
  reflexivity.
Qed.

Ltac sim_same rng_lemma total_lemma :=
  eapply sim_bind;
  [apply sim_rng_only; [apply rng_lemma | apply total_lemma]
  | cbv beta; intros ? ? [<- _]].

Ltac sim_clocked lemma :=
  eapply sim_bind; [apply lemma | cbv beta; intros ? ? ?].

Lemma sim_generate_all_datasets :
  sim agree_up_to_clock generate_all_datasets generate_all_datasets.
Proof.
  unfold generate_all_datasets.
  sim_same rng_only_generate_numbers (generate_numbers_int 100 (-100) 100
                                        ltac:(lia)).
  sim_same rng_only_generate_numbers (generate_numbers_float 100 (-100) 100
                                        ltac:(lia)).
  sim_same rng_only_generate_strings (generate_strings_total 50 3 15
                                        ltac:(lia)).
  sim_same rng_only_generate_words generate_words_total.
  sim_same rng_only_generate_sentences generate_sentences_total.
  sim_same rng_only_generate_students generate_students_total.
  sim_same rng_only_generate_products generate_products_total.
  sim_clocked sim_generate_transactions.
  sim_clocked sim_generate_logs.
  sim_same rng_only_generate_matrix (generate_matrix_total 5 5 0 10
                                       ltac:(lia)).
  sim_same rng_only_generate_grades_dict generate_grades_dict_total.
  sim_clocked (sim_generate_time_series 30 100 ltac:(lia)).
  sim_clocked sim_generate_user_data.
  sim_same rng_only_generate_mixed_types generate_mixed_types_total.
  sim_same rng_only_generate_emails_text generate_emails_text_total.
  sim_same rng_only_generate_pattern_numbers generate_pattern_numbers_total.
  apply sim_ret. split.
  - intros key Hkey. rewrite !lookup_insert.
    repeat (case_decide as Hk;
            [first [reflexivity
                   | exfalso; apply Hkey; rewrite <- Hk;
                     unfold clocked_keys; set_solver]
            | clear Hk]).
    reflexivity.
  - intros key. rewrite !lookup_insert.
    repeat (case_decide; [cbn [fmap option_fmap option_map undated];
                          congruence |]).
    reflexivity.
Qed.

(** C1, as the code has it.  With the seed 42 applied afresh before each
    of two sequential invocations, [generate_all_datasets] returns both
    times, and the two outputs are identical at every key except
    ['transactions'], ['logs'], ['time_series'] and ['users'], whose
    records carry instants read off the wall clock; at those four keys the
    outputs are identical in every field other than these instants (and
    the identity of the purchase objects). *)
Theorem all_datasets_reproducible_up_to_clock (w : World) :
  exists d1 d2 w1 w2,
    (_ <- seed 42 ;; generate_all_datasets) w = (Ok d1, w1) /\
    (_ <- seed 42 ;; generate_all_datasets) w1 = (Ok d2, w2) /\
    (forall key, key ∉ clocked_keys -> d1 !! key = d2 !! key) /\
    (forall key, undated <$> (d1 !! key) = undated <$> (d2 !! key)) /\
    w_rng w1 = w_rng w2.
Proof.
  assert (forall wa wb, exists d1 d2 w1 w2,
            (_ <- seed 42 ;; generate_all_datasets) wa = (Ok d1, w1) /\
            (_ <- seed 42 ;; generate_all_datasets) wb = (Ok d2, w2) /\
            agree_up_to_clock d1 d2 /\ w_rng w1 = w_rng w2) as Hruns.
  { intros wa wb. unfold bind, seed.
    destruct (sim_generate_all_datasets
                (mkWorld (rng_seed 42) (w_clock wa) (w_next wa))
                (mkWorld (rng_seed 42) (w_clock wb) (w_next wb)) eq_refl)
      as (d1 & d2 & w1 & w2 & E1 & E2 & Hw & Hd).
    exists d1, d2, w1, w2. auto. }
  destruct (Hruns w w) as (d1 & _ & w1 & _ & E1 & _).
  destruct (Hruns w w1) as (d1' & d2 & w1' & w2 & E1' & E2 & [Hfree Hall] & Hw).
  rewrite E1 in E1'. injection E1' as <- <-.
  exists d1, d2, w1, w2. auto 6.
Qed.

(** * Further properties of the generators *)

(** ** Loops and ranges *)

Lemma for_range_nil {A} (n : Z) (body : Z -> M A) :
  n <= 0 -> total (fun l => l = []) (for_range n body).
Proof.
  intros Hn. unfold for_range.
  replace (Z.to_nat n) with 0%nat by lia. apply total_ret. reflexivity.
Qed.

Lemma for_range_raises {A} e (n : Z) (body : Z -> M A) :
  0 < n -> raises e (body 0) -> raises e (for_range n body).
Proof.
  intros Hn Hbody. unfold for_range.
  destruct (Z.to_nat n) as [|rounds] eqn:E; [lia |].
  simpl. apply raises_bind_here, Hbody.
Qed.

Lemma for_range_indexed {A} (P : Z -> A -> Prop) (n : Z) (body : Z -> M A) :
  (forall i, total (P i) (body i)) ->
  total (fun l => length l = Z.to_nat n /\ indexed P 0 l) (for_range n body).
Proof. intros Hbody. apply for_from_indexed, Hbody. Qed.

(** [uniform] with its bounds in the wrong order. *)
Lemma uniform_reversed a b :
  (b <= a)%Q -> total (fun x => (b <= x <= a)%Q) (uniform a b).
Proof.
  intros Hba. unfold uniform. eapply total_bind; [apply random_total |].
  intros x [H0 H1]. apply total_ret.
  assert (0 <= (a - b) * x)%Q by (apply Qmult_le_0_compat; lra).
  assert (0 <= (a - b) * (1 - x))%Q by (apply Qmult_le_0_compat; lra).
  split; lra.
Qed.

(** ** [generate_numbers], [generate_strings], [generate_matrix]: ranges
    in the wrong order, counts that are not positive *)

(** X1.  What [generate_numbers] does for each kind.  With ["int"] and a
    positive count it raises [ValueError] when [max_val < min_val]; with a
    count that is not positive it returns the empty list whatever the
    range.  With ["float"] and bounds of at most [2^52] in magnitude it
    does not raise: it returns [n] values between the smaller and the
    larger bound, also when the bounds are given in the wrong order; so it
    is in exact arithmetic, and so it is in binary64. *)
Theorem generate_numbers_outcomes (n min_val max_val : Z) :
  (0 < n -> max_val < min_val ->
   raises ValueError (generate_numbers n min_val max_val "int")) /\
  (n <= 0 ->
   total (fun l => l = []) (generate_numbers n min_val max_val "int")) /\
  (- FLOAT_EXACT <= min_val <= FLOAT_EXACT ->
   - FLOAT_EXACT <= max_val <= FLOAT_EXACT ->
   total (fun l =>
            length l = Z.to_nat n /\
            Forall (in_range (Z.min min_val max_val) (Z.max min_val max_val))
                   l)
         (generate_numbers n min_val max_val "float") /\
   total (fun l =>
            length l = Z.to_nat n /\
            Forall (float_in_range (Z.min min_val max_val)
                                   (Z.max min_val max_val)) l)
         (generate_numbers_binary64 n min_val max_val)).
Proof.
  split; [| split].
  - intros Hn Hlh. apply generate_numbers_empty_range; assumption.
  - intros Hn. unfold generate_numbers. simpl String.eqb. cbv iota.
    apply for_range_nil, Hn.
  - intros Hmin Hmax. split.
    + unfold generate_numbers. simpl String.eqb. cbv iota.
      apply for_range_total. intros _. unfold in_range.
      destruct (Z.le_ge_cases min_val max_val) as [H | H].
      * rewrite Z.min_l, Z.max_r by lia.
        eapply total_bind; [apply uniform_total; rewrite <- Zle_Qle; lia |].
        cbv beta. intros x Hx. apply total_ret. exact Hx.
      * rewrite Z.min_r, Z.max_l by lia.
        eapply total_bind;
          [apply uniform_reversed; rewrite <- Zle_Qle; lia |].
        cbv beta. intros x Hx. apply total_ret. exact Hx.
    + unfold generate_numbers_binary64, FLOAT_EXACT in *.
      apply for_range_total. intros _.
      apply uniform_binary64_total; lia.
Qed.

Lemma length_string_of_list_ascii (cs : list ascii) :
  String.length (String.string_of_list_ascii cs) = length cs.
Proof. induction cs as [|c cs IH]; simpl; congruence. Qed.


(** X3.  What [generate_matrix] does.  It raises [ValueError] when rows
    and columns are asked for and [max_val < min_val].  Without columns it
    draws nothing and returns [rows] empty rows; without rows it returns
    the empty matrix.  No order of the range is needed in the last two
    cases. *)
Theorem generate_matrix_outcomes (rows cols min_val max_val : Z) :
  (0 < rows -> 0 < cols -> max_val < min_val ->
   raises ValueError (generate_matrix rows cols min_val max_val)) /\
  (cols <= 0 ->
   total (fun m => m = replicate (Z.to_nat rows) [])
         (generate_matrix rows cols min_val max_val)) /\
  (rows <= 0 ->
   total (fun m => m = []) (generate_matrix rows cols min_val max_val)).
Proof.
  split; [| split].
  - intros Hrows Hcols Hlh. unfold generate_matrix.
    apply for_range_raises; [exact Hrows |].
    apply for_range_raises; [exact Hcols |].
    apply randint_raises, Hlh.
  - intros Hcols. unfold generate_matrix.
    eapply total_weaken.
    { apply (for_range_total (fun row => row = [])). intros _.
      apply for_range_nil, Hcols. }
    intros m [Hlen Hall]. rewrite <- Hlen. clear Hlen.
    induction Hall as [|row m -> _ IH]; simpl; congruence.
  - intros Hrows. apply for_range_nil, Hrows.
Qed.


(** ** Strings *)

Lemma str_app_assoc (a b c : string) : (a +:+ b) +:+ c = a +:+ b +:+ c.
Proof.
  induction a as [|x a IH]; [reflexivity | exact (f_equal (String x) IH)].
Qed.

Lemma str_length_app (a b : string) :
  String.length (a +:+ b) = (String.length a + String.length b)%nat.
Proof.
  induction a as [|x a IH]; [reflexivity | exact (f_equal S IH)].
Qed.

Lemma str_init_app (a b : string) :
  b <> "" -> str_init (a +:+ b) = a +:+ str_init b.
Proof.
  intros Hb. induction a as [|x a IH]; [reflexivity |].
  change (str_init (String x (a +:+ b)) = String x (a +:+ str_init b)).
  rewrite <- IH. destruct (a +:+ b) as [|y s] eqn:E; [| reflexivity].
  destruct a; [| discriminate E]. contradiction.
Qed.

(** Dropping the last character undoes appending one. *)
Lemma str_init_snoc (a : string) (c : ascii) :
  str_init (a +:+ String c "") = a.
Proof.
  rewrite str_init_app by discriminate.
  change (str_init (String c "")) with "".
  induction a as [|x a IH]; [reflexivity | exact (f_equal (String x) IH)].
Qed.

(** ** Words and sentences *)

(** X4.  Every word of [generate_words] is a prefix, a root and a suffix
    of the three vocabularies; it has between 3 and 14 characters, so it is
    never empty although the prefix and the suffix may be. *)
Theorem generate_words_vocabulary (n : Z) :
  total (Forall (fun w => word_ok w /\ (3 <= String.length w <= 14)%nat))
        (generate_words n).
Proof.
  unfold generate_words.
  eapply total_weaken; [apply for_range_total | intros l [_ H]; exact H].
  intros _. do 3 mstep. apply total_ret. split.
  - exists a, a0, a1. auto.
  - rewrite !str_length_app.
    assert (String.length a <= 5)%nat
      by (repeat (apply elem_of_cons in H as [-> | H]; [simpl; lia |]);
          apply elem_of_nil in H; contradiction).
    assert (3 <= String.length a0 <= 5)%nat
      by (repeat (apply elem_of_cons in H0 as [-> | H0]; [simpl; lia |]);
          apply elem_of_nil in H0; contradiction).
    assert (String.length a1 <= 4)%nat
      by (repeat (apply elem_of_cons in H1 as [-> | H1]; [simpl; lia |]);
          apply elem_of_nil in H1; contradiction).
    lia.
Qed.

(** X5.  Every sentence of [generate_sentences] is a subject, a verb and an
    object separated by spaces, then one of the four clauses or none, then
    a single final period: the period cut off to add a clause is put
    back. *)
Theorem generate_sentences_shape (n : Z) :
  total (Forall sentence_ok) (generate_sentences n).
Proof.
  unfold generate_sentences.
  eapply total_weaken; [apply for_range_total | intros l [_ H]; exact H].
  intros _. do 4 mstep. mstep.
  - mstep. apply total_ret. exists a, a0, a1, a3.
    repeat split; try assumption; [right; assumption |].
    do 4 (rewrite str_init_app
            by (let H := fresh in
                intros H; apply (f_equal String.length) in H;
                rewrite ?str_length_app in H; simpl in H; lia)).
    rewrite (str_init_snoc a1 "."). rewrite !str_app_assoc. reflexivity.
  - apply total_ret. exists a, a0, a1, "".
    repeat split; try assumption. left.
Qed.

(** ** Students and products *)

Lemma py_round_range (x : Q) (d : nat) (lo hi : Z) :
  (Qmake lo (Z.to_pos (10 ^ Z.of_nat d)) <= x
   <= Qmake hi (Z.to_pos (10 ^ Z.of_nat d)))%Q ->
  (Qmake lo (Z.to_pos (10 ^ Z.of_nat d)) <= py_round x d
   <= Qmake hi (Z.to_pos (10 ^ Z.of_nat d)))%Q.
Proof.
  intros [Hlo Hhi]. apply py_round_bounds. cbv zeta.
  assert (0 < 10 ^ Z.of_nat d) as Hpos by (apply Z.pow_pos_nonneg; lia).
  assert (forall k : Z,
            (Qmake k (Z.to_pos (10 ^ Z.of_nat d)) * inject_Z (10 ^ Z.of_nat d)
             == inject_Z k)%Q) as Hunit.
  { intros k. unfold Qeq, Qmult, inject_Z. cbn [Qnum Qden].
    rewrite Pos.mul_1_r, Z2Pos.id by exact Hpos. ring. }
  assert (0 <= inject_Z (10 ^ Z.of_nat d))%Q as Hnn
    by (change 0%Q with (inject_Z 0); rewrite <- Zle_Qle; lia).
  rewrite <- (Hunit lo), <- (Hunit hi).
  split; apply Qmult_le_compat_r; assumption.
Qed.

(** X6.  Every student of [generate_students] has a first and a last name
    of the two lists, an age from 18 to 26, a grade from 55 to 100 with
    one decimal, a major of the list and 12 to 18 credits. *)
Theorem generate_students_fields (n : Z) :
  total (Forall student_ok) (generate_students n).
Proof.
  unfold generate_students.
  eapply total_weaken; [apply for_range_total | intros l [_ H]; exact H].
  intros i. repeat mstep. unfold student_ok.
  cbn [Student.name Student.age Student.grade Student.major Student.credits].
  split; [eauto |]. split; [assumption |].
  split; [apply py_round_has_decimals |].
  split; [| split; assumption].
  destruct (py_round_range a2 1 550 1000) as [Hlo Hhi].
  { split; [eapply Qle_trans; [| apply H2] | eapply Qle_trans; [apply H2 |]];
      discriminate. }
  split; [eapply Qle_trans; [| exact Hlo] | eapply Qle_trans; [exact Hhi |]];
    discriminate.
Qed.

(** X7.  The product that [generate_products] makes in round [i] has the id
    [i + 1000], so that ids are consecutive from 1000 and no two products
    share one; its price lies in [[29.99, 2999.99]] with two decimals, its
    quantity in [[0, 500]], its rating in [[1, 5]] with one decimal, and
    its name and category come from the lists. *)
Theorem generate_products_fields (n : Z) :
  total (fun l =>
           indexed product_ok 0 l /\
           NoDup (Product.id <$> l))
        (generate_products n).
Proof.
  unfold generate_products.
  eapply total_weaken.
  { apply (for_range_indexed product_ok). intros i. repeat mstep.
    unfold product_ok.
    cbn [Product.id Product.name Product.price Product.quantity
         Product.category Product.rating].
    split; [reflexivity |]. split; [eauto |].
    split; [apply py_round_has_decimals |].
    split; [apply (py_round_range _ 2 2999 299999); assumption |].
    split; [assumption |]. split; [assumption |].
    split; [apply py_round_has_decimals |].
    destruct (py_round_range a4 1 10 50) as [Hlo Hhi].
    { split; [eapply Qle_trans; [| apply H4] | eapply Qle_trans; [apply H4 |]];
        discriminate. }
    split; [eapply Qle_trans; [| exact Hlo] | eapply Qle_trans; [exact Hhi |]];
      discriminate. }
  intros l [_ Hl]. split; [exact Hl |].
  apply NoDup_alt. intros j k x Hj Hk.
  apply list_lookup_fmap_Some in Hj as (p & -> & Hp).
  apply list_lookup_fmap_Some in Hk as (q & Hq & Heq).
  destruct (Hl _ _ Hp) as [Hidp _]. destruct (Hl _ _ Heq) as [Hidq _].
  lia.
Qed.


(** ** Transactions and log entries *)

(** X8.  The transaction that [generate_transactions] makes in round [i]
    has the id [i + 5000]; its date is the instant read off the clock at
    the start of the call, less 90 days, plus a whole number of hours from
    0 to 90 * 24 + 23; its amount lies in [[5, 500]] with two decimals; its
    category and merchant come from the lists and its status is
    ["completed"], ["pending"] or ["failed"]. *)
Theorem generate_transactions_fields (n : Z) :
  hoare (generate_transactions n) (fun w l _ =>
    length l = Z.to_nat n /\
    indexed (transaction_ok (fst (clock_now (w_clock w)))) 0 l).
Proof.
  unfold generate_transactions.
  apply (bind_now_hoare _ (fun t l =>
           length l = Z.to_nat n /\ indexed (transaction_ok t) 0 l)).
  intros t Ht. do 2 mstep. subst.
  apply for_range_indexed. intros i. repeat mstep. subst.
  unfold transaction_ok.
  cbn [Transaction.id Transaction.date Transaction.amount Transaction.category
       Transaction.merchant Transaction.status].
  split; [reflexivity |].
  split; [exists (a * 24 + a0); unfold_time; lia |].
  split; [apply py_round_has_decimals |].
  split.
  { destruct (py_round_range a3 2 500 50000) as [Hlo Hhi].
    { split; [eapply Qle_trans; [| apply H3]
             | eapply Qle_trans; [apply H3 |]]; discriminate. }
    split; [eapply Qle_trans; [| exact Hlo]
           | eapply Qle_trans; [exact Hhi |]]; discriminate. }
  split; [assumption |]. split; [assumption |].
  repeat (apply elem_of_cons in H6 as [-> | H6]; [repeat constructor |]).
  apply elem_of_nil in H6. contradiction.
Qed.

Lemma log_message_of_level level :
  level ∈ ["INFO"; "INFO"; "INFO"; "WARNING"; "WARNING"; "ERROR"; "DEBUG";
           "CRITICAL"] ->
  level ∈ ["INFO"; "WARNING"; "ERROR"; "DEBUG"; "CRITICAL"] /\
  exists pool,
    log_messages !! level = Some pool /\
    default ["Generic message"] (log_messages !! level) = pool.
Proof.
  intros H.
  repeat (apply elem_of_cons in H as [-> | H];
          [split; [repeat constructor | eexists; split; reflexivity] |]).
  apply elem_of_nil in H. contradiction.
Qed.

(** X9.  Every entry of [generate_logs] has a timestamp that is the
    instant read off the clock at the start of the call, less 24 hours,
    plus a whole number of minutes from 0 to 1440, so that it lies within
    the 24 hours that end at that instant; its message comes from the pool
    of its own level, never from the fallback; its module comes from the
    list and its user id lies in [[1000, 9999]]. *)
Theorem generate_logs_fields (n : Z) :
  hoare (generate_logs n) (fun w l _ =>
    length l = Z.to_nat n /\
    Forall (fun e =>
              log_ok (fst (clock_now (w_clock w))) e /\
              log_window (fst (clock_now (w_clock w))) e) l).
Proof.
  unfold generate_logs.
  apply (bind_now_hoare _ (fun t l =>
           length l = Z.to_nat n /\
           Forall (fun e => log_ok t e /\ log_window t e) l)).
  intros t Ht. do 2 mstep. subst.
  apply for_range_total. intros i. do 4 mstep.
  destruct (log_message_of_level _ H2) as (Hlevel & pool & Hpool & Hdefault).
  eapply total_bind; [apply choice_total, log_messages_nonempty |].
  cbv beta. intros message Hmessage. rewrite Hdefault in Hmessage.
  repeat mstep. subst. unfold log_ok, log_window.
  cbn [LogEntry.timestamp LogEntry.level LogEntry.message LogEntry.module
       LogEntry.user_id].
  split; [| unfold_time; lia].
  split; [exists a; unfold_time; lia |].
  split; [exact Hlevel |]. split; [eauto |]. split; assumption.
Qed.

(** ** Readings of the clock *)

Lemma rng_only_for_carry {S A} (body : Z -> S -> M (S * A)) :
  (forall i s, rng_only (body i s)) ->
  forall rounds i acc, rng_only (for_carry i rounds acc body).
Proof.
  intros Hbody. induction rounds as [|rounds IH]; intros i acc; simpl.
  - apply rng_only_ret.
  - apply rng_only_bind; [apply Hbody |]. intros sa.
    apply rng_only_bind; [apply IH |]. intros xs. apply rng_only_ret.
Qed.

Lemma reads_clock_once_bind_now {A} (k : datetime -> M A) :
  (forall t, rng_only (k t)) -> reads_clock_once (t <- now ;; k t).
Proof.
  intros Hk w. unfold bind, now.
  destruct (clock_now (w_clock w)) as [t c]. cbn [snd].
  destruct (Hk t (mkWorld (w_rng w) c (w_next w))) as (Hc & _).
  destruct (k t (mkWorld (w_rng w) c (w_next w))) as [[a | e] w'];
    cbn [snd w_clock] in *; exact Hc.
Qed.

(** X10.  [generate_transactions], [generate_logs] and
    [generate_time_series] read the wall clock exactly once, before the
    first record, whatever the arguments and whether or not they raise:
    they leave the clock as one reading leaves it. *)
Theorem clocked_generators_read_clock_once :
  (forall n, reads_clock_once (generate_transactions n)) /\
  (forall n, reads_clock_once (generate_logs n)) /\
  (forall days initial, reads_clock_once (generate_time_series days initial)).
Proof.
  split; [| split]; intros.
  - unfold generate_transactions. apply reads_clock_once_bind_now.
    intros t. rng_only_tac.
  - unfold generate_logs. apply reads_clock_once_bind_now.
    intros t. rng_only_tac.
  - unfold generate_time_series. apply reads_clock_once_bind_now.
    intros t.
    apply rng_only_bind; [rng_only_tac | intros d].
    apply rng_only_bind; [rng_only_tac | intros start_date].
    apply rng_only_for_carry. intros i value. rng_only_tac.
Qed.


(** ** Time series *)

Lemma for_carry_walks {S A} (step : S -> A -> S -> Prop)
    (body : Z -> S -> M (S * A)) (hi : Z) :
  (forall i s, 0 <= i < hi ->
     total (fun sa => step s (snd sa) (fst sa)) (body i s)) ->
  forall rounds i acc,
    0 <= i -> i + Z.of_nat rounds <= hi ->
    total (walks step acc) (for_carry i rounds acc body).
Proof.
  intros Hbody. induction rounds as [|rounds IH]; intros i acc Hi Hhi; simpl.
  - apply total_ret. exact I.
  - eapply total_bind; [apply Hbody; lia |]. cbv beta. intros [s a] Hstep.
    eapply total_bind; [apply IH; lia |]. cbv beta. intros xs Hxs.
    apply total_ret. exists s. auto.
Qed.

Lemma py_max0_ge (x : Q) : (x <= py_max0 x)%Q.
Proof.
  unfold py_max0. destruct (Qle_bool x 0) eqn:E; [| lra].
  apply Qle_bool_iff in E. exact E.
Qed.

Lemma py_max0_le (x y : Q) : (x <= y)%Q -> (0 <= y)%Q -> (py_max0 x <= y)%Q.
Proof. intros Hx Hy. unfold py_max0. destruct (Qle_bool x 0); assumption. Qed.

(** A value rounded to two decimals is within half a hundredth. *)
Lemma py_round_2_close (x : Q) :
  (x - (1 # 200) <= py_round x 2 <= x + (1 # 200))%Q.
Proof.
  pose proof (py_round_close x 2) as H. cbv zeta in H.
  change (inject_Z (10 ^ Z.of_nat 2)) with 100%Q in H. lra.
Qed.

(** Along the walk, once the value carried is not negative, two
    consecutive points differ by the step of the walk and two roundings at
    most. *)
Lemma walks_consecutive (s : Q) (l : list TimePoint.t) :
  walks walk_step s l ->
  forall k a b,
    l !! k = Some a -> l !! S k = Some b ->
    (-(1001 # 100) <= TimePoint.value b - TimePoint.value a <= 1201 # 100)%Q.
Proof.
  revert s. induction l as [|x l IH]; intros s Hwalk k a b Ha Hb;
    [discriminate |].
  destruct Hwalk as (s1 & (c1 & Hc1 & -> & Hx) & Hrest).
  destruct k as [|k]; [| exact (IH _ Hrest k a b Ha Hb)].
  cbn in Ha, Hb. injection Ha as <-.
  destruct l as [|y l]; [discriminate |]. cbn in Hb. injection Hb as <-.
  destruct Hrest as (s2 & (c2 & Hc2 & -> & Hy) & _).
  rewrite Hx, Hy.
  set (v := py_max0 (s + c1)) in *.
  pose proof (py_max0_nonneg (s + c1)) as Hv. fold v in Hv.
  pose proof (py_max0_ge (v + c2)) as Hge.
  pose proof (py_max0_le (v + c2) (v + 12) ltac:(lra) ltac:(lra)) as Hle.
  pose proof (py_round_2_close v). pose proof (py_round_2_close (py_max0 (v + c2))).
  lra.
Qed.

(** One round of the walk in binary64. *)
Lemma float_walk_round (start_date : datetime) (days initial : Z) i s :
  0 <= days <= 719162 ->
  - 1000000000 <= initial <= 1000000000 ->
  0 <= start_date -> start_date + days * US_PER_DAY <= DATETIME_MAX ->
  0 <= i < days -> walk_inv initial i s ->
  total (fun sa => walk_inv initial (i + 1) (fst sa) /\
                   float_walk_step start_date initial i s (snd sa) (fst sa))
    (di <- timedelta i 0 0 ;;
     date <- dt_add start_date di ;;
     change <- uniform_binary64 (-10) 12 ;;
     v <- match s with
          | inl n => x <- float_of_int n ;; ret (Finite x)
          | inr f => ret f
          end ;;
     let value := b64_max0 (b64_add v change) in
     volume <- randint 1000 10000 ;;
     ret (inr value, FloatPoint.mk date (b64_py_round value 2) volume)).
Proof.
  intros Hdays Hinitial Hstart Hend Hi Hinv.
  eapply total_bind; [apply timedelta_total; unfold_time; lia |].
  cbv beta. intros di ->.
  eapply total_bind; [apply dt_add_total; unfold_time; lia |].
  cbv beta. intros date ->.
  eapply total_bind; [apply (uniform_binary64_total (-10) 12); lia |].
  cbv beta. intros change (c & -> & Hc).
  change (inject_Z (Z.min (-10) 12)) with (-(10))%Q in Hc.
  change (inject_Z (Z.max (-10) 12)) with 12%Q in Hc.
  (* the value carried, as a float *)
  assert (exists v,
            total (fun f => f = Finite v)
              match s with
              | inl n => x <- float_of_int n ;; ret (Finite x)
              | inr f => ret f
              end /\
            (- inject_Z (1000000000 + 12 * i) <= v
             <= inject_Z (1000000000 + 12 * i))%Q /\
            (forall v0, s = inr (Finite v0) -> v0 = v /\ (0 <= v)%Q))
    as (v & Hv & Hvb & Hvs).
  { destruct Hinv as [[-> ->] | (v & -> & Hv)].
    - exists (b64_round (inject_Z initial)). split; [| split].
      + eapply total_bind; [apply float_of_int_total; lia |]. cbv beta.
        intros x ->. apply total_ret. reflexivity.
      + rewrite (b64_round_int initial) by lia.
        rewrite <- inject_Z_opp, <- !Zle_Qle. lia.
      + intros v0 Heq. discriminate Heq.
    - exists v. split; [apply total_ret; reflexivity | split].
      + assert (0 <= inject_Z (1000000000 + 12 * i))%Q by lra. lra.
      + intros v0 Heq. injection Heq as <-. split; [reflexivity | lra]. }
  eapply total_bind; [exact Hv |]. cbv beta. intros f ->.
  cbv zeta. cbn [b64_add].
  set (B := 1000000000 + 12 * i) in *.
  destruct (b64_small (v + c) (- B - 10) (B + 12)) as (Hfin & Hrange & Hclose);
    [unfold B; lia | unfold B; lia | |].
  { rewrite inject_Z_plus, inject_Z_minus, inject_Z_opp.
    change (inject_Z 10) with 10%Q. change (inject_Z 12) with 12%Q. lra. }
  rewrite Hfin. cbn [b64_max0].
  set (x := b64_round (v + c)) in *.
  rewrite inject_Z_plus, inject_Z_minus, inject_Z_opp in Hrange.
  change (inject_Z 10) with 10%Q in Hrange.
  change (inject_Z 12) with 12%Q in Hrange.
  (* the value kept: not below 0 *)
  assert (exists v',
            (if Qlt_le_dec 0 x then Finite x else Finite 0) = Finite v' /\
            (0 <= v' <= inject_Z B + 12)%Q /\
            (x <= v')%Q /\ ((0 < x)%Q -> v' = x) /\ ((x <= 0)%Q -> v' = 0%Q))
    as (v' & -> & Hv' & Hxv & Hpos & Hneg).
  { assert (0 <= inject_Z B)%Q as HB0
      by (change 0%Q with (inject_Z 0); rewrite <- Zle_Qle; unfold B; lia).
    destruct (Qlt_le_dec 0 x) as [Hx | Hx].
    - exists x. split; [reflexivity |]. split; [lra |]. split; [lra |].
      split; [intros _; reflexivity | intros Hx'; lra].
    - exists 0%Q. split; [reflexivity |]. split; [lra |]. split; [lra |].
      split; [intros Hx'; lra | intros _; reflexivity]. }
  eapply total_bind; [apply randint_total; lia |]. cbv beta.
  intros volume Hvolume. apply total_ret. cbn [fst snd b64_py_round].
  pose proof (py_round_2_close v') as Hd.
  destruct (b64_small (py_round v' 2) 0 (B + 13)) as (Hfin' & Hrange' & Hclose');
    [lia | unfold B; lia | |].
  { rewrite inject_Z_plus. change (inject_Z 0) with 0%Q.
    change (inject_Z 13) with 13%Q.
    pose proof (py_round_nonneg v' 2 ltac:(lra)). lra. }
  rewrite Hfin'.
  assert (inject_Z (1000000000 + 12 * (i + 1)) == inject_Z B + 12)%Q as HB
    by (unfold B; rewrite <- (inject_Z_plus _ 12); apply inject_Z_injective;
        lia).
  split.
  - right. exists v'. split; [reflexivity |]. rewrite HB. exact Hv'.
  - exists v', (b64_round (py_round v' 2)),
      (round_half_even (v' * inject_Z (10 ^ Z.of_nat 2))).
    cbn [FloatPoint.date FloatPoint.value FloatPoint.volume].
    split; [reflexivity |]. split; [rewrite HB; exact Hv' |].
    split; [| split; [lia |]].
    { intros v0 Hs. destruct (Hvs v0 Hs) as [-> Hv0].
      destruct (Qlt_le_dec 0 x) as [Hx | Hx].
      - rewrite (Hpos Hx). lra.
      - rewrite (Hneg Hx). lra. }
    split; [reflexivity |]. split; [reflexivity |].
    change (inject_Z 0) with 0%Q in Hrange'.
    split; [lra |]. split; [lra | exact Hvolume].
Qed.

Lemma chain_indexed {S A} (step : Z -> S -> A -> S -> Prop)
    (P : Z -> A -> Prop) :
  (forall i s a s', step i s a s' -> P i a) ->
  forall l i s, chain step i s l -> indexed P i l.
Proof.
  intros Hstep. induction l as [|a l IH]; intros i s Hchain.
  - intros k x Hk. discriminate Hk.
  - destruct Hchain as (s' & Ha & Hrest).
    apply indexed_cons; [exact (Hstep _ _ _ _ Ha) | exact (IH _ _ Hrest)].
Qed.

(** Two consecutive points of the walk in binary64. *)
Lemma float_walk_consecutive start initial (l : list FloatPoint.t) :
  forall i s,
    chain (float_walk_step start initial) i s l ->
    forall k a b,
      l !! k = Some a -> l !! S k = Some b ->
      exists qa qb,
        FloatPoint.value a = Finite qa /\ FloatPoint.value b = Finite qb /\
        (-(1002 # 100) < qb - qa < 1202 # 100)%Q.
Proof.
  induction l as [|x l IH]; intros i s Hchain k a b Ha Hb; [discriminate |].
  destruct Hchain as (s1 & Hx & Hrest).
  destruct k as [|k]; [| exact (IH _ _ Hrest k a b Ha Hb)].
  cbn in Ha, Hb. injection Ha as <-.
  destruct l as [|y l]; [discriminate |]. cbn in Hb. injection Hb as <-.
  destruct Hrest as (s2 & Hy & _).
  destruct Hx as (v1 & d1 & k1 & -> & Hv1 & _ & _ & Hd1 & _ & _ & Hc1 & _).
  destruct Hy as (v2 & d2 & k2 & _ & _ & Hstep & _ & Hd2 & _ & _ & Hc2 & _).
  specialize (Hstep v1 eq_refl).
  exists d1, d2. split; [exact Hd1 |]. split; [exact Hd2 |].
  unfold B64_EPS in *. lra.
Qed.

(** X11.  For a number of days from 0 to 719162 and an initial value of
    at most a thousand million in magnitude, also a negative one,
    [generate_time_series] returns [days] points: the point of round [i]
    is dated [days - i] days before the instant read off the clock, so that
    the last one is dated the day before; its value is not negative and
    rounded to two decimals, its volume lies in [[1000, 10000]]; and from
    one point to the next the value goes down by less than 10.02 and up by
    less than 12.02.  In exact arithmetic the two bounds are 10.01 and
    12.01 ([walks_consecutive]): a step of the walk lies in [[-10, 12]] and
    each of the two values shown is within 0.005 of the value carried; the
    hundredth added leaves room for the rounding of the sums in binary64,
    which is [2^-23] at most at values of this size.  This is stated of
    the generator in exact arithmetic, for every such initial value, and
    of the generator as binary64 computes it, for an int: there the value
    shown is a finite float, the one nearest to a number of two
    decimals. *)
Theorem generate_time_series_walk (days : Z) :
  0 <= days <= 719162 ->
  (forall initial : Q,
     (-(1000000000) <= initial <= 1000000000)%Q ->
     hoare (generate_time_series days initial) (fun w l _ =>
       length l = Z.to_nat days /\
       indexed (time_point_fields
                  (fst (clock_now (w_clock w)) - days * US_PER_DAY)) 0 l /\
       forall k a b,
         l !! k = Some a -> l !! S k = Some b ->
         (-(1002 # 100) < TimePoint.value b - TimePoint.value a
          < 1202 # 100)%Q)) /\
  (forall initial : Z,
     - 1000000000 <= initial <= 1000000000 ->
     hoare (generate_time_series_binary64 days initial) (fun w l _ =>
       length l = Z.to_nat days /\
       indexed (float_point_fields
                  (fst (clock_now (w_clock w)) - days * US_PER_DAY)) 0 l /\
       forall k a b,
         l !! k = Some a -> l !! S k = Some b ->
         exists qa qb,
           FloatPoint.value a = Finite qa /\
           FloatPoint.value b = Finite qb /\
           (-(1002 # 100) < qb - qa < 1202 # 100)%Q)).
Proof.
  intros Hdays. split.
  - intros initial _.
      unfold generate_time_series.
    apply (bind_now_hoare _ (fun t l =>
             length l = Z.to_nat days /\
             indexed (time_point_fields (t - days * US_PER_DAY)) 0 l /\
             forall k a b,
               l !! k = Some a -> l !! S k = Some b ->
               (-(1002 # 100) < TimePoint.value b - TimePoint.value a
                < 1202 # 100)%Q)).
    intros t Ht. do 2 mstep. subst.
    eapply total_weaken.
    { apply total_conj.
      - apply (for_carry_indexed (fun _ => True)
                 (time_point_fields (t - days * US_PER_DAY)) _ days);
          [| lia | lia | exact I].
        intros i value Hi _. repeat mstep. subst.
        split; [exact I |]. unfold time_point_fields.
        cbn [snd TimePoint.date TimePoint.value TimePoint.volume].
        split; [unfold_time; lia |].
        split; [apply py_round_nonneg, py_max0_nonneg |].
        split; [apply py_round_has_decimals | assumption].
      - apply (for_carry_walks walk_step _ days); [| lia | lia].
        intros i value Hi. repeat mstep. subst.
        cbn [fst snd]. exists a1. split; [assumption |].
        split; reflexivity. }
    cbv beta. intros l [[Hlen Hl] Hwalk].
    split; [exact Hlen |]. split; [exact Hl |].
    intros k a b Ha Hb.
    pose proof (walks_consecutive _ _ Hwalk k a b Ha Hb). lra.
  - intros initial Hinitial. unfold generate_time_series_binary64.
    apply (bind_now_hoare _ (fun t l =>
             length l = Z.to_nat days /\
             indexed (float_point_fields (t - days * US_PER_DAY)) 0 l /\
             forall k a b,
               l !! k = Some a -> l !! S k = Some b ->
               exists qa qb,
                 FloatPoint.value a = Finite qa /\
                 FloatPoint.value b = Finite qb /\
                 (-(1002 # 100) < qb - qa < 1202 # 100)%Q)).
    intros t Ht.
    eapply total_bind; [apply timedelta_total; unfold_time; lia |].
    cbv beta. intros d ->.
    eapply total_bind; [apply dt_sub_total; unfold_time; lia |].
    cbv beta. intros start_date ->.
    replace (days * US_PER_DAY + 0 * US_PER_HOUR + 0 * US_PER_MINUTE)
      with (days * US_PER_DAY) by lia.
    eapply total_weaken.
    { apply (for_carry_chain (walk_inv initial)
               (float_walk_step (t - days * US_PER_DAY) initial) _ days);
        [| lia | lia | left; split; reflexivity].
      intros i s Hi Hinv.
      apply (float_walk_round _ days); try assumption; unfold_time; lia. }
    cbv beta. intros l [Hlen Hchain].
    split; [exact Hlen |]. split.
    + eapply chain_indexed; [| exact Hchain].
      intros i s a s'
        (v' & d & k & _ & _ & _ & Hdate & Hd & Hk & Hd0 & _ & Hvol).
      split; [exact Hdate |]. split; [| exact Hvol]. exists d, k. auto.
    + exact (float_walk_consecutive _ _ _ _ _ Hchain).
Qed.

(** X12.  The edges of [generate_time_series].  A series that would start
    before the first day of the calendar raises [OverflowError], out of
    the subtraction that computes the start date and after the clock has
    been read; a series of no days, or of up to 365 days counted
    backwards, is empty. *)
Theorem generate_time_series_edges (days : Z) (initial : Q) :
  (3651694 <= days <= TIMEDELTA_MAX_DAYS ->
   raises OverflowError (generate_time_series days initial)) /\
  (-365 <= days <= 0 ->
   total (fun l => l = []) (generate_time_series days initial)).
Proof.
  split.
  - apply generate_time_series_overflow.
  - intros Hdays. unfold generate_time_series. do 3 mstep.
    replace (Z.to_nat days) with 0%nat by lia. apply total_ret. reflexivity.
Qed.


(** ** Labels: numbers written in decimal *)

(** The digits of a positive number do not start with a zero. *)
Lemma pretty_N_go_head (x : N) (s : string) :
  (0 < x)%N ->
  exists c rest, pretty_N_go x s = String c rest /\ c <> "0"%char.
Proof.
  revert s. induction (N.lt_wf_0 x) as [x _ IH]. intros s Hx.
  rewrite pretty_N_go_step by exact Hx.
  destruct (N.lt_ge_cases x 10) as [Hsmall | Hbig].
  - rewrite N.div_small, pretty_N_go_0, N.mod_small by exact Hsmall.
    eexists _, _. split; [reflexivity |].
    assert (x = 1 \/ x = 2 \/ x = 3 \/ x = 4 \/ x = 5 \/ x = 6 \/ x = 7 \/
            x = 8 \/ x = 9)%N as Hcases by lia.
    repeat (destruct Hcases as [-> | Hcases]; [discriminate |]).
    subst. discriminate.
  - apply IH.
    + apply N.div_lt; lia.
    + apply N.div_str_pos. lia.
Qed.

Lemma pretty_canonical (i : Z) : 0 <= i -> canonical_digits (pretty i).
Proof.
  intros Hi. destruct i as [| p | p]; [left; reflexivity | | lia].
  right. change (pretty (Z.pos p)) with (pretty (N.pos p)).
  unfold pretty, pretty_N. destruct (decide (N.pos p = 0%N)); [discriminate |].
  apply pretty_N_go_head. reflexivity.
Qed.

Lemma zeros_app_inj (k k' : nat) (a b : string) :
  canonical_digits a -> canonical_digits b ->
  String.string_of_list_ascii (replicate k ("0"%char : ascii)) +:+ a
  = String.string_of_list_ascii (replicate k' ("0"%char : ascii)) +:+ b ->
  a = b.
Proof.
  intros Ha Hb. revert k'. induction k as [|k IH]; intros [|k'] H.
  - exact H.
  - change (a = String "0" (String.string_of_list_ascii
                              (replicate k' ("0"%char : ascii)) +:+ b)) in H.
    destruct Ha as [-> | (c & rest & -> & Hc)].
    + injection H as H'. apply (f_equal String.length) in H'.
      rewrite str_length_app in H'.
      destruct Hb as [-> | (c & rest & -> & _)]; simpl in H'; lia.
    + injection H as H' _. congruence.
  - change (String "0" (String.string_of_list_ascii
                          (replicate k ("0"%char : ascii)) +:+ a) = b) in H.
    destruct Hb as [-> | (c & rest & -> & Hc)].
    + injection H as H'. apply (f_equal String.length) in H'.
      rewrite str_length_app in H'.
      destruct Ha as [-> | (c & rest & -> & _)]; simpl in H'; lia.
    + injection H as H' _. congruence.
  - apply (IH k'). injection H as H'. exact H'.
Qed.

(** Zero-padded numbers that are not negative are told apart. *)
Lemma fmt_d_inj (width : nat) (i j : Z) :
  0 <= i -> 0 <= j -> fmt_d width i = fmt_d width j -> i = j.
Proof.
  intros Hi Hj. unfold fmt_d.
  destruct (Z.ltb_spec i 0); [lia |]. destruct (Z.ltb_spec j 0); [lia |].
  unfold zero_pad. intros Heq.
  apply zeros_app_inj in Heq; [| apply pretty_canonical; assumption ..].
  apply (inj pretty). exact Heq.
Qed.

(** ** The dictionary of grades *)

Lemma dict_comp_dom {V} (body : string -> M V) keys :
  (forall key, returns (body key)) ->
  forall acc,
    total (fun d => dom d = list_to_set keys ∪ dom acc)
          (dict_comp keys body acc).
Proof.
  intros Hbody. induction keys as [|key keys IH]; intros acc; simpl.
  - apply total_ret. rewrite (left_id_L ∅ (∪)). reflexivity.
  - eapply total_bind; [apply Hbody |]. intros v _.
    eapply total_weaken; [apply IH |]. cbv beta. intros d ->.
    rewrite dom_insert_L, !(assoc_L (∪)).
    f_equal. apply (comm_L (∪)).
Qed.

Lemma student_labels_NoDup n : NoDup (student_labels n).
Proof.
  unfold student_labels. apply NoDup_fmap_2_strong; [| apply NoDup_seqZ].
  intros i j Hi Hj H. apply elem_of_seqZ in Hi, Hj.
  apply (inj (String.append "Student_")) in H.
  apply fmt_d_inj in H; lia.
Qed.

Lemma assignment_labels_NoDup n : NoDup (assignment_labels n).
Proof.
  unfold assignment_labels. apply NoDup_fmap_2_strong; [| apply NoDup_seqZ].
  intros i j Hi Hj H.
  apply (inj (String.append "HW_")) in H. apply (inj pretty). exact H.
Qed.

Lemma size_of_labels {V} (d : gmap string V) (labels : list string) :
  NoDup labels -> dom d = list_to_set labels -> size d = length labels.
Proof.
  intros Hnd Hdom.
  rewrite <- size_dom, Hdom. apply size_list_to_set, Hnd.
Qed.

(** X13.  [generate_grades_dict] returns a dictionary whose keys are
    exactly the labels [Student_01], [Student_02], ... of the students
    asked for, each label once, so that it has [n_students] entries; under
    every student there is a dictionary whose keys are exactly the labels
    [HW_1], [HW_2], ... with [n_assignments] entries, every grade in
    [[60, 100]]: looking up a student and then an assignment in range
    always finds a grade. *)
Theorem generate_grades_dict_shape (n_students n_assignments : Z) :
  total (fun grades =>
           dom grades = list_to_set (student_labels n_students) /\
           size grades = Z.to_nat n_students /\
           map_Forall (fun _ row =>
                         dom row = list_to_set (assignment_labels n_assignments)
                         /\ size row = Z.to_nat n_assignments
                         /\ map_Forall (fun _ g => 60 <= g <= 100) row)
                      grades /\
           forall i j,
             1 <= i <= n_students -> 1 <= j <= n_assignments ->
             exists row g,
               grades !! ("Student_" +:+ fmt_d 2 i) = Some row /\
               row !! ("HW_" +:+ str_of_int j) = Some g /\
               60 <= g <= 100)
        (generate_grades_dict n_students n_assignments).
Proof.
  assert (forall student : string,
            total (fun row : gmap string Z =>
                     dom row = list_to_set (assignment_labels n_assignments)
                     /\ size row = Z.to_nat n_assignments
                     /\ map_Forall (fun _ g => 60 <= g <= 100) row)
                  (dict_comp (assignment_labels n_assignments)
                     (fun _ => randint 60 100) ∅)) as Hrow.
  { intros _. eapply total_weaken.
    - apply total_conj.
      + apply (dict_comp_dom (fun _ => randint 60 100)).
        intros key. eapply total_returns, randint_total. lia.
      + apply (dict_comp_total (fun g => 60 <= g <= 100)
                 (fun _ => randint 60 100));
          [intros key; apply randint_total; lia | apply map_Forall_empty].
    - cbv beta. intros row [Hdom Hall].
      rewrite dom_empty_L, (right_id_L ∅ (∪)) in Hdom.
      split; [exact Hdom |]. split; [| exact Hall].
      rewrite (size_of_labels row _ (assignment_labels_NoDup _) Hdom).
      unfold assignment_labels. rewrite length_fmap, length_seqZ. reflexivity. }
  unfold generate_grades_dict. fold (student_labels n_students).
  fold (assignment_labels n_assignments).
  eapply total_weaken.
  - apply total_conj.
    + apply dict_comp_dom. intros key. exact (total_returns _ _ (Hrow key)).
    + apply dict_comp_total; [exact Hrow | apply map_Forall_empty].
  - cbv beta. intros grades [Hdom Hall].
    rewrite dom_empty_L, (right_id_L ∅ (∪)) in Hdom.
    split; [exact Hdom |]. split; [| split; [exact Hall |]].
    + rewrite (size_of_labels grades _ (student_labels_NoDup _) Hdom).
      unfold student_labels. rewrite length_fmap, length_seqZ. reflexivity.
    + intros i j Hi Hj.
      assert ("Student_" +:+ fmt_d 2 i ∈ dom grades) as Hin.
      { rewrite Hdom. apply elem_of_list_to_set. unfold student_labels.
        apply (list_elem_of_fmap_2 (fun i => "Student_" +:+ fmt_d 2 i)).
        apply elem_of_seqZ. lia. }
      apply elem_of_dom in Hin as [row Hrow'].
      destruct (Hall _ _ Hrow') as (Hdom' & _ & Hgrades).
      assert ("HW_" +:+ str_of_int j ∈ dom row) as Hin'.
      { rewrite Hdom'. apply elem_of_list_to_set. unfold assignment_labels.
        apply (list_elem_of_fmap_2 (fun i => "HW_" +:+ str_of_int i)).
        apply elem_of_seqZ. lia. }
      apply elem_of_dom in Hin' as [g Hg].
      exists row, g. split; [exact Hrow' |]. split; [exact Hg |].
      exact (Hgrades _ _ Hg).
Qed.


(** ** User profiles *)

Lemma str_app_inj_r (a b c : string) : a +:+ c = b +:+ c -> a = b.
Proof.
  revert b. induction a as [|x a IH]; intros [|y b] H.
  - reflexivity.
  - apply (f_equal String.length) in H.
    change (String.length c = S (String.length (b +:+ c))) in H.
    rewrite str_length_app in H. lia.
  - apply (f_equal String.length) in H.
    change (S (String.length (a +:+ c)) = String.length c) in H.
    rewrite str_length_app in H. lia.
  - change (String x (a +:+ c) = String y (b +:+ c)) in H.
    injection H as -> H'. f_equal. apply IH, H'.
Qed.

(** X14.  The user that [generate_user_data] makes in round [i] has the id
    [i + 1], the name [user_] followed by [i] written with at least four
    digits, and that name at [example.com] as email; the age lies in
    [[18, 65]], the city is one of the six, and there are at most ten
    purchases, each of an item [item_1] to [item_50] at a price in
    [[10, 200]] with two decimals.  No two users share an id, a name or an
    email. *)
Theorem generate_user_data_fields (n : Z) :
  total (fun l =>
           indexed user_fields 0 l /\
           NoDup (User.id <$> l) /\
           NoDup (User.username <$> l) /\
           NoDup (User.email <$> l))
        (generate_user_data n).
Proof.
  unfold generate_user_data. cbv zeta.
  eapply total_weaken.
  { apply (for_range_indexed user_fields). intros i.
    do 5 mstep.
    eapply total_bind.
    { apply (for_range_total
               (fun p =>
                  (exists k, 1 <= k <= 50 /\
                             Purchase.item p = "item_" +:+ str_of_int k) /\
                  has_decimals 2 (Purchase.price p) /\
                  (10 <= Purchase.price p <= 200)%Q)).
      intros _. do 6 mstep.
      eapply total_bind; [apply new_object_total |]. intros r _.
      apply total_ret. cbn [Purchase.item Purchase.price].
      split; [eauto |]. split; [apply py_round_has_decimals |].
      apply purchase_price_range. assumption. }
    cbv beta. intros purchases [Hlen Hall]. apply total_ret.
    unfold user_fields.
    cbn [User.id User.username User.email User.age User.city User.purchases].
    split; [reflexivity |]. split; [reflexivity |].
    split; [symmetry; apply str_app_assoc |].
    split; [assumption |]. split; [assumption |].
    split; [lia | exact Hall]. }
  intros l [_ Hl].
  assert (forall (f : User.t -> string),
            (forall i j u v, 0 <= i -> 0 <= j ->
               user_fields i u -> user_fields j v -> f u = f v -> i = j) ->
            NoDup (f <$> l)) as Hnd.
  { intros f Hf. apply NoDup_alt. intros j k x Hj Hk.
    apply list_lookup_fmap_Some in Hj as (u & -> & Hu).
    apply list_lookup_fmap_Some in Hk as (v & Heq & Hv).
    pose proof (Hf (0 + Z.of_nat j) (0 + Z.of_nat k) u v ltac:(lia)
                  ltac:(lia) (Hl _ _ Hu) (Hl _ _ Hv) Heq).
    lia. }
  split; [exact Hl |]. split; [| split].
  - apply NoDup_alt. intros j k x Hj Hk.
    apply list_lookup_fmap_Some in Hj as (u & -> & Hu).
    apply list_lookup_fmap_Some in Hk as (v & Heq & Hv).
    destruct (Hl _ _ Hu) as [Hidu _]. destruct (Hl _ _ Hv) as [Hidv _]. lia.
  - apply Hnd. intros i j u v Hi Hj (_ & Hu & _) (_ & Hv & _) Heq.
    rewrite Hu, Hv in Heq. apply (inj (String.append "user_")) in Heq.
    apply fmt_d_inj in Heq; assumption.
  - apply Hnd. intros i j u v Hi Hj (_ & Hu & Hue & _) (_ & Hv & Hve & _) Heq.
    rewrite Hue, Hve in Heq. apply str_app_inj_r in Heq.
    rewrite Hu, Hv in Heq. apply (inj (String.append "user_")) in Heq.
    apply fmt_d_inj in Heq; assumption.
Qed.

(** ** Purchases and the clock *)

Lemma clock_after_add (k1 k2 : nat) c :
  clock_after (k1 + k2) c = clock_after k2 (clock_after k1 c).
Proof.
  revert c. induction k1 as [|k1 IH]; intros c; [reflexivity | apply IH].
Qed.

Lemma readings_add (k1 k2 : nat) c :
  readings (k1 + k2) c = readings k1 c ++ readings k2 (clock_after k1 c).
Proof.
  revert c. induction k1 as [|k1 IH]; intros c; [reflexivity |].
  simpl. f_equal. apply IH.
Qed.

Lemma clock_kept_of_rng_only {A} (P : A -> Prop) (m : M A) :
  rng_only m -> total P m ->
  hoare m (fun w a w' => P a /\ w_clock w' = w_clock w).
Proof.
  intros Hr Ht w. destruct (Ht w) as (a & w' & E & Ha).
  destruct (Hr w) as (Hc & _). rewrite E in Hc. eauto.
Qed.

Lemma clocked_bind_keep {A B D} (P : A -> Prop) (items : B -> list D)
    (Rel : D -> datetime -> Prop) (m : M A) (k : A -> M B) :
  hoare m (fun w a w' => P a /\ w_clock w' = w_clock w) ->
  (forall a, P a -> clocked items Rel (k a)) ->
  clocked items Rel (x <- m ;; k x).
Proof.
  intros Hm Hk w. destruct (Hm w) as (a & w1 & Em & Ha & Hc).
  destruct (Hk a Ha w1) as (b & w2 & Ek & Hafter & Hall).
  exists b, w2. unfold bind. rewrite Em, <- Hc. auto.
Qed.

Lemma clocked_bind_ret {A B D} (items : A -> list D) (items' : B -> list D)
    (Rel : D -> datetime -> Prop) (m : M A) (f : A -> B) :
  clocked items Rel m -> (forall a, items' (f a) = items a) ->
  clocked items' Rel (x <- m ;; ret (f x)).
Proof.
  intros Hm Hf w. destruct (Hm w) as (a & w1 & Em & Hafter & Hall).
  exists (f a), w1. unfold bind. rewrite Em, Hf. auto.
Qed.

(** A reading of the clock followed by steps that leave the clock alone. *)
Lemma clocked_bind_now {B} (Rel : B -> datetime -> Prop) (k : datetime -> M B) :
  (forall t, EPOCH_1970 <= t < YEAR_9999 ->
     hoare (k t) (fun w b w' => Rel b t /\ w_clock w' = w_clock w)) ->
  clocked (fun b => [b]) Rel (t <- now ;; k t).
Proof.
  intros Hk w. unfold bind, now.
  pose proof (clock_now_range (w_clock w)) as Ht.
  destruct (clock_now (w_clock w)) as [t c] eqn:E. cbn [fst] in Ht.
  destruct (Hk t Ht (mkWorld (w_rng w) c (w_next w)))
    as (b & w' & Ek & Hb & Hc).
  exists b, w'. split; [exact Ek |].
  cbn [length clock_after readings w_clock] in *. rewrite E. cbn [fst snd].
  split; [exact Hc |]. constructor; [exact Hb | constructor].
Qed.

Lemma clocked_for_from {A D} (items : A -> list D)
    (Rel : D -> datetime -> Prop) (body : Z -> M A) :
  (forall i, clocked items Rel (body i)) ->
  forall rounds i,
    clocked (fun l => concat (items <$> l)) Rel (for_from i rounds body).
Proof.
  intros Hbody. induction rounds as [|rounds IH]; intros i w; simpl.
  - exists [], w. split; [reflexivity |]. split; [reflexivity | constructor].
  - destruct (Hbody i w) as (x & w1 & Ex & Hc1 & Hall1).
    destruct (IH (i + 1) w1) as (xs & w2 & Exs & Hc2 & Hall2).
    exists (x :: xs), w2. unfold bind. rewrite Ex, Exs.
    split; [reflexivity |].
    cbn [fmap list_fmap concat]. rewrite length_app, clock_after_add,
      readings_add, <- Hc1.
    split; [exact Hc2 |]. apply Forall2_app; assumption.
Qed.

Lemma all_purchases_refs (l : list User.t) :
  concat (user_refs <$> l) = Purchase.ref <$> all_purchases l.
Proof.
  unfold all_purchases, user_refs.
  induction l as [|u l IH]; [reflexivity |].
  cbn [fmap list_fmap concat]. rewrite fmap_app. f_equal. exact IH.
Qed.

(** X15.  [generate_user_data] reads the clock once for every purchase it
    makes, in the order of the purchases, and dates each purchase a whole
    number of days, from 1 to 90, before the reading taken for it: the
    purchases of one call are not dated from one common instant.  Every
    purchase, of the same user or of another, is an object of its own,
    created by the call. *)
Theorem generate_user_data_purchases (n : Z) :
  hoare (generate_user_data n) (fun w l w' =>
    w_clock w' = clock_after (length (all_purchases l)) (w_clock w) /\
    Forall2 purchase_dated (all_purchases l)
            (readings (length (all_purchases l)) (w_clock w)) /\
    fresh_in (w_next w) (w_next w') (Purchase.ref <$> all_purchases l)).
Proof.
  eapply hoare_weaken.
  - apply hoare_conj; [| apply (generate_user_data_allocates n)].
    unfold generate_user_data. cbv zeta.
    apply (clocked_for_from User.purchases purchase_dated). intros i.
    do 5 (eapply clocked_bind_keep;
          [apply clock_kept_of_rng_only; [rng_only_tac | total_op]
          | cbv beta; intros ? ?]).
    apply (clocked_bind_ret (fun l => concat ((fun p => [p]) <$> l))).
    + apply clocked_for_from. intros _.
      do 2 (eapply clocked_bind_keep;
            [apply clock_kept_of_rng_only; [rng_only_tac | total_op]
            | cbv beta; intros ? ?]).
      apply clocked_bind_now. intros t Ht w.
      destruct (randint_total 1 90 ltac:(lia) w) as (days & w1 & E1 & Hdays).
      destruct (rng_only_randint 1 90 w) as (Hc1 & _). rewrite E1 in Hc1.
      eexists _, _. unfold bind at 1. rewrite E1.
      unfold timedelta, dt_sub, dt_add, new_object, bind, ret. cbv zeta.
      replace (days * US_PER_DAY + 0 * US_PER_HOUR + 0 * US_PER_MINUTE)
        with (days * US_PER_DAY) by lia.
      assert ((- TIMEDELTA_MAX_DAYS * US_PER_DAY <=? days * US_PER_DAY)
              && (days * US_PER_DAY <? (TIMEDELTA_MAX_DAYS + 1) * US_PER_DAY)
              = true) as ->
        by (apply andb_true_iff; split; [apply Z.leb_le | apply Z.ltb_lt];
            unfold_time; lia).
      assert ((0 <=? t + - (days * US_PER_DAY))
              && (t + - (days * US_PER_DAY) <=? DATETIME_MAX) = true) as ->
        by (apply andb_true_iff; split; apply Z.leb_le; unfold_time; lia).
      split; [reflexivity |]. cbn [w_clock snd Purchase.date].
      split; [| exact Hc1]. exists days.
      split; [exact Hdays | cbn [Purchase.date]; lia].
    + intros purchases. cbn [User.purchases].
      induction purchases as [|p ps IH]; [reflexivity |].
      cbn [fmap list_fmap concat app]. f_equal. exact IH.
  - cbv beta. intros w l w' [[Hc Hall] [_ Hfresh]].
    rewrite all_purchases_refs in Hfresh. auto.
Qed.

(** ** Lines with email addresses *)

Lemma str_app_nil_r (a : string) : a +:+ "" = a.
Proof.
  induction a as [|x a IH]; [reflexivity | exact (f_equal (String x) IH)].
Qed.

Lemma list_ascii_of_string_app (a b : string) :
  String.list_ascii_of_string (a +:+ b)
  = String.list_ascii_of_string a ++ String.list_ascii_of_string b.
Proof.
  induction a as [|x a IH]; [reflexivity | exact (f_equal (cons x) IH)].
Qed.

(** A line has an [@] exactly when it is not the sentence without an
    address. *)
Lemma email_line_at (line : string) :
  email_line_ok line ->
  ("@"%char ∈ String.list_ascii_of_string line <->
   line <> "This line contains no email address.").
Proof.
  assert ("@"%char ∉ String.list_ascii_of_string
                       "This line contains no email address.") as Hfixed.
  { intros Hin. cbn in Hin.
    repeat (apply elem_of_cons in Hin as [Hin | Hin]; [discriminate Hin |]).
    apply elem_of_nil in Hin. exact Hin. }
  intros [-> | (part & username & domain & tail & _ & _ & _ & _ & _ & ->)].
  - split; [intros Hin; contradiction | intros Hne; congruence].
  - assert ("@"%char ∈ String.list_ascii_of_string
              (part +:+ " " +:+ username +:+ "@" +:+ domain +:+ tail)) as Hin.
    { rewrite !list_ascii_of_string_app, !elem_of_app.
      right. right. right. left. cbn. apply elem_of_cons. left. reflexivity. }
    split; [| intros _; exact Hin].
    intros _ Heq. rewrite Heq in Hin. contradiction.
Qed.

(** X16.  [generate_emails_text] returns 30 lines.  Each line is either the
    sentence that says it holds no address, or one of the five phrases, a
    space, an address made of eight lowercase letters, [@] and one of the
    four domains, followed or not by [ or call ] and a number of three
    digits, a dash and a number of four digits.  A line holds an [@]
    exactly when it is not the sentence without an address. *)
Theorem generate_emails_text_lines :
  total (fun l =>
           length l = 30%nat /\
           Forall (fun line =>
                     email_line_ok line /\
                     ("@"%char ∈ String.list_ascii_of_string line <->
                      line <> "This line contains no email address.")) l)
        generate_emails_text.
Proof.
  unfold generate_emails_text. cbv zeta.
  fold email_domains. fold email_text_parts.
  eapply total_weaken.
  { apply (for_range_total email_line_ok). intros _.
    mstep. mstep; [| apply total_ret; left; reflexivity].
    do 4 mstep. destruct H0 as [Hlen Hall]. mstep.
    - do 2 mstep. apply total_ret. right.
      exists a2, (String.string_of_list_ascii a0), a1,
        (" or call " +:+ str_of_int a4 +:+ "-" +:+ str_of_int a5).
      rewrite length_string_of_list_ascii,
        String.list_ascii_of_string_of_list_ascii, !str_app_assoc.
      repeat split; try assumption; eauto 10.
    - apply total_ret. right.
      exists a2, (String.string_of_list_ascii a0), a1, "".
      rewrite length_string_of_list_ascii,
        String.list_ascii_of_string_of_list_ascii, str_app_nil_r.
      repeat split; try assumption; eauto. }
  cbv beta. intros l [Hlen Hall]. split; [exact Hlen |].
  eapply Forall_impl; [exact Hall |]. intros line Hline.
  split; [exact Hline | apply email_line_at, Hline].
Qed.

(** ** Numbers with patterns *)

(** X17.  The list of [generate_pattern_numbers] holds the ten squares, the
    fifteen primes and the eleven Fibonacci numbers together, each as often
    as the three lists have it between them (1 is there three times at
    least, 2, 3, 5 and 13 twice), and every number of the list lies in
    [[1, 100]]. *)
Theorem generate_pattern_numbers_contents :
  total (fun l =>
           squares ++ primes ++ fibs ⊆+ l /\
           Forall (fun x => 1 <= x <= 100) l)
        generate_pattern_numbers.
Proof.
  eapply total_weaken; [apply generate_pattern_numbers_total |].
  intros l (randoms & _ & Hall & Hl). rewrite Hl. split.
  - rewrite !app_assoc. apply submseteq_inserts_r. reflexivity.
  - rewrite !Forall_app. split; [| split; [| split; [| exact Hall]]].
    + change squares with [1; 4; 9; 16; 25; 36; 49; 64; 81; 100].
      repeat (constructor; [lia |]). constructor.
    + unfold primes. repeat (constructor; [lia |]). constructor.
    + unfold fibs. repeat (constructor; [lia |]). constructor.
Qed.

(** ** All the datasets *)

Lemma generate_grades_dict_size n_students n_assignments :
  total (fun grades => size grades = Z.to_nat n_students)
        (generate_grades_dict n_students n_assignments).
Proof.
  unfold generate_grades_dict. fold (student_labels n_students).
  eapply total_weaken.
  - apply dict_comp_dom. intros student.
    eapply total_returns, (dict_comp_dom (fun _ => randint 60 100)).
    intros assignment. eapply total_returns, randint_total. lia.
  - cbv beta. intros grades Hdom.
    rewrite dom_empty_L, (right_id_L ∅ (∪)) in Hdom.
    rewrite (size_of_labels grades _ (student_labels_NoDup _) Hdom).
    unfold student_labels. rewrite length_fmap, length_seqZ. reflexivity.
Qed.

(** One generator called with a count: it returns that many items. *)
Ltac sized count lemma :=
  eapply (total_bind (fun l => length l = Z.to_nat count));
  [eapply hoare_weaken;
   [apply lemma
   | cbv beta; intros ? ? ? Hpost; first [exact Hpost | exact (proj1 Hpost)]]
  | cbv beta; intros ? ?].

(** X18.  [generate_all_datasets] returns a dictionary with exactly the 16
    keys of the listing, and the default arguments make the length of what
    is under each key the same on every call: 100 numbers, 100 floats, 50
    strings, 100 words, 30 sentences, 50 students, 100 products, 200
    transactions, 500 log entries, a matrix of 5 rows, the grades of 20
    students, a time series of 30 days, 100 users, 95 mixed values, 30
    lines of text and 86 pattern numbers. *)
Theorem generate_all_datasets_sizes :
  total (fun d =>
           dataset_len <$> d = list_to_map default_sizes /\
           dom d = list_to_set default_sizes.*1)
        generate_all_datasets.
Proof.
  assert (forall d : gmap string dataset,
            dataset_len <$> d = list_to_map default_sizes ->
            dataset_len <$> d = list_to_map default_sizes /\
            dom d = list_to_set default_sizes.*1) as Hdom.
  { intros d Hd. split; [exact Hd |].
    rewrite <- (dom_fmap_L dataset_len), Hd. apply dom_list_to_map_L. }
  unfold generate_all_datasets.
  sized 100 (generate_numbers_int 100 (-100) 100 ltac:(lia)).
  sized 100 (generate_numbers_float 100 (-100) 100 ltac:(lia)).
  sized 50 (generate_strings_total 50 3 15 ltac:(lia)).
  sized 100 (generate_words_total 100).
  sized 30 (generate_sentences_total 30).
  sized 50 (generate_students_total 50).
  sized 100 (generate_products_total 100).
  sized 200 (generate_transactions_hoare 200).
  sized 500 (generate_logs_hoare 500).
  sized 5 (generate_matrix_total 5 5 0 10 ltac:(lia)).
  eapply total_bind; [apply (generate_grades_dict_size 20 5) |].
  cbv beta. intros grades Hgrades.
  sized 30 (generate_time_series_hoare 30 100 ltac:(lia)).
  sized 100 (generate_user_data_total 100).
  eapply total_bind; [apply generate_mixed_types_total |].
  cbv beta. intros mixed_types ->.
  eapply total_bind; [apply generate_emails_text_total |].
  cbv beta. intros emails_text Hemails.
  eapply total_bind; [apply generate_pattern_numbers_total |].
  cbv beta. intros pattern_numbers (randoms & Hlen & _ & Hl).
  apply total_ret, Hdom.
  rewrite !fmap_insert, fmap_empty. cbn [dataset_len].
  rewrite Hl, !length_app, Hlen, Hemails, Hgrades.
  repeat match goal with
         | H : length _ = _ |- _ => rewrite H; clear H
         end.
  reflexivity.
Qed.

(** ** Generators that the seed fixes *)

Lemma reproducible_of_rng_only {A} (m : M A) : rng_only m -> reproducible m.
Proof.
  intros Hm a w1 w2. unfold bind, seed.
  destruct (Hm (mkWorld (rng_seed a) (w_clock w1) (w_next w1)))
    as (_ & _ & Hsame).
  destruct (Hsame (mkWorld (rng_seed a) (w_clock w2) (w_next w2)) eq_refl)
    as [Hfst _].
  symmetry. exact Hfst.
Qed.

(** X19.  Eleven of the generators never read the clock, whatever their
    arguments, and what they do depends on the state of the random source
    alone.  So a call that follows [random.seed(a)] does the same in every
    world: it returns the same value or raises the same exception, for
    every seed [a], whatever the clock shows. *)
Theorem clock_free_generators_reproducible :
  (forall n min_val max_val type,
     clock_free (generate_numbers n min_val max_val type)) /\
  (forall n min_len max_len, clock_free (generate_strings n min_len max_len)) /\
  (forall n, clock_free (generate_words n)) /\
  (forall n, clock_free (generate_sentences n)) /\
  (forall n, clock_free (generate_students n)) /\
  (forall n, clock_free (generate_products n)) /\
  (forall rows cols min_val max_val,
     clock_free (generate_matrix rows cols min_val max_val)) /\
  (forall n_students n_assignments,
     clock_free (generate_grades_dict n_students n_assignments)) /\
  clock_free generate_mixed_types /\
  clock_free generate_emails_text /\
  clock_free generate_pattern_numbers.
Proof.
  assert (forall A (m : M A), rng_only m -> clock_free m) as Hfree
    by (intros A m Hm; split;
        [intros w; apply Hm | apply reproducible_of_rng_only, Hm]).
  repeat match goal with |- _ /\ _ => split end; intros; apply Hfree.
  - apply rng_only_generate_numbers.
  - apply rng_only_generate_strings.
  - apply rng_only_generate_words.
  - apply rng_only_generate_sentences.
  - apply rng_only_generate_students.
  - apply rng_only_generate_products.
  - apply rng_only_generate_matrix.
  - apply rng_only_generate_grades_dict.
  - apply rng_only_generate_mixed_types.
  - apply rng_only_generate_emails_text.
  - apply rng_only_generate_pattern_numbers.
Qed.

(** ** Printing a sample *)

(** X20.  [print_sample] writes a header that starts with an empty line and
    names the data and [n], a rule of 50 dashes, one line for each item
    shown and a last line with the length of the whole data.
    With [n >= 0] the items shown are the first [n], or all of them when
    there are fewer; with a negative [n] they are all but the last [-n],
    whatever the header says.  The last line counts all the items, shown or
    not. *)
Theorem print_sample_lines {A} (show : A -> string) (data : list A)
    (name : string) (n : Z) :
  exists shown,
    print_sample show data name n
    = (String "010" "" +:+ name +:+ " (first " +:+ str_of_int n +:+ " items):")
      :: str_times "-" 50
      :: ((fun item => "  " +:+ show item) <$> shown)
      ++ ["  ... (total: " +:+ str_of_int (Z.of_nat (length data))
          +:+ " items)"] /\
    String.length (str_times "-" 50) = 50%nat /\
    shown `prefix_of` data /\
    Z.of_nat (length shown)
    = (if n <? 0 then Z.max 0 (Z.of_nat (length data) + n)
       else Z.min n (Z.of_nat (length data))) /\
    (Z.of_nat (length data) <= n -> shown = data).
Proof.
  exists (slice_to data n). split; [reflexivity |].
  split; [reflexivity |]. unfold slice_to.
  destruct (Z.ltb_spec n 0) as [Hneg | Hpos].
  - split; [apply prefix_take |]. split; [rewrite length_take; lia | lia].
  - split; [apply prefix_take |]. split; [rewrite length_take; lia |].
    intros Hall. apply take_ge. lia.
Qed.

End Properties.

(** * The properties at a concrete world *)

Section Concrete.

#[local] Existing Instance scripted_rng.
#[local] Existing Instance ticking_clock.

(** The model runs: a few calls in the concrete world. *)

Example generate_numbers_runs :
  fst (generate_numbers 5 (-100) 100 "int" (world0 [] 42 0))
  = Ok [NInt 27; NInt 95; NInt (-17); NInt (-44); NInt (-68)].
Proof. vm_compute. reflexivity. Qed.

Example generate_numbers_scripted :
  fst (generate_numbers 3 1 6 "int" (world0 [0; 5; 7] 42 0))
  = Ok [NInt 1; NInt 6; NInt 2].
Proof. vm_compute. reflexivity. Qed.

Example generate_words_runs :
  fst (generate_words 3 (world0 [] 42 0))
  = Ok ["underwalkest"; "antiwalkest"; "detestful"].
Proof. vm_compute. reflexivity. Qed.

Example generate_grades_dict_keys :
  (fun grades => grades !! "Student_02" ≫= (.!! "HW_3"))
    <$> to_option
          (fst (generate_grades_dict 2 3 (world0 [7; 8; 9; 10; 11; 40] 42 0)))
  = Some (Some 100).
Proof. vm_compute. reflexivity. Qed.

Example fmt_d_pads :
  (fmt_d 4 7, fmt_d 2 123, fmt_d 4 (-7)) = ("0007", "123", "-007").
Proof. reflexivity. Qed.

Example py_round_ties_to_even :
  (py_round (125 # 1000) 2, py_round (375 # 1000) 2, py_round (30499 # 1000) 2)
  = (12 # 100, 38 # 100, 3050 # 100).
Proof. reflexivity. Qed.

Example print_sample_runs :
  print_sample str_of_int [3; 1; 4; 1; 5; 9] "digits" 2
  = [String "010" "digits (first 2 items):";
     "--------------------------------------------------";
     "  3"; "  1"; "  ... (total: 6 items)"].
Proof. reflexivity. Qed.

Example print_sample_negative :
  print_sample str_of_int [3; 1; 4; 1; 5; 9] "digits" (-4)
  = [String "010" "digits (first -4 items):";
     "--------------------------------------------------";
     "  3"; "  1"; "  ... (total: 6 items)"].
Proof. reflexivity. Qed.

(** [b64_round] against the binary64 of the Standard Library: conversions
    of ints (ties, large ones), quotients, products and sums of floats, a
    tie among the subnormal numbers. *)
Example b64_round_agrees_with_spec_float :
  forallb (fun n => agrees_with (inject_Z n)
                      (binary_normalize 53 1024 n 0 false))
    [10 ^ 17 + 1; 10 ^ 17 + 3; 2 ^ 53 + 1; 2 ^ 53 + 3; - (2 ^ 60 + 2 ^ 7);
     - (10 ^ 300 + 7); 2 ^ 1024 - 2 ^ 970 - 1; 3; 0]
  && forallb (fun pq : Z * Z =>
                let x := binary_normalize 53 1024 (fst pq) 0 false in
                let y := binary_normalize 53 1024 (snd pq) 0 false in
                agrees_with (inject_Z (fst pq) / inject_Z (snd pq))
                  (SFdiv 53 1024 x y)
                && agrees_with (inject_Z (fst pq) * inject_Z (snd pq))
                     (SFmul 53 1024 x y)
                && agrees_with (inject_Z (fst pq) + inject_Z (snd pq))
                     (SFadd 53 1024 x y))
       [(1, 3); (2999, 100); (- 7, 2 ^ 52 + 1); (2 ^ 53 - 1, 2 ^ 53 - 3);
        (10 ^ 17, 2); (1, 3 * 2 ^ 1000); (2 ^ 53 - 1, 1)]
  && agrees_with ((3 * 2 ^ (-1074)) / 2)
       (SFdiv 53 1024 (S754_finite false 3 (-1074))
          (binary_normalize 53 1024 2 0 false))
  = true.
Proof. vm_compute. reflexivity. Qed.

(** Binary64 runs: at the default range the float of [uniform_binary64] is
    the exact value of [uniform] rounded; an int beyond the floats
    raises. *)
Example uniform_binary64_runs :
  (fst (uniform_binary64 (-100) 100 (world0 [] 42 0)),
   fst (uniform (-100) 100 (world0 [] 42 0)))
  = (Ok (Finite (7682051841221736 # 562949953421312)),
     Ok (122912829459547800 # 9007199254740992)).
Proof. vm_compute. reflexivity. Qed.

Example uniform_binary64_overflows :
  fst (uniform_binary64 0 (10 ^ 309) (world0 [] 42 0)) = Raise OverflowError.
Proof. vm_compute. reflexivity. Qed.

Example uniform_binary64_exact_bounds :
  fst (generate_numbers_binary64 2 (- 2 ^ 52) (2 ^ 52)
         (world0 [0; 2 ^ 53 - 1] 42 0))
  = Ok [Finite (inject_Z (- 2 ^ 52)); Finite (9007199254740990 # 2)].
Proof. vm_compute. reflexivity. Qed.

(** Two days of the series in binary64 from 100: the values shown are
    102.5 and the float nearest to 101.58. *)
Example generate_time_series_binary64_runs :
  match fst (generate_time_series_binary64 2 100 (world0 [] 42 0)) with
  | Ok l => Some (List.map FloatPoint.value l)
  | Raise _ => None
  end
  = Some [Finite (7212796278210560 # 70368744177664);
          Finite (7148057033567109 # 70368744177664)].
Proof. vm_compute. reflexivity. Qed.

(** An int that is no float: Python's [value + change] raises. *)
Example generate_time_series_binary64_overflows :
  fst (generate_time_series_binary64 1 (2 ^ 1024) (world0 [] 42 0))
  = Raise OverflowError.
Proof. vm_compute. reflexivity. Qed.

(** Far from zero the floats are sparse: from [10^17] a step of nearly 12
    moves the value by 16. *)
Example generate_time_series_binary64_sparse :
  match fst (generate_time_series_binary64 1 (10 ^ 17)
               (world0 [2 ^ 53 - 1] 42 0)) with
  | Ok l => Some (List.map FloatPoint.value l)
  | Raise _ => None
  end
  = Some [Finite (inject_Z (10 ^ 17 + 16))].
Proof. vm_compute. reflexivity. Qed.

(** C3 at [n = 3]: three words. *)
Lemma generators_return_requested_count_witness :
  0 <= 3 /\ total (fun l => Z.of_nat (length l) = 3) (generate_words 3).
Proof.
  split; [lia |].
  exact (proj1 (proj2 (proj2
           (generators_return_requested_count 3 ltac:(lia))))).
Defined.

(** C5, as the code has it, at the range [[0, 10]]: five floats. *)
Lemma numeric_generators_within_range_witness :
  (0 <= 10 /\ - FLOAT_EXACT <= 0 /\ 10 <= FLOAT_EXACT) /\
  total (Forall (in_range 0 10)) (generate_numbers 5 0 10 "float") /\
  total (Forall (float_in_range 0 10)) (generate_numbers_binary64 5 0 10).
Proof.
  split; [unfold FLOAT_EXACT; lia |].
  apply (proj1 (proj2 (numeric_generators_within_range 0 10 ltac:(lia))));
    unfold FLOAT_EXACT; lia.
Defined.

(** C5 does not hold as stated for the kind ["float"]: between the int
    bounds [10^17 + 1] and [10^17 + 3], which are in order, the float that
    [generate_numbers] returns is [1e17], below [min_val].  The bounds are
    not binary64 numbers: [min_val] converts to [1e17], and adding a
    product below 2 to it leaves it there. *)
Lemma generate_numbers_float_below_min_val :
  10 ^ 17 + 1 <= 10 ^ 17 + 3 /\
  fst (generate_numbers_binary64 1 (10 ^ 17 + 1) (10 ^ 17 + 3)
         (world0 [] 42 0)) = Ok [Finite (inject_Z (10 ^ 17))] /\
  ~ float_in_range (10 ^ 17 + 1) (10 ^ 17 + 3) (Finite (inject_Z (10 ^ 17))).
Proof.
  split; [lia |]. split; [vm_compute; reflexivity |].
  intros (q & Heq & Hlo & _). injection Heq as <-.
  rewrite <- Zle_Qle in Hlo. lia.
Qed.




(** The date of the transaction generated in [late_world]. *)
Lemma late_transaction_dates :
  transaction_dates (fst (generate_transactions 1 late_world))
  = Some [fst (clock_now (w_clock late_world)) + 23 * US_PER_HOUR].
Proof. vm_compute. reflexivity. Qed.

(** C2 fails on the code: when the draws of a transaction are 90 days and
    23 hours, its date lies 23 hours after the reading of the clock the
    90-day window is counted from. *)
Theorem transaction_dated_after_generation :
  let generation_time := fst (clock_now (w_clock late_world)) in
  exists tx,
    fst (generate_transactions 1 late_world) = Ok [tx] /\
    Transaction.date tx = generation_time + 23 * US_PER_HOUR /\
    ~ (generation_time - 90 * US_PER_DAY <= Transaction.date tx
       <= generation_time).
Proof.
  intros generation_time. pose proof late_transaction_dates as Hdates.
  fold generation_time in Hdates. revert Hdates.
  generalize (fst (generate_transactions 1 late_world)).
  intros [[| tx [| tx' l]] | e] Hdates; try discriminate Hdates.
  injection Hdates as Hdate.
  exists tx. split; [reflexivity |]. split; [exact Hdate |].
  rewrite Hdate. unfold US_PER_HOUR, US_PER_MINUTE. lia.
Qed.

(** The first transaction date of each of the two invocations. *)
Lemma first_transaction_dates :
  (first_transaction_date (fst first_invocation),
   first_transaction_date (fst second_invocation))
  = (Some 63837036000000000, Some 63837036000512000).
Proof. vm_compute. reflexivity. Qed.

(** C1 does not hold as stated: the clock has moved on between the two
    invocations, and the dates under ['transactions'] with it. *)
Lemma all_datasets_differ_between_invocations :
  exists d1 d2,
    fst first_invocation = Ok d1 /\ fst second_invocation = Ok d2 /\
    d1 !! "transactions" <> d2 !! "transactions".
Proof.
  pose proof first_transaction_dates as Hdates. revert Hdates.
  generalize (fst first_invocation) (fst second_invocation).
  intros [d1 | e1] [d2 | e2] Hdates; try discriminate Hdates.
  exists d1, d2. split; [reflexivity |]. split; [reflexivity |].
  intros Heq. unfold first_transaction_date in Hdates.
  rewrite Heq in Hdates. injection Hdates as H1 H2.
  rewrite H1 in H2. discriminate H2.
Qed.

(** C1, as the code has it, at the two invocations of the concrete world. *)
Lemma all_datasets_reproducible_up_to_clock_witness :
  exists d1 d2 w1 w2,
    seeded_all_datasets (world0 [] 0 0) = (Ok d1, w1) /\
    seeded_all_datasets w1 = (Ok d2, w2) /\
    (forall key, key ∉ clocked_keys -> d1 !! key = d2 !! key) /\
    (forall key, undated <$> (d1 !! key) = undated <$> (d2 !! key)) /\
    w_rng w1 = w_rng w2.
Proof.
  exact (all_datasets_reproducible_up_to_clock (world0 [] 0 0)).
Defined.

(** X1 where the range is empty, with one number and with none asked for,
    and with two floats. *)
Lemma generate_numbers_outcomes_witness :
  (0 < 1 /\ 3 < 5 /\ 0 <= 0 /\
   - FLOAT_EXACT <= 5 <= FLOAT_EXACT /\ - FLOAT_EXACT <= 3 <= FLOAT_EXACT) /\
  raises ValueError (generate_numbers 1 5 3 "int") /\
  total (fun l => l = []) (generate_numbers 0 5 3 "int") /\
  total (fun l => length l = 2%nat /\ Forall (float_in_range 3 5) l)
        (generate_numbers_binary64 2 5 3).
Proof.
  split; [unfold FLOAT_EXACT; lia |]. split; [| split].
  - apply (proj1 (generate_numbers_outcomes 1 5 3)); lia.
  - apply (proj1 (proj2 (generate_numbers_outcomes 0 5 3))). lia.
  - apply (proj2 (proj2 (generate_numbers_outcomes 2 5 3)));
      unfold FLOAT_EXACT; lia.
Defined.


(** X3 on two rows: with three columns of an empty range, and without
    columns. *)
Lemma generate_matrix_outcomes_witness :
  (0 < 2 /\ 0 < 3 /\ 0 < 10 /\ 0 <= 0) /\
  raises ValueError (generate_matrix 2 3 10 0) /\
  total (fun m => m = [[]; []]) (generate_matrix 2 0 10 0).
Proof.
  split; [lia |]. split.
  - apply (proj1 (generate_matrix_outcomes 2 3 10 0)); lia.
  - apply (proj1 (proj2 (generate_matrix_outcomes 2 0 10 0))). lia.
Defined.

(** X11 for three days from 100. *)
Lemma generate_time_series_walk_witness :
  0 <= 3 <= 719162 /\
  (-(1000000000) <= 100 <= 1000000000)%Q /\
  hoare (generate_time_series 3 100) (fun w l _ =>
    length l = 3%nat /\
    indexed (time_point_fields
               (fst (clock_now (w_clock w)) - 3 * US_PER_DAY)) 0 l /\
    forall k a b,
      l !! k = Some a -> l !! S k = Some b ->
      (-(1002 # 100) < TimePoint.value b - TimePoint.value a
       < 1202 # 100)%Q) /\
  - 1000000000 <= 100 <= 1000000000 /\
  hoare (generate_time_series_binary64 3 100) (fun w l _ =>
    length l = 3%nat /\
    indexed (float_point_fields
               (fst (clock_now (w_clock w)) - 3 * US_PER_DAY)) 0 l /\
    forall k a b,
      l !! k = Some a -> l !! S k = Some b ->
      exists qa qb,
        FloatPoint.value a = Finite qa /\
        FloatPoint.value b = Finite qb /\
        (-(1002 # 100) < qb - qa < 1202 # 100)%Q).
Proof.
  split; [lia |].
  destruct (generate_time_series_walk 3 ltac:(lia)) as [Hexact Hfloat].
  split; [split; discriminate |].
  split; [apply (Hexact 100%Q); split; discriminate |].
  split; [lia |].
  apply (Hfloat 100). lia.
Defined.

(** X12 for a series of ten thousand years, and for one of no day. *)
Lemma generate_time_series_edges_witness :
  (3651694 <= 3652500 <= TIMEDELTA_MAX_DAYS /\ -365 <= 0 <= 0) /\
  raises OverflowError (generate_time_series 3652500 100) /\
  total (fun l => l = []) (generate_time_series 0 100).
Proof.
  split; [unfold TIMEDELTA_MAX_DAYS; lia |]. split.
  - apply (proj1 (generate_time_series_edges 3652500 100)).
    unfold TIMEDELTA_MAX_DAYS. lia.
  - apply (proj2 (generate_time_series_edges 0 100)). lia.
Defined.

End Concrete.
